(** * Grazil: the Lua binding of the Lingeling SAT solver

    A shallow embedding of [src/c/grazil/bindings/lingeling/Solver.c].
    The C functions of the binding run against a [lua_State]; here they are
    computations in a state-and-error monad over an explicit model of that
    state: the stack of the running C function, its first upvalue (the
    [Solver] class table), the tables and full userdata of the heap, and the
    list of calls made so far into the Lingeling library.

    What is outside the repository is kept abstract or written out from its
    documented interface:
    - the Lingeling engine is an oracle ([Lingeling]) that answers [lglinit],
      [lglsat] and [lglderef] from the history of calls it has received;
      [lgladd] and [lglrelease] return nothing.  The oracle always answers:
      an engine that stops the process on a misuse of its API is not
      modelled.  [lglib.h] declares literals as C [int]:
      [void lgladd (LGL *, int)], [int lglderef (LGL *, int)];
    - the Lua API functions follow the reference manual of Lua 5.3/5.4 (the
      binding uses [lua_geti] and [lua_len], which exist from 5.3 on), where
      [lua_Integer] is a 64-bit integer.  Of the metamethods, [__eq] is
      dispatched, by [lua_compare]; an [__eq] handler is a function of its
      two operands.  [__len] and [__index] are not dispatched: the tables
      passed as arguments are plain tables;
    - the coercion of strings to numbers ([luaO_str2num]) is a parameter. *)

From Stdlib Require Import Ascii.
From stdpp Require Import base gmap strings list fin_maps.

Local Open Scope Z_scope.

(** ** Lua values *)

(** A [lua_Number] is an IEEE double: a finite one is [m * 2^e]. *)
Inductive lua_Number :=
| FFinite (m e : Z)
| FInf (negative : bool)
| FNaN.

Inductive lua_value :=
| LNil
| LBoolean (b : bool)
| LLightUserdata (p : Z)
| LInteger (n : Z)
| LFloat (f : lua_Number)
| LString (s : string)
| LTable (r : positive)
| LFunction (r : positive)
| LUserdata (r : positive)
| LThread (r : positive).

#[global] Instance lua_Number_eq_dec : EqDecision lua_Number.
Proof. solve_decision. Defined.

#[global] Instance lua_value_eq_dec : EqDecision lua_value.
Proof. solve_decision. Defined.

#[global] Instance lua_value_inhabited : Inhabited lua_value := populate LNil.

(** Type tags of [lua.h]. *)
Definition LUA_TNONE : Z := -1.
Definition LUA_TNIL : Z := 0.
Definition LUA_TBOOLEAN : Z := 1.
Definition LUA_TLIGHTUSERDATA : Z := 2.
Definition LUA_TNUMBER : Z := 3.
Definition LUA_TSTRING : Z := 4.
Definition LUA_TTABLE : Z := 5.
Definition LUA_TFUNCTION : Z := 6.
Definition LUA_TUSERDATA : Z := 7.
Definition LUA_TTHREAD : Z := 8.

Definition ttype (v : lua_value) : Z :=
  match v with
  | LNil => LUA_TNIL
  | LBoolean _ => LUA_TBOOLEAN
  | LLightUserdata _ => LUA_TLIGHTUSERDATA
  | LInteger _ | LFloat _ => LUA_TNUMBER
  | LString _ => LUA_TSTRING
  | LTable _ => LUA_TTABLE
  | LFunction _ => LUA_TFUNCTION
  | LUserdata _ => LUA_TUSERDATA
  | LThread _ => LUA_TTHREAD
  end.

(** Pseudo-indices of [lua.h]. *)
Definition LUA_REGISTRYINDEX : Z := -1001000.
Definition lua_upvalueindex (i : Z) : Z := LUA_REGISTRYINDEX - i.

(** Result codes of [lglib.h]. *)
Definition LGL_UNKNOWN : Z := 0.
Definition LGL_SATISFIABLE : Z := 10.
Definition LGL_UNSATISFIABLE : Z := 20.

(** ** Machine integers *)

(** [lua_Integer] is [long long]; the engine takes literals as [int].  The
    calls [lgladd (lgl, c)] and [lglderef (lgl, c)] with [c : lua_Integer]
    convert [c] to [int].  For a value that does not fit, ISO C leaves the
    result to the implementation; GCC, Clang and MSVC keep the low 32 bits,
    and so does the model. *)
Definition INT_MIN : Z := -2147483648.
Definition INT_MAX : Z := 2147483647.
Definition LUA_MININTEGER : Z := -9223372036854775808.
Definition LUA_MAXINTEGER : Z := 9223372036854775807.

Definition int_of_lua_Integer (c : Z) : Z :=
  (c + 2147483648) mod 4294967296 - 2147483648.

Definition fits_int (c : Z) : Prop := INT_MIN <= c <= INT_MAX.

#[global] Instance fits_int_dec c : Decision (fits_int c).
Proof. unfold fits_int. apply _. Defined.

(** [luaV_flttointns] in mode [F2Ieq]: a float converts to an integer only
    when it has an exact integer value that fits [lua_Integer]. *)
Definition fits_lua_Integer (n : Z) : option Z :=
  if (LUA_MININTEGER <=? n) && (n <=? LUA_MAXINTEGER) then Some n else None.

Definition luaV_flttointns (f : lua_Number) : option Z :=
  match f with
  | FFinite m e =>
      if 0 <=? e then fits_lua_Integer (m * 2 ^ e)
      else if m mod 2 ^ (- e) =? 0 then fits_lua_Integer (m / 2 ^ (- e))
      else None
  | FInf _ | FNaN => None
  end.

(** ** Heap objects *)

(** An [__eq] handler, as far as the model goes: what the call [h (a, b)]
    returns, read as a truth value, when the handler returns and changes
    nothing that the binding can see; [None] stands for any other behaviour
    (an error, an effect on the Lua state or on the engine, a value that
    cannot be called). *)
Definition eq_handler : Type := lua_value → lua_value → option bool.

(** The integer-keyed part of a table, its metatable, and its field
    [__eq], which [lua_compare] reads when the table is the metatable of an
    operand.  A key bound to [nil] is absent.  Other keys are never read by
    the binding. *)
Record Table := mkTable {
  t_int : gmap Z lua_value;
  t_meta : option positive;
  t_eq : option eq_handler;
}.

(** The block of a full userdata created by [Solver_new] holds one [LGL*]. *)
Record Udata := mkUdata {
  u_block : Z;
  u_meta : option positive;
}.

(** What [lua_touserdata] returns: [NULL], the address of the block of a
    full userdata, or the pointer stored in a light userdata. *)
Inductive c_ptr :=
| NULL
| Block (r : positive)
| Foreign (p : Z).

(** ** The engine, seen from the binding *)

Inductive lgl_call :=
| Lglinit
| Lgladd (lgl : Z) (lit : Z)
| Lglsat (lgl : Z)
| Lglderef (lgl : Z) (lit : Z)
| Lglrelease (lgl : Z).

#[global] Instance lgl_call_eq_dec : EqDecision lgl_call.
Proof. solve_decision. Defined.

(** The answers of the engine, given the calls it has received before. *)
Record Lingeling := mkLingeling {
  lglinit_ret : list lgl_call → Z;
  lglsat_ret : list lgl_call → Z → Z;
  lglderef_ret : list lgl_call → Z → Z → Z;
}.

(** ** The Lua state *)

Record lua_State := mkState {
  stack : list lua_value;          (* index 1 first *)
  upvalue1 : lua_value;            (* lua_upvalueindex(1) *)
  tables : gmap positive Table;
  udata : gmap positive Udata;
  G_mt : Z → option positive;      (* metatables of the basic types *)
  engine : list lgl_call;          (* oldest call first *)
}.

Definition set_stack (s : list lua_value) (st : lua_State) : lua_State :=
  mkState s (upvalue1 st) (tables st) (udata st) (G_mt st) (engine st).
Definition set_upvalue1 (v : lua_value) (st : lua_State) : lua_State :=
  mkState (stack st) v (tables st) (udata st) (G_mt st) (engine st).
Definition set_tables (t : gmap positive Table) (st : lua_State) : lua_State :=
  mkState (stack st) (upvalue1 st) t (udata st) (G_mt st) (engine st).
Definition set_udata (u : gmap positive Udata) (st : lua_State) : lua_State :=
  mkState (stack st) (upvalue1 st) (tables st) u (G_mt st) (engine st).
Definition set_G_mt (g : Z → option positive) (st : lua_State) : lua_State :=
  mkState (stack st) (upvalue1 st) (tables st) (udata st) g (engine st).
Definition set_engine (e : list lgl_call) (st : lua_State) : lua_State :=
  mkState (stack st) (upvalue1 st) (tables st) (udata st) (G_mt st) e.

(** ** The monad of C functions of the binding *)

(** A C function returns, or leaves through [lua_error] with the error
    object, or leaves the modelled fragment ([Stuck]: it dereferences a
    pointer that is not the block of a userdata, or breaks a precondition of
    the Lua API). *)
Inductive outcome (A : Type) :=
| Ret (a : A)
| Raise (err : lua_value)
| Stuck.
Arguments Ret {A} a.
Arguments Raise {A} err.
Arguments Stuck {A}.

Definition M (A : Type) : Type := lua_State → outcome A * lua_State.

Definition ret {A} (a : A) : M A := λ st, (Ret a, st).

Definition bind {A B} (m : M A) (k : A → M B) : M B :=
  λ st, match m st with
        | (Ret a, st') => k a st'
        | (Raise e, st') => (Raise e, st')
        | (Stuck, st') => (Stuck, st')
        end.

Definition stuck {A} : M A := λ st, (Stuck, st).

Notation "'do' x <- m ; k" := (bind m (λ x, k))
  (at level 10, x name, m at level 100, k at level 200,
   format "'[v' 'do'  x  <-  m ; '/' k ']'").
Notation "'do' ' p <- m ; k" := (bind m (λ x, match x with p => k end))
  (at level 10, p pattern, m at level 100, k at level 200).
Notation "m ;; k" := (bind m (λ _, k))
  (at level 100, k at level 200, right associativity).

Definition when_ (b : bool) (m : M unit) : M unit := if b then m else ret tt.

(** [for (int i = lo; i <= hi; i++) body(i)].  The counter of the source is
    an [int]; a bound above [INT_MAX], which takes a table of more than
    2^31 entries, is outside the model. *)
Fixpoint for_each (l : list Z) (body : Z → M unit) : M unit :=
  match l with
  | [] => ret tt
  | i :: l' => body i ;; for_each l' body
  end.

Definition for_range (lo hi : Z) (body : Z → M unit) : M unit :=
  for_each (seqZ lo (hi - lo + 1)) body.

(** ** The Lua API, on the model *)

Definition push (v : lua_value) (st : lua_State) : lua_State :=
  set_stack (stack st ++ [v]) st.

Definition log_call (c : lgl_call) (st : lua_State) : lua_State :=
  set_engine (engine st ++ [c]) st.

(** [index2value]: positive indices count from the bottom of the frame,
    negative ones from the top; [None] is a non-valid index. *)
Definition index2value (idx : Z) (st : lua_State) : option lua_value :=
  if 0 <? idx then stack st !! Z.to_nat (idx - 1)
  else if LUA_REGISTRYINDEX <? idx then
    if 0 <=? Z.of_nat (length (stack st)) + idx
    then stack st !! Z.to_nat (Z.of_nat (length (stack st)) + idx)
    else None
  else if idx =? lua_upvalueindex 1 then Some (upvalue1 st)
  else None.

(** A non-valid index reads as [nil] wherever the API does not test it. *)
Definition value_at (idx : Z) (st : lua_State) : lua_value :=
  default LNil (index2value idx st).

Definition lua_gettop : M Z :=
  λ st, (Ret (Z.of_nat (length (stack st))), st).

Definition lua_type (idx : Z) : M Z :=
  λ st, (Ret (from_option ttype LUA_TNONE (index2value idx st)), st).

Definition lua_pushvalue (idx : Z) : M unit :=
  λ st, (Ret tt, push (value_at idx st) st).

Definition lua_pushliteral (s : string) : M unit :=
  λ st, (Ret tt, push (LString s) st).

Definition lua_pushboolean (b : Z) : M unit :=
  λ st, (Ret tt, push (LBoolean (negb (b =? 0))) st).

Definition lua_pushinteger (n : Z) : M unit :=
  λ st, (Ret tt, push (LInteger n) st).

Definition lua_pop (n : nat) : M unit :=
  λ st, (Ret tt, set_stack (take (length (stack st) - n)%nat (stack st)) st).

(** [lua_error] raises the value on the top of the stack. *)
Definition lua_error {A} : M A :=
  λ st, match last (stack st) with
        | Some e => (Raise e, st)
        | None => (Stuck, st)
        end.

Definition metatable_of (st : lua_State) (v : lua_value) : option positive :=
  match v with
  | LTable r => tables st !! r ≫= t_meta
  | LUserdata r => udata st !! r ≫= u_meta
  | _ => G_mt st (ttype v)
  end.

Definition lua_getmetatable (objindex : Z) : M Z :=
  λ st, match metatable_of st (value_at objindex st) with
        | Some mt => (Ret 1, push (LTable mt) st)
        | None => (Ret 0, st)
        end.

(** [lua_setmetatable] pops a table or [nil] and makes it the metatable of
    the value at [objindex]: of that object for a table or a full userdata,
    of the whole type for any other value. *)
Definition lua_setmetatable (objindex : Z) : M Z :=
  λ st,
    let popped := set_stack (take (length (stack st) - 1)%nat (stack st)) st in
    match last (stack st) with
    | Some LNil | Some (LTable _) =>
        let mt := match last (stack st) with Some (LTable m) => Some m | _ => None end in
        match value_at objindex st with
        | LTable r =>
            match tables st !! r with
            | Some t => (Ret 1, set_tables (<[r := mkTable (t_int t) mt (t_eq t)]> (tables st)) popped)
            | None => (Stuck, st)
            end
        | LUserdata r =>
            match udata st !! r with
            | Some u => (Ret 1, set_udata (<[r := mkUdata (u_block u) mt]> (udata st)) popped)
            | None => (Stuck, st)
            end
        | v => (Ret 1, set_G_mt (λ tag, if tag =? ttype v then mt else G_mt st tag) popped)
        end
    | _ => (Stuck, st)
    end.

Definition luai_numeq (a b : lua_Number) : bool :=
  match a, b with
  | FFinite m1 e1, FFinite m2 e2 =>
      m1 * 2 ^ (e1 - Z.min e1 e2) =? m2 * 2 ^ (e2 - Z.min e1 e2)
  | FInf s1, FInf s2 => eqb s1 s2
  | _, _ => false
  end.

(** [luaV_rawequalobj]: primitive equality, without metamethods. *)
Definition luaV_rawequalobj (a b : lua_value) : bool :=
  match a, b with
  | LNil, LNil => true
  | LBoolean x, LBoolean y => eqb x y
  | LLightUserdata p, LLightUserdata q => p =? q
  | LInteger x, LInteger y => x =? y
  | LFloat x, LFloat y => luai_numeq x y
  | LInteger x, LFloat y => bool_decide (luaV_flttointns y = Some x)
  | LFloat x, LInteger y => bool_decide (luaV_flttointns x = Some y)
  | LString x, LString y => bool_decide (x = y)
  | LTable r, LTable s => bool_decide (r = s)
  | LFunction r, LFunction s => bool_decide (r = s)
  | LUserdata r, LUserdata s => bool_decide (r = s)
  | LThread r, LThread s => bool_decide (r = s)
  | _, _ => false
  end.

(** [fasttm (L, mt, TM_EQ)] for the metatable [mt] of a table or a full
    userdata: the field [__eq] of the metatable, read without metamethods. *)
Definition fasttm_eq (st : lua_State) (v : lua_value) : option eq_handler :=
  match v with
  | LTable _ | LUserdata _ => metatable_of st v ≫= (λ mt, tables st !! mt ≫= t_eq)
  | _ => None
  end.

(** [luaV_equalobj]: the equality [==] of Lua.  Two tables, or two full
    userdata, that are not the same object are equal when an [__eq]
    handler says so: the handler of the first operand, or else of the
    second, is called with both.  [None] when the call of the handler is
    outside the model. *)
Definition luaV_equalobj (st : lua_State) (a b : lua_value) : option bool :=
  match a, b with
  | LTable r, LTable s | LUserdata r, LUserdata s =>
      if bool_decide (r = s) then Some true
      else match fasttm_eq st a with
           | Some h => h a b
           | None =>
               match fasttm_eq st b with
               | Some h => h a b
               | None => Some false
               end
           end
  | _, _ => Some (luaV_rawequalobj a b)
  end.

(** [lua_compare (L, index1, index2, LUA_OPEQ)]: 0 when an index is not
    valid. *)
Definition lua_compare_OPEQ (index1 index2 : Z) : M Z :=
  λ st, match index2value index1 st, index2value index2 st with
        | Some a, Some b =>
            match luaV_equalobj st a b with
            | Some eq => (Ret (if eq then 1 else 0), st)
            | None => (Stuck, st)
            end
        | _, _ => (Ret 0, st)
        end.

Definition touserdata (v : lua_value) : c_ptr :=
  match v with
  | LUserdata r => Block r
  | LLightUserdata p => if p =? 0 then NULL else Foreign p
  | _ => NULL
  end.

Definition lua_touserdata (idx : Z) : M c_ptr :=
  λ st, (Ret (touserdata (value_at idx st)), st).

Definition is_NULL (p : c_ptr) : bool :=
  match p with NULL => true | _ => false end.

(** [*lgl_ptr]: only the block of a full userdata is modelled memory. *)
Definition load_LGL (p : c_ptr) : M Z :=
  λ st, match p with
        | Block r =>
            match udata st !! r with
            | Some u => (Ret (u_block u), st)
            | None => (Stuck, st)
            end
        | _ => (Stuck, st)
        end.

(** [*lgl_ptr = lgl] *)
Definition store_LGL (p : c_ptr) (lgl : Z) : M unit :=
  λ st, match p with
        | Block r =>
            match udata st !! r with
            | Some u => (Ret tt, set_udata (<[r := mkUdata lgl (u_meta u)]> (udata st)) st)
            | None => (Stuck, st)
            end
        | _ => (Stuck, st)
        end.

(** [lua_newuserdata] for a block of one pointer: a new full userdata, no
    metatable.  The block is not initialised; the model puts 0 there. *)
Definition lua_newuserdata : M c_ptr :=
  λ st, let r := fresh (dom (udata st)) in
        (Ret (Block r),
         push (LUserdata r) (set_udata (<[r := mkUdata 0 None]> (udata st)) st)).

Definition lua_newtable : M unit :=
  λ st, let r := fresh (dom (tables st)) in
        (Ret tt, push (LTable r) (set_tables (<[r := mkTable ∅ None None]> (tables st)) st)).

(** [luaH_getn]: a border of the table, here the least one: the [n >= 0]
    with [t[1..n]] present and [t[n+1]] absent.  For a sequence it is the
    only border, its length.  For a table with holes Lua may return any
    border, depending on how the table was built: what is said of all the
    elements of a table is said of proper sequences. *)
Fixpoint border_from (fuel : nat) (t : gmap Z lua_value) (n : Z) : Z :=
  match fuel with
  | O => n
  | S fuel' =>
      match t !! (n + 1) with
      | Some _ => border_from fuel' t (n + 1)
      | None => n
      end
  end.

Definition luaH_getn (t : gmap Z lua_value) : Z := border_from (size t) t 0.

(** [lua_len] pushes the length of the value at [idx].  Both callers test
    for [LUA_TTABLE] first; the length of other values is not modelled. *)
Definition lua_len (idx : Z) : M unit :=
  λ st, match index2value idx st with
        | Some (LTable r) =>
            match tables st !! r with
            | Some t => (Ret tt, push (LInteger (luaH_getn (t_int t))) st)
            | None => (Stuck, st)
            end
        | _ => (Stuck, st)
        end.

(** [lua_geti] pushes [t[n]] for the table [t] at [idx]. *)
Definition lua_geti (idx : Z) (n : Z) : M Z :=
  λ st, match index2value idx st with
        | Some (LTable r) =>
            match tables st !! r with
            | Some t =>
                let v := default LNil (t_int t !! n) in
                (Ret (ttype v), push v st)
            | None => (Stuck, st)
            end
        | _ => (Stuck, st)
        end.

(** [lua_seti] does [t[n] = v] for the value [v] on the top, and pops it. *)
Definition lua_seti (idx : Z) (n : Z) : M unit :=
  λ st, match index2value idx st, last (stack st) with
        | Some (LTable r), Some v =>
            match tables st !! r with
            | Some t =>
                let t' := match v with
                          | LNil => delete n (t_int t)
                          | _ => <[n := v]> (t_int t)
                          end in
                (Ret tt,
                 set_tables (<[r := mkTable t' (t_meta t) (t_eq t)]> (tables st))
                   (set_stack (take (length (stack st) - 1)%nat (stack st)) st))
            | None => (Stuck, st)
            end
        | _, _ => (Stuck, st)
        end.

Section Binding.

(** Lua's coercion of a string to a number ([luaO_str2num]): an integer, a
    float, or no number. *)
Context (luaO_str2num : string → option (Z + lua_Number)).

(** The engine the binding is linked with. *)
Context (E : Lingeling).

(** [luaV_tointeger] with [cvt2num]: integers, floats with an exact integer
    value, and strings that read as one of these. *)
Definition tointeger (v : lua_value) : option Z :=
  match v with
  | LInteger n => Some n
  | LFloat f => luaV_flttointns f
  | LString s =>
      match luaO_str2num s with
      | Some (inl n) => Some n
      | Some (inr f) => luaV_flttointns f
      | None => None
      end
  | _ => None
  end.

(** [lua_tointegerx (L, idx, &isnum)]: the integer (0 on failure) and
    [isnum]. *)
Definition lua_tointegerx (idx : Z) : M (Z * bool) :=
  λ st, match tointeger (value_at idx st) with
        | Some n => (Ret (n, true), st)
        | None => (Ret (0, false), st)
        end.

Definition lua_tointeger (idx : Z) : M Z :=
  do '(n, _) <- lua_tointegerx idx; ret n.

(** ** The Lingeling API, on the model *)

Definition lglinit : M Z :=
  λ st, (Ret (lglinit_ret E (engine st)), log_call Lglinit st).

Definition lgladd (lgl lit : Z) : M unit :=
  λ st, (Ret tt, log_call (Lgladd lgl lit) st).

Definition lglsat (lgl : Z) : M Z :=
  λ st, (Ret (lglsat_ret E (engine st) lgl), log_call (Lglsat lgl) st).

Definition lglderef (lgl lit : Z) : M Z :=
  λ st, (Ret (lglderef_ret E (engine st) lgl lit), log_call (Lglderef lgl lit) st).

Definition lglrelease (lgl : Z) : M unit :=
  λ st, (Ret tt, log_call (Lglrelease lgl) st).

(** ** The binding: Solver.c *)

Definition Solver_new : M Z :=
  do userdata <- lua_newuserdata;
  lua_pushvalue (lua_upvalueindex 1) ;;
  lua_setmetatable 1 ;;
  do lgl <- lglinit;
  store_LGL userdata lgl ;;
  ret 1.

Definition Solver_gc : M Z :=
  do lgl_ptr <- lua_touserdata 1;
  (if is_NULL lgl_ptr then ret tt
   else do lgl <- load_LGL lgl_ptr; lglrelease lgl) ;;
  ret 0.

Definition get_lgl : M Z :=
  do has_mt <- lua_getmetatable 1;
  when_ (has_mt =? 0)
    (lua_pushliteral "Invalid self argument" ;; lua_error) ;;
  lua_pushvalue (lua_upvalueindex 1) ;;
  do same <- lua_compare_OPEQ (-1) (-2);
  when_ (same =? 0)
    (lua_pushliteral "Invalid self argument" ;; lua_error) ;;
  lua_pop 2 ;;
  do lgl_ptr <- lua_touserdata 1;
  when_ (is_NULL lgl_ptr)
    (lua_pushliteral "Invalid self argument" ;; lua_error) ;;
  load_LGL lgl_ptr.

Definition Solver_addDIMACSSeqence : M Z :=
  do lgl <- get_lgl;
  do n <- lua_gettop;
  for_range 2 n (λ i,
    do type <- lua_type i;
    if type =? LUA_TTABLE then
      lua_len i ;;
      do len <- lua_tointeger (-1);
      lua_pop 1 ;;
      for_range 1 len (λ j,
        lua_geti i j ;;
        do '(c, success) <- lua_tointegerx (-1);
        when_ (negb success)
          (lua_pushliteral "Illegal argument in DIMACS sequence" ;; lua_error) ;;
        lgladd lgl (int_of_lua_Integer c) ;;
        lua_pop 1)
    else
      do '(c, success) <- lua_tointegerx i;
      when_ (negb success)
        (lua_pushliteral "Illegal argument in DIMACS sequence" ;; lua_error) ;;
      lgladd lgl (int_of_lua_Integer c)) ;;
  ret 0.

Definition Solver_isSatisfiable : M Z :=
  do lgl <- get_lgl;
  do res <- lglsat lgl;
  (if res =? LGL_SATISFIABLE
   then lua_pushboolean 1
   else lua_pushboolean 0) ;;
  ret 1.

Definition Solver_query : M Z :=
  do lgl <- get_lgl;
  do top <- lua_gettop;
  when_ (negb (top =? 2))
    (lua_pushliteral "Query must be called with arguments self and a table" ;;
     lua_error) ;;
  do type <- lua_type 2;
  when_ (negb (type =? LUA_TTABLE))
    (lua_pushliteral "Query must be called with a table argument" ;;
     lua_error) ;;
  lua_newtable ;;
  lua_len 2 ;;
  do len <- lua_tointeger (-1);
  lua_pop 1 ;;
  for_range 1 len (λ j,
    lua_geti 2 j ;;
    do c <- lua_tointeger (-1);
    when_ (c =? 0)
      (lua_pushliteral "Array may contain only non-zero integers" ;;
       lua_error) ;;
    lua_pop 1 ;;
    do res <- lglderef lgl (int_of_lua_Integer c);
    lua_pushinteger res ;;
    lua_seti 3 j) ;;
  ret 1.

(** [luaopen_grazil_bindings_lingeling_Solver]: the fields of the class
    table that hold C functions.  All but [__gc] are closures with the class
    table as first upvalue; the table is also its own [__index]. *)
Definition luaopen_grazil_bindings_lingeling_Solver (field : string) : option (M Z) :=
  if bool_decide (field = "new") then Some Solver_new
  else if bool_decide (field = "addDIMACSequence") then Some Solver_addDIMACSSeqence
  else if bool_decide (field = "isSatisfiable") then Some Solver_isSatisfiable
  else if bool_decide (field = "query") then Some Solver_query
  else if bool_decide (field = "__gc") then Some Solver_gc
  else None.

End Binding.

(** ** Calls from Lua, and the life of a session *)

(** Lua calls the closure [f] whose first upvalue is [cls] with the
    arguments [args]: the function runs on a frame that holds the arguments,
    the first at index 1. *)
Definition enter (cls : lua_value) (args : list lua_value) (st : lua_State) : lua_State :=
  set_upvalue1 cls (set_stack args st).

Definition call_closure {A} (f : M A) (cls : lua_value) (args : list lua_value) : M A :=
  λ st, f (enter cls args st).

(** A session is the full userdata [LUserdata r] made by [Solver_new]: its
    block holds the engine handle [lgl] and its metatable is the class table
    [cls]. *)
Definition is_session (st : lua_State) (cls r : positive) (lgl : Z) : Prop :=
  udata st !! r = Some (mkUdata lgl (Some cls)).

(** The operations a script can apply to a session.  [Solver_gc] runs when
    the collector finalizes the userdata; as the class table is the
    [__index] of its instances, it is also reachable as the method [__gc]. *)
Inductive session_op :=
| OpAddDIMACSequence (args : list lua_value)
| OpIsSatisfiable
| OpQuery (args : list lua_value)
| OpGc.

Definition is_OpGc (op : session_op) : bool :=
  match op with OpGc => true | _ => false end.

Section Sessions.

Context (luaO_str2num : string → option (Z + lua_Number)).
Context (E : Lingeling).

(** An operation, run to its end or to its error; the state goes on to the
    next operation in both cases. *)
Definition run_op (cls r : positive) (op : session_op) (st : lua_State) : lua_State :=
  match op with
  | OpAddDIMACSequence args =>
      (call_closure (Solver_addDIMACSSeqence luaO_str2num) (LTable cls) (LUserdata r :: args) st).2
  | OpIsSatisfiable =>
      (call_closure (Solver_isSatisfiable E) (LTable cls) [LUserdata r] st).2
  | OpQuery args =>
      (call_closure (Solver_query luaO_str2num E) (LTable cls) (LUserdata r :: args) st).2
  | OpGc =>
      (call_closure Solver_gc LNil [LUserdata r] st).2
  end.

Definition run_ops (cls r : positive) (ops : list session_op) (st : lua_State) : lua_State :=
  foldl (λ st op, run_op cls r op st) st ops.

End Sessions.

(** How many times the handle [lgl] was released. *)
Definition releases (lgl : Z) (log : list lgl_call) : nat :=
  length (filter (λ c, c = Lglrelease lgl) log).

(** ** Literal streams *)

(** The table [{v1, ..., vn}], for values that are not [nil]. *)
Fixpoint seq_table_from (j : Z) (l : list lua_value) : gmap Z lua_value :=
  match l with
  | [] => ∅
  | v :: l' => <[j := v]> (seq_table_from (j + 1) l')
  end.

Definition seq_table (l : list lua_value) : gmap Z lua_value :=
  seq_table_from 1 l.

(** What a loop [for j = 1 .. lua_len t] reads from the table [t]. *)
Definition table_seq (t : gmap Z lua_value) : list lua_value :=
  (λ j, default LNil (t !! j)) <$> seqZ 1 (luaH_getn t).

(** The elements that one argument of [addDIMACSequence] stands for: the
    entries of a table, or the argument itself. *)
Definition arg_items (tbl : gmap positive Table) (v : lua_value) : list lua_value :=
  match v with
  | LTable r => from_option (λ t, table_seq (t_int t)) [] (tbl !! r)
  | _ => [v]
  end.

(** An argument as the interface describes it: a single integer or an
    ordered collection of integers. *)
Inductive dimacs_arg :=
| Literal (c : Z)
| Literals (cs : list Z).

Definition dimacs_literals (a : dimacs_arg) : list Z :=
  match a with
  | Literal c => [c]
  | Literals cs => cs
  end.

(** The Lua value [v] passes the argument [a]. *)
Definition passes (tbl : gmap positive Table) (v : lua_value) (a : dimacs_arg) : Prop :=
  match a with
  | Literal c => v = LInteger c
  | Literals cs =>
      ∃ r t, v = LTable r ∧ tbl !! r = Some t ∧ t_int t = seq_table (LInteger <$> cs)
  end.

Section Streams.

Context (luaO_str2num : string → option (Z + lua_Number)).
Context (E : Lingeling).

(** The integers of the longest prefix of [vs] that [lua_tointegerx]
    accepts. *)
Fixpoint integer_prefix (vs : list lua_value) : list Z :=
  match vs with
  | [] => []
  | v :: vs' =>
      match tointeger luaO_str2num v with
      | Some c => c :: integer_prefix vs'
      | None => []
      end
  end.

Definition all_integers (vs : list lua_value) : bool :=
  forallb (λ v, bool_decide (is_Some (tointeger luaO_str2num v))) vs.

(** [lua_tointeger]: 0 for a value that is not an integer. *)
Definition tointeger0 (v : lua_value) : Z :=
  default 0 (tointeger luaO_str2num v).

(** The integers of the longest prefix of [vs] that [Solver_query]
    accepts. *)
Fixpoint nonzero_prefix (vs : list lua_value) : list Z :=
  match vs with
  | [] => []
  | v :: vs' =>
      if tointeger0 v =? 0 then [] else tointeger0 v :: nonzero_prefix vs'
  end.

Definition all_nonzero (vs : list lua_value) : bool :=
  forallb (λ v, negb (tointeger0 v =? 0)) vs.

(** The answers of the engine to [lglderef] on the literals [lits], asked
    one after the other from the history [log]. *)
Fixpoint deref_all (log : list lgl_call) (lgl : Z) (lits : list Z) : list Z :=
  match lits with
  | [] => []
  | c :: lits' =>
      lglderef_ret E log lgl c :: deref_all (log ++ [Lglderef lgl c]) lgl lits'
  end.

End Streams.

(** The calls that change the engine: all but [lglderef]. *)
Definition is_deref (c : lgl_call) : bool :=
  match c with Lglderef _ _ => true | _ => false end.

Definition mutations (log : list lgl_call) : list lgl_call :=
  filter (λ c, is_deref c = false) log.

(** An engine for which [lglderef] is a read: its answer depends on the
    clauses added and the solves run, not on earlier reads. *)
Definition deref_is_read (E : Lingeling) : Prop :=
  ∀ log log' lgl lit,
    mutations log = mutations log' →
    lglderef_ret E log lgl lit = lglderef_ret E log' lgl lit.

(** ** A concrete host, for the examples *)

(** An engine that calls every formula satisfiable by the assignment that
    makes every variable true; handles are numbered from 100. *)
Definition demo_engine : Lingeling :=
  mkLingeling
    (λ log, 100 + Z.of_nat (length (filter (λ c, c = Lglinit) log)))
    (λ _ _, LGL_SATISFIABLE)
    (λ _ _ lit, Z.sgn lit).

(** An engine that counts the reads it has served. *)
Definition counting_engine : Lingeling :=
  mkLingeling
    (λ _, 100)
    (λ _ _, LGL_UNKNOWN)
    (λ log _ _, Z.of_nat (length (filter (λ c, is_deref c = true) log))).

(** Decimal numerals of at most 18 digits, with an optional minus sign: a
    fragment of [luaO_str2num] that is enough for the examples. *)
Definition digit (a : ascii) : option Z :=
  let n := Z.of_nat (nat_of_ascii a) in
  if (48 <=? n) && (n <=? 57) then Some (n - 48) else None.

Fixpoint digits (acc : Z) (s : string) : option Z :=
  match s with
  | EmptyString => Some acc
  | String a s' =>
      match digit a with
      | Some d => digits (10 * acc + d) s'
      | None => None
      end
  end.

Definition decimal_str2num (s : string) : option (Z + lua_Number) :=
  if (18 <? String.length s)%nat then None
  else match s with
       | EmptyString => None
       | String "-"%char EmptyString => None
       | String "-"%char s' => (λ n, inl (- n)) <$> digits 0 s'
       | _ => inl <$> digits 0 s
       end.

(** The state after [require] has made the class table (at reference 1);
    strings have the metatable of the string library (at reference 2). *)
Definition demo_init : lua_State :=
  mkState [] LNil
    {[ 1%positive := mkTable ∅ None None; 2%positive := mkTable ∅ None None ]}
    ∅
    (λ tag, if tag =? LUA_TSTRING then Some 2%positive else None)
    [].

(** [s = Solver.new ()] *)
Definition demo_session : lua_State :=
  (call_closure (Solver_new demo_engine) (LTable 1) [] demo_init).2.

(** The same, with the table [{1, -2, 3}] at reference 5. *)
Definition demo_with_table : lua_State :=
  set_tables (<[5%positive := mkTable (seq_table [LInteger 1; LInteger (-2); LInteger 3]) None None]>
                (tables demo_session)) demo_session.

(** ** Loop bodies, named *)

Section Bodies.

Context (luaO_str2num : string → option (Z + lua_Number)).
Context (E : Lingeling).

Definition illegal_argument : string := "Illegal argument in DIMACS sequence".
Definition zero_in_array : string := "Array may contain only non-zero integers".

(** The body of the inner loop of [Solver_addDIMACSSeqence]. *)
Definition add_entry (lgl i : Z) : Z → M unit := λ j,
  lua_geti i j ;;
  do '(c, success) <- lua_tointegerx luaO_str2num (-1);
  when_ (negb success)
    (lua_pushliteral "Illegal argument in DIMACS sequence" ;; lua_error) ;;
  lgladd lgl (int_of_lua_Integer c) ;;
  lua_pop 1.

(** The body of its outer loop. *)
Definition add_argument (lgl : Z) : Z → M unit := λ i,
  do type <- lua_type i;
  if type =? LUA_TTABLE then
    lua_len i ;;
    do len <- lua_tointeger luaO_str2num (-1);
    lua_pop 1 ;;
    for_range 1 len (add_entry lgl i)
  else
    do '(c, success) <- lua_tointegerx luaO_str2num i;
    when_ (negb success)
      (lua_pushliteral "Illegal argument in DIMACS sequence" ;; lua_error) ;;
    lgladd lgl (int_of_lua_Integer c).

(** The body of the loop of [Solver_query]. *)
Definition query_entry (lgl : Z) : Z → M unit := λ j,
  lua_geti 2 j ;;
  do c <- lua_tointeger luaO_str2num (-1);
  when_ (c =? 0)
    (lua_pushliteral "Array may contain only non-zero integers" ;;
     lua_error) ;;
  lua_pop 1 ;;
  do res <- lglderef E lgl (int_of_lua_Integer c);
  lua_pushinteger res ;;
  lua_seti 3 j.

End Bodies.

(** The calls that forward the literals [cs], each converted to [int]. *)
Definition adds (lgl : Z) (cs : list Z) : list lgl_call :=
  (λ c, Lgladd lgl (int_of_lua_Integer c)) <$> cs.

(** The calls that ask for the literals [cs]. *)
Definition derefs (lgl : Z) (cs : list Z) : list lgl_call :=
  Lglderef lgl <$> cs.

(** ** Properties of states and computations *)

(** The self argument fails the validation of [get_lgl]: it has no
    metatable, or one that is not the class table (the first upvalue), or it
    is not a userdata. *)
Inductive fails_validation (st : lua_State) : Prop :=
| no_metatable :
    metatable_of st (value_at 1 st) = None → fails_validation st
| other_metatable m :
    metatable_of st (value_at 1 st) = Some m → upvalue1 st ≠ LTable m →
    fails_validation st
| not_userdata :
    touserdata (value_at 1 st) = NULL → fails_validation st.

(** No [__eq] handler takes part in the validation: neither the class (the
    first upvalue) nor the metatable of the self argument has a metatable
    with a field [__eq]. *)
Definition no_eq_handler (st : lua_State) : Prop :=
  fasttm_eq st (upvalue1 st) = None
  ∧ ∀ m, metatable_of st (value_at 1 st) = Some m → fasttm_eq st (LTable m) = None.

(** The comparison of [get_lgl] has an answer: no [__eq] handler is called,
    or the one that is called returns and changes nothing. *)
Definition comparison_answers (st : lua_State) : Prop :=
  ∀ m, metatable_of st (value_at 1 st) = Some m →
       is_Some (luaV_equalobj st (upvalue1 st) (LTable m)).

(** The index [i] holds a value, and if it is a table the table exists. *)
Definition live_at (st : lua_State) (i : Z) : Prop :=
  ∃ v, index2value i st = Some v ∧ ∀ r, v = LTable r → is_Some (tables st !! r).

(** [m] leaves the userdata alone and makes only engine calls in [Q]. *)
Definition emits (Q : lgl_call → Prop) {A} (m : M A) : Prop :=
  ∀ st, udata (m st).2 = udata st
        ∧ ∃ l, engine (m st).2 = engine st ++ l ∧ Forall Q l.

(** [m] leaves the userdata alone and makes no engine call. *)
Definition silent {A} (m : M A) : Prop :=
  ∀ st, udata (m st).2 = udata st ∧ engine (m st).2 = engine st.

Definition is_release (c : lgl_call) : bool :=
  match c with Lglrelease _ => true | _ => false end.

Definition no_release (c : lgl_call) : Prop := is_release c = false.

(** ** Statements of the interface, as predicates *)

Section ClaimDefs.

Context (luaO_str2num : string → option (Z + lua_Number)).
Context (E : Lingeling).

(** The call forwards the literals [cs], as they are and in this order, and
    nothing else. *)
Definition forwards_exactly (st : lua_State) (lgl : Z) (cs : list Z) : Prop :=
  Solver_addDIMACSSeqence luaO_str2num st =
    (Ret 0, set_engine (engine st ++ (Lgladd lgl <$> cs)) st).

(** The call fails on a malformed element and the engine has received
    nothing from it. *)
Definition rejects_whole_call (st : lua_State) : Prop :=
  ∃ st', Solver_addDIMACSSeqence luaO_str2num st =
           (Raise (LString "Illegal argument in DIMACS sequence"), st')
         ∧ engine st' = engine st.

(** The call asks the engine for the literals [cs], as they are and in this
    order, and returns a new table with the answers in the same order. *)
Definition answers_each_literal (st : lua_State) (lgl : Z) (cs : list Z) : Prop :=
  let r3 := fresh (dom (tables st)) in
  Solver_query luaO_str2num E st =
    (Ret 1,
     set_tables
       (<[r3 := mkTable (seq_table (LInteger <$> deref_all E (engine st) lgl cs)) None None]>
          (tables st))
       (set_engine (engine st ++ derefs lgl cs) (push (LTable r3) st))).

(** After [ops1], a disposal and [ops2], one more disposal does not release
    the handle again. *)
Definition second_disposal_guarded (cls r : positive) (lgl : Z)
    (ops1 ops2 : list session_op) (st : lua_State) : Prop :=
  let st1 := run_ops luaO_str2num E cls r (ops1 ++ OpGc :: ops2) st in
  releases lgl (engine (run_op luaO_str2num E cls r OpGc st1)) = releases lgl (engine st1).

End ClaimDefs.

(** The same as [demo_session], with the table [{1, "x"}] at reference 6. *)
Definition demo_with_malformed : lua_State :=
  set_tables (<[6%positive := mkTable (seq_table [LInteger 1; LString "x"]) None None]>
                (tables demo_session)) demo_session.

(** The same, with the table [{4294967296}] at reference 7. *)
Definition demo_with_wide : lua_State :=
  set_tables (<[7%positive := mkTable (seq_table [LInteger 4294967296]) None None]>
                (tables demo_session)) demo_session.

(** The frames of some calls on the session [s] of [demo_session]. *)

(** [s:isSatisfiable ()], and also [s:query ()] *)
Definition frame_self_only : lua_State :=
  enter (LTable 1) [LUserdata 1] demo_session.

(** [s:addDIMACSequence ({1, -2, 3}, 0, -3)] *)
Definition frame_add : lua_State :=
  enter (LTable 1) [LUserdata 1; LTable 5; LInteger 0; LInteger (-3)] demo_with_table.

(** [s:query {1, -2, 3}] *)
Definition frame_query : lua_State :=
  enter (LTable 1) [LUserdata 1; LTable 5] demo_with_table.

(** [s:addDIMACSequence {1, "x"}], and also [s:query {1, "x"}] *)
Definition frame_malformed : lua_State :=
  enter (LTable 1) [LUserdata 1; LTable 6] demo_with_malformed.

(** [s:addDIMACSequence (1, 4294967296)] *)
Definition frame_add_wide : lua_State :=
  enter (LTable 1) [LUserdata 1; LInteger 1; LInteger 4294967296] demo_session.

(** [s:query {4294967296}] *)
Definition frame_query_wide : lua_State :=
  enter (LTable 1) [LUserdata 1; LTable 7] demo_with_wide.

(** [Solver.query ("abc", {1, -2, 3})] *)
Definition frame_string_self : lua_State :=
  enter (LTable 1) [LString "abc"; LTable 5] demo_with_table.

(** The operation [f] raises "Invalid self argument" and has made no call
    into the engine. *)
Definition rejects_self (f : M Z) (st : lua_State) : Prop :=
  ∃ st', f st = (Raise (LString "Invalid self argument"), st')
         ∧ engine st' = engine st.

(** After [setmetatable (Solver, {__eq = function () return true end})]:
    the class, at reference 1, has the metatable at reference 3, whose
    [__eq] says that any two operands are equal.  There is also a full
    userdata of another library, at reference 2: its metatable is the table
    at reference 4, and its block holds 4242, which is no engine handle. *)
Definition demo_with_eq : lua_State :=
  set_udata (<[2%positive := mkUdata 4242 (Some 4%positive)]> (udata demo_session))
    (set_tables
       (<[1%positive := mkTable ∅ (Some 3%positive) None]>
          (<[3%positive := mkTable ∅ None (Some (λ _ _, Some true))]>
             (<[4%positive := mkTable ∅ None None]> (tables demo_session))))
       demo_session).

(** [Solver.isSatisfiable (u)] for that userdata [u] *)
Definition frame_foreign_self : lua_State :=
  enter (LTable 1) [LUserdata 2] demo_with_eq.

(** A proper sequence: a table without a metatable whose positive keys are
    [1 .. n], none bound to [nil].  Its length is [n], its only border. *)
Definition proper_sequence (t : Table) : Prop :=
  t_meta t = None ∧ ∃ l, t_int t = seq_table l ∧ LNil ∉ l.

(** Every table among the arguments is a proper sequence. *)
Definition sequence_arguments (tbl : gmap positive Table) (args : list lua_value) : Prop :=
  ∀ r, LTable r ∈ args → ∃ t, tbl !! r = Some t ∧ proper_sequence t.

(** A value that is not an integer: anything but a number of the integer
    subtype. *)
Definition not_an_integer (v : lua_value) : Prop := ∀ n, v ≠ LInteger n.

(** [query] takes the entry [v] for 0 and fails with the error of a zero
    entry. *)
Definition coerced_and_rejected (luaO_str2num : string → option (Z + lua_Number))
    (E : Lingeling) (st : lua_State) (v : lua_value) : Prop :=
  tointeger0 luaO_str2num v = 0
  ∧ ∃ st', Solver_query luaO_str2num E st =
             (Raise (LString "Array may contain only non-zero integers"), st').

(** The session with the table [{1, "5", 6.0}] at reference 8. *)
Definition demo_with_numerals : lua_State :=
  set_tables
    (<[8%positive :=
         mkTable (seq_table [LInteger 1; LString "5"; LFloat (FFinite 6 0)]) None None]>
       (tables demo_session)) demo_session.

(** [s:query {1, "5", 6.0}] *)
Definition frame_query_numerals : lua_State :=
  enter (LTable 1) [LUserdata 1; LTable 8] demo_with_numerals.

(** ** Further notions for the properties of the binding *)

(** The engine call [c] is an [lgladd] on the handle [lgl]. *)
Definition adds_to (lgl : Z) (c : lgl_call) : Prop := ∃ lit, c = Lgladd lgl lit.

(** A table or userdata value refers to an object of the heap. *)
Definition live_value (st : lua_State) (v : lua_value) : Prop :=
  match v with
  | LTable r => is_Some (tables st !! r)
  | LUserdata r => is_Some (udata st !! r)
  | _ => True
  end.

(** [s:addDIMACSequence ("10", 6.0, {1, -2, 3})] *)
Definition frame_add_coerced : lua_State :=
  enter (LTable 1) [LUserdata 1; LString "10"; LFloat (FFinite 3 1); LTable 5]
    demo_with_table.

(** The session with both tables: [{1, -2, 3}] at reference 5 and
    [{1, "x"}] at reference 6. *)
Definition demo_with_both : lua_State :=
  set_tables (<[6%positive := mkTable (seq_table [LInteger 1; LString "x"]) None None]>
                (tables demo_with_table)) demo_with_table.

(** ** The loader *)

(** The C functions of [Solver.c], as values. *)
Inductive cfunction :=
| F_Solver_new
| F_Solver_addDIMACSSeqence
| F_Solver_isSatisfiable
| F_Solver_query
| F_Solver_gc.

#[global] Instance cfunction_eq_dec : EqDecision cfunction.
Proof. solve_decision. Defined.

(** A C closure: the function and its upvalues, the first one first. *)
Record CClosure := mkCClosure {
  c_fn : cfunction;
  c_upvalues : list lua_value;
}.

(** [lua_State] with what the loader and the host interface also use: the
    C closures that function values refer to, the fields of tables with
    string keys, and the table of the globals.  Lua functions are values
    without a body here: they run through [lua_pcall] only. *)
Record lua_World := mkWorld {
  L : lua_State;
  closures : gmap positive CClosure;
  fields : gmap (positive * string) lua_value;
  globals : positive;
}.

Definition set_L (st : lua_State) (w : lua_World) : lua_World :=
  mkWorld st (closures w) (fields w) (globals w).
Definition set_closures (c : gmap positive CClosure) (w : lua_World) : lua_World :=
  mkWorld (L w) c (fields w) (globals w).
Definition set_fields (f : gmap (positive * string) lua_value) (w : lua_World) : lua_World :=
  mkWorld (L w) (closures w) f (globals w).

(** Computations on a [lua_World], with the same outcomes. *)
Definition W (A : Type) : Type := lua_World → outcome A * lua_World.

Definition wret {A} (a : A) : W A := λ w, (Ret a, w).

Definition wbind {A B} (m : W A) (k : A → W B) : W B :=
  λ w, match m w with
       | (Ret a, w') => k a w'
       | (Raise e, w') => (Raise e, w')
       | (Stuck, w') => (Stuck, w')
       end.

Declare Scope world_scope.
Delimit Scope world_scope with W.
Notation "'do' x <- m ; k" := (wbind m (λ x, k))
  (at level 10, x name, m at level 100, k at level 200) : world_scope.
Notation "m ;; k" := (wbind m (λ _, k))
  (at level 100, k at level 200, right associativity) : world_scope.

(** An API function that only uses the [lua_State] part. *)
Definition lift {A} (m : M A) : W A :=
  λ w, ((m (L w)).1, set_L (m (L w)).2 w).

(** [lua_createtable (L, narr, nrec)]: a new empty table; the sizes are
    hints for the allocator. *)
Definition lua_createtable (narr nrec : Z) : W unit := lift lua_newtable.

(** [lua_pushcclosure (L, fn, n)] pops [n] values, the upvalues, and pushes
    the closure.  (With [n = 0] Lua pushes a light C function, which has no
    identity of its own; the model gives it a reference all the same.) *)
Definition lua_pushcclosure (fn : cfunction) (n : nat) : W unit :=
  λ w, let stk := stack (L w) in
       if (n <=? length stk)%nat then
         let r := fresh (dom (closures w)) in
         (Ret tt,
          set_closures (<[r := mkCClosure fn (drop (length stk - n) stk)]> (closures w))
            (set_L (set_stack (take (length stk - n) stk ++ [LFunction r]) (L w)) w))
       else (Stuck, w).

Definition lua_pushcfunction (fn : cfunction) : W unit := lua_pushcclosure fn 0.

(** [lua_setfield (L, idx, k)] does [t[k] = v] for the table [t] at [idx]
    and the value [v] on the top, and pops [v]; storing [nil] removes the
    field.  A value at [idx] that is not a table is not modelled. *)
Definition lua_setfield (idx : Z) (k : string) : W unit :=
  λ w, match index2value idx (L w), last (stack (L w)) with
       | Some (LTable r), Some v =>
           match tables (L w) !! r with
           | Some _ =>
               (Ret tt,
                set_fields (match v with
                            | LNil => delete (r, k) (fields w)
                            | _ => <[(r, k) := v]> (fields w)
                            end)
                  (set_L (set_stack (take (length (stack (L w)) - 1)%nat (stack (L w)))
                            (L w)) w))
           | None => (Stuck, w)
           end
       | _, _ => (Stuck, w)
       end.

(** [luaopen_grazil_bindings_lingeling_Solver] as it runs (the name itself
    is that of the field map above): it builds the class table and leaves
    it on the stack. *)
Definition luaopen_Solver : W Z :=
  (lua_createtable 0 6 ;;
   lift (lua_pushvalue (-1)) ;;
   lua_pushcclosure F_Solver_new 1 ;;
   lua_setfield (-2) "new" ;;
   lift (lua_pushvalue (-1)) ;;
   lua_pushcclosure F_Solver_addDIMACSSeqence 1 ;;
   lua_setfield (-2) "addDIMACSequence" ;;
   lift (lua_pushvalue (-1)) ;;
   lua_pushcclosure F_Solver_isSatisfiable 1 ;;
   lua_setfield (-2) "isSatisfiable" ;;
   lift (lua_pushvalue (-1)) ;;
   lua_pushcclosure F_Solver_query 1 ;;
   lua_setfield (-2) "query" ;;
   lua_pushcfunction F_Solver_gc ;;
   lua_setfield (-2) "__gc" ;;
   lift (lua_pushvalue (-1)) ;;
   lua_setfield (-2) "__index" ;;
   wret 1)%W.

Section Calls.

Context (luaO_str2num : string → option (Z + lua_Number)).
Context (E : Lingeling).

Definition cfunction_body (fn : cfunction) : M Z :=
  match fn with
  | F_Solver_new => Solver_new E
  | F_Solver_addDIMACSSeqence => Solver_addDIMACSSeqence luaO_str2num
  | F_Solver_isSatisfiable => Solver_isSatisfiable E
  | F_Solver_query => Solver_query luaO_str2num E
  | F_Solver_gc => Solver_gc
  end.

(** Lua calls the function value [f] with the arguments [args].  A closure
    without upvalues reads [nil] at [lua_upvalueindex (1)]. *)
Definition call_function (w : lua_World) (f : lua_value) (args : list lua_value) :
    option (outcome Z * lua_State) :=
  match f with
  | LFunction rf =>
      c ← closures w !! rf;
      Some (call_closure (cfunction_body (c_fn c)) (default LNil (head (c_upvalues c)))
              args (L w))
  | _ => None
  end.

End Calls.

(** The methods of the class, with the C function behind each. *)
Definition methods : list (string * cfunction) :=
  [("new", F_Solver_new);
   ("addDIMACSequence", F_Solver_addDIMACSSeqence);
   ("isSatisfiable", F_Solver_isSatisfiable);
   ("query", F_Solver_query)]%string.

(** The names of all the fields that the loader sets. *)
Definition class_fields : list string :=
  ["new"; "addDIMACSequence"; "isSatisfiable"; "query"; "__gc"; "__index"]%string.

(** The world that the loader leaves. *)
Definition loaded (w : lua_World) : lua_World :=
  let cls := fresh (dom (tables (L w))) in
  let c0 := closures w in
  let r1 := fresh (dom c0) in
  let c1 := <[r1 := mkCClosure F_Solver_new [LTable cls]]> c0 in
  let r2 := fresh (dom c1) in
  let c2 := <[r2 := mkCClosure F_Solver_addDIMACSSeqence [LTable cls]]> c1 in
  let r3 := fresh (dom c2) in
  let c3 := <[r3 := mkCClosure F_Solver_isSatisfiable [LTable cls]]> c2 in
  let r4 := fresh (dom c3) in
  let c4 := <[r4 := mkCClosure F_Solver_query [LTable cls]]> c3 in
  let r5 := fresh (dom c4) in
  let c5 := <[r5 := mkCClosure F_Solver_gc []]> c4 in
  mkWorld (push (LTable cls) (set_tables (<[cls := mkTable ∅ None None]> (tables (L w))) (L w)))
    c5
    (<[(cls, "__index"%string) := LTable cls]>
       (<[(cls, "__gc"%string) := LFunction r5]>
          (<[(cls, "query"%string) := LFunction r4]>
             (<[(cls, "isSatisfiable"%string) := LFunction r3]>
                (<[(cls, "addDIMACSequence"%string) := LFunction r2]>
                   (<[(cls, "new"%string) := LFunction r1]> (fields w)))))))
    (globals w).

(** A world that has the table of the globals, at reference 1, and nothing
    else. *)
Definition demo_world : lua_World :=
  mkWorld (mkState [] LNil {[ 1%positive := mkTable ∅ None None ]} ∅ (λ _, None) []) ∅ ∅ 1.

From Stdlib Require Import DecimalString.

(** ** The host interface of MATLAB ([grazil.c])

    [src/grazil/interface/matlab/grazil.c] is a MEX function: MATLAB calls
    [mexFunction] with a file name and a size [n]; a new Lua interpreter
    runs the file, and the table that the chunk returns, a list of pairs of
    vertices, is turned into an [n] by [n] array.

    The model keeps what the file itself does: the array of 1024 bytes in
    which [setLuaPath] builds the search path, the conversions between
    [double] and [int], the [int] arithmetic of the indices, and the stores
    into the array, each with the cases that C leaves undefined.  What is
    outside the file is a parameter: the interpreter as a whole (what a new
    state with the standard libraries holds, what loading a file gives, and
    what the chunk does when it is called) is the record [Platform]; what
    MATLAB tells about its arrays is the record [Matlab].  The lines that the function
    prints are kept as a log of their own, apart from what the chunk may
    print. *)

(** *** C strings and C numbers *)

(** What C reads through a [char *] that points to the bytes of [s]: the
    bytes before the first NUL. *)
Fixpoint c_str (s : string) : string :=
  match s with
  | EmptyString => EmptyString
  | String a s' => if Ascii.eqb a "000"%char then EmptyString else String a (c_str s')
  end.

(** The conversion of a [double] to [int]: the value without its fraction;
    undefined when that does not fit [int] or the value is not finite. *)
Definition int_of_double (x : lua_Number) : option Z :=
  match x with
  | FFinite m e =>
      let t := if 0 <=? e then m * 2 ^ e else Z.quot m (2 ^ (- e)) in
      if decide (fits_int t) then Some t else None
  | FInf _ | FNaN => None
  end.

(** [cast_num]: the conversion of a [lua_Integer] to [double], exact up to
    2^53 and to the nearest [double] beyond, ties to even. *)
Definition cast_num (n : Z) : lua_Number :=
  let a := Z.abs n in
  if a <? 2 ^ 53 then FFinite n 0
  else
    let e := Z.log2 a - 52 in
    let q := a / 2 ^ e in
    let r := a mod 2 ^ e in
    let half := 2 ^ (e - 1) in
    let q' := if r <? half then q
              else if half <? r then q + 1
              else if Z.even q then q else q + 1 in
    FFinite (Z.sgn n * q') e.

(** [x / 2] on [double].  The quotient is exact but for a subnormal [x],
    where it is rounded; the model keeps the exact value there, which
    converts to the same [int], 0. *)
Definition half (x : lua_Number) : lua_Number :=
  match x with
  | FFinite m e => FFinite m (e - 1)
  | _ => x
  end.

(** A [printf] format without arguments: [%%] writes a percent sign, any
    other conversion is undefined. *)
Fixpoint format_plain (s : string) : option string :=
  match s with
  | EmptyString => Some EmptyString
  | String a s' =>
      if Ascii.eqb a "%"%char then
        match s' with
        | String b s'' =>
            if Ascii.eqb b "%"%char then String "%"%char <$> format_plain s''
            else None
        | EmptyString => None
        end
      else String a <$> format_plain s'
  end.

Definition wstuck {A} : W A := λ w, (Stuck, w).

(** [char dst[size]; strcpy (dst, src)]: undefined when [src] is [NULL] or
    the string with its terminator does not fit. *)
Definition strcpy (size : nat) (src : option string) : W string :=
  match src with
  | Some s => if (String.length (c_str s) <? size)%nat then wret (c_str s) else wstuck
  | None => wstuck
  end.

(** [strcat (dst, src)] for the same array, whose content is [dst]. *)
Definition strcat (size : nat) (dst src : string) : W string :=
  if (String.length (dst +:+ c_str src) <? size)%nat
  then wret (dst +:+ c_str src) else wstuck.

(** *** More of the Lua API *)

(** The value at a valid index is replaced. *)
Definition set_index (idx : Z) (v : lua_value) (st : lua_State) : lua_State :=
  if 0 <? idx then set_stack (<[Z.to_nat (idx - 1) := v]> (stack st)) st
  else if LUA_REGISTRYINDEX <? idx then
    set_stack (<[Z.to_nat (Z.of_nat (length (stack st)) + idx) := v]> (stack st)) st
  else if idx =? lua_upvalueindex 1 then set_upvalue1 v st
  else st.

Definition LUA_MULTRET : Z := -1.

Section HostAPI.

Context (luaO_str2num : string → option (Z + lua_Number)).

(** The text of a number, [luaO_tostring]. *)
Context (luaO_tostring : lua_value → string).

(** [lua_getglobal (L, name)] pushes the global and returns its type. *)
Definition lua_getglobal (name : string) : W Z :=
  λ w, let v := default LNil (fields w !! (globals w, name)) in
       (Ret (ttype v), set_L (push v (L w)) w).

(** [lua_setglobal (L, name)] pops a value and makes it the global. *)
Definition lua_setglobal (name : string) : W unit :=
  λ w, match last (stack (L w)) with
       | Some v =>
           (Ret tt,
            set_fields (match v with
                        | LNil => delete (globals w, name) (fields w)
                        | _ => <[(globals w, name) := v]> (fields w)
                        end)
              (set_L (set_stack (take (length (stack (L w)) - 1)%nat (stack (L w)))
                        (L w)) w))
       | None => (Stuck, w)
       end.

(** [lua_getfield (L, idx, k)] pushes [t[k]] for the table [t] at [idx] and
    returns its type.  A value at [idx] that is not a table is not
    modelled. *)
Definition lua_getfield (idx : Z) (k : string) : W Z :=
  λ w, match index2value idx (L w) with
       | Some (LTable r) =>
           match tables (L w) !! r with
           | Some _ =>
               let v := default LNil (fields w !! (r, k)) in
               (Ret (ttype v), set_L (push v (L w)) w)
           | None => (Stuck, w)
           end
       | _ => (Stuck, w)
       end.

(** [lua_tostring (L, idx)]: the bytes of a string; a number is first
    replaced by its text, in the stack; [NULL] for any other value. *)
Definition lua_tostring (idx : Z) : W (option string) :=
  λ w, match index2value idx (L w) with
       | Some (LString s) => (Ret (Some s), w)
       | Some (LInteger n) =>
           (Ret (Some (luaO_tostring (LInteger n))),
            set_L (set_index idx (LString (luaO_tostring (LInteger n))) (L w)) w)
       | Some (LFloat f) =>
           (Ret (Some (luaO_tostring (LFloat f))),
            set_L (set_index idx (LString (luaO_tostring (LFloat f))) (L w)) w)
       | _ => (Ret None, w)
       end.

(** [lua_pushstring (L, s)] for a C string [s]. *)
Definition lua_pushstring (s : string) : W unit :=
  λ w, (Ret tt, set_L (push (LString (c_str s)) (L w)) w).

(** [lua_rawset (L, idx)] does [t[k] = v] for the table [t] at [idx], the
    value [v] on the top and the key [k] below it, and pops both.  Keys
    that are strings or integers are modelled. *)
Definition lua_rawset (idx : Z) : W unit :=
  λ w, let stk := stack (L w) in
       let popped := set_stack (take (length stk - 2)%nat stk) (L w) in
       match index2value idx (L w), index2value (-2) (L w), index2value (-1) (L w) with
       | Some (LTable r), Some (LString k), Some v =>
           match tables (L w) !! r with
           | Some _ =>
               (Ret tt,
                set_fields (match v with
                            | LNil => delete (r, k) (fields w)
                            | _ => <[(r, k) := v]> (fields w)
                            end)
                  (set_L popped w))
           | None => (Stuck, w)
           end
       | Some (LTable r), Some (LInteger n), Some v =>
           match tables (L w) !! r with
           | Some t =>
               let t' := match v with
                         | LNil => delete n (t_int t)
                         | _ => <[n := v]> (t_int t)
                         end in
               (Ret tt,
                set_L (set_tables (<[r := mkTable t' (t_meta t) (t_eq t)]> (tables (L w))) popped) w)
           | None => (Stuck, w)
           end
       | _, _, _ => (Stuck, w)
       end.

(** [lua_rawgeti (L, idx, n)] pushes [t[n]] for the table [t] at [idx]. *)
Definition lua_rawgeti (idx : Z) (n : Z) : W Z :=
  λ w, match index2value idx (L w) with
       | Some (LTable r) =>
           match tables (L w) !! r with
           | Some t =>
               let v := default LNil (t_int t !! n) in
               (Ret (ttype v), set_L (push v (L w)) w)
           | None => (Stuck, w)
           end
       | _ => (Stuck, w)
       end.

(** [luaV_tonumber_] with [cvt2num]; 0 for what is no number. *)
Definition tonumber (v : lua_value) : lua_Number :=
  match v with
  | LInteger n => cast_num n
  | LFloat f => f
  | LString s =>
      match luaO_str2num s with
      | Some (inl n) => cast_num n
      | Some (inr f) => f
      | None => FFinite 0 0
      end
  | _ => FFinite 0 0
  end.

Definition lua_tonumber (idx : Z) : W lua_Number :=
  λ w, (Ret (tonumber (value_at idx (L w))), w).

(** *** [setLuaPath] *)

Definition setLuaPath (path : string) : W Z :=
  (lua_getglobal "package" ;;
   lua_getfield (-1) "path" ;;
   do s <- lua_tostring (-1) ;
   do str <- strcpy 1024 s ;
   do str <- strcat 1024 str ";" ;
   do str <- strcat 1024 str path ;
   do str <- strcat 1024 str "/?.lua" ;
   lift (lua_pop 1) ;;
   lua_pushstring str ;;
   lua_setfield (-2) "path" ;;
   lift (lua_pop 1) ;;
   wret 0)%W.

End HostAPI.

(** *** The host *)

(** What is outside [grazil.c]: the path of the installation (from
    [grazilpath.h]), the interpreter (a new state, the standard libraries,
    the loading of a file and the protected call of the chunk on the top of
    the stack, each with the status it returns), and the text of numbers. *)
Record Platform := mkPlatform {
  GRAZILPATH : string;
  luaL_newstate_ret : lua_World;
  luaL_openlibs_ret : lua_World → lua_World;
  luaL_loadfile_ret : string → lua_World → Z * lua_value;
  lua_pcall_ret : lua_World → Z * lua_World;
  luaO_tostring_ret : lua_value → string;
}.

(** What a MEX function does: it returns, or leaves through
    [mexErrMsgIdAndTxt], or runs into behaviour that C leaves undefined in
    its own code, or an API call on the interpreter leaves the modelled
    fragment. *)
Inductive mex_outcome (A : Type) :=
| MexRet (a : A)
| MexError (id msg : string)
| MexUndefined
| MexStuck.
Arguments MexRet {A} a.
Arguments MexError {A} id msg.
Arguments MexUndefined {A}.
Arguments MexStuck {A}.

Record Host := mkHost {
  interp : option lua_World;     (* the interpreter [L], while it is open *)
  outMatrix : list lua_Number;   (* the array that [outMatrix] points to *)
  printed : list string;         (* what [printf] has written, oldest first *)
}.

Definition set_interp (i : option lua_World) (h : Host) : Host :=
  mkHost i (outMatrix h) (printed h).
Definition set_outMatrix (a : list lua_Number) (h : Host) : Host :=
  mkHost (interp h) a (printed h).
Definition set_printed (p : list string) (h : Host) : Host :=
  mkHost (interp h) (outMatrix h) p.

Definition X (A : Type) : Type := Host → mex_outcome A * Host.

Definition xret {A} (a : A) : X A := λ h, (MexRet a, h).

Definition xbind {A B} (m : X A) (k : A → X B) : X B :=
  λ h, match m h with
       | (MexRet a, h') => k a h'
       | (MexError id msg, h') => (MexError id msg, h')
       | (MexUndefined, h') => (MexUndefined, h')
       | (MexStuck, h') => (MexStuck, h')
       end.

Declare Scope mex_scope.
Delimit Scope mex_scope with X.
Notation "'do' x <- m ; k" := (xbind m (λ x, k))
  (at level 10, x name, m at level 100, k at level 200) : mex_scope.
Notation "m ;; k" := (xbind m (λ _, k))
  (at level 100, k at level 200, right associativity) : mex_scope.

Definition xwhen (b : bool) (m : X unit) : X unit := if b then m else xret tt.

Fixpoint xfor_each (l : list Z) (body : Z → X unit) : X unit :=
  match l with
  | [] => xret tt
  | i :: l' => (body i ;; xfor_each l' body)%X
  end.

(** An API call on the interpreter [L].  A Lua error outside a protected
    call ends in the panic function; that is not modelled. *)
Definition lua {A} (m : W A) : X A :=
  λ h, match interp h with
       | Some w =>
           match m w with
           | (Ret a, w') => (MexRet a, set_interp (Some w') h)
           | (Raise _, w') => (MexStuck, set_interp (Some w') h)
           | (Stuck, w') => (MexStuck, set_interp (Some w') h)
           end
       | None => (MexUndefined, h)
       end.

(** The result of [int] arithmetic: overflow is undefined. *)
Definition c_int (z : Z) : X Z :=
  λ h, if decide (fits_int z) then (MexRet z, h) else (MexUndefined, h).

(** [int x = d] for a [double] [d]. *)
Definition c_int_of_double (d : lua_Number) : X Z :=
  λ h, match int_of_double d with
       | Some z => (MexRet z, h)
       | None => (MexUndefined, h)
       end.

(** [mexErrMsgIdAndTxt (id, msg)] ends the MEX function.  The message is a
    [printf] format, used here without arguments. *)
Definition mexErrMsgIdAndTxt {A} (id : string) (msg : option string) : X A :=
  λ h, match msg with
       | Some s =>
           match format_plain (c_str s) with
           | Some text => (MexError id text, h)
           | None => (MexUndefined, h)
           end
       | None => (MexUndefined, h)
       end.

(** What [%d] writes for an [int]. *)
Definition print_int (z : Z) : string := NilZero.string_of_int (Z.to_int z).

(** [printf ("edge (%d,%d)\n", u, v)] *)
Definition edge_line (u v : Z) : string :=
  "edge (" +:+ print_int u +:+ "," +:+ print_int v +:+ ")"
    +:+ String "010"%char EmptyString.

Definition printf_edge (u v : Z) : X unit :=
  λ h, (MexRet tt, set_printed (printed h ++ [edge_line u v]) h).

(** [outMatrix[idx] = x] *)
Definition store_outMatrix (idx : Z) (x : lua_Number) : X unit :=
  λ h, if (0 <=? idx) && (idx <? Z.of_nat (length (outMatrix h)))
       then (MexRet tt, set_outMatrix (<[Z.to_nat idx := x]> (outMatrix h)) h)
       else (MexUndefined, h).

Section Host.

Context (luaO_str2num : string → option (Z + lua_Number)).
Context (P : Platform).

Definition luaL_newstate : X unit :=
  λ h, (MexRet tt, set_interp (Some (luaL_newstate_ret P)) h).

Definition luaL_openlibs : X unit :=
  lua (λ w, (Ret tt, luaL_openlibs_ret P w)).

(** [luaL_loadfile (L, filename)] pushes the chunk, or the error message,
    and returns the status. *)
Definition luaL_loadfile (filename : string) : X Z :=
  lua (λ w, (Ret (luaL_loadfile_ret P filename w).1,
             set_L (push (luaL_loadfile_ret P filename w).2 (L w)) w)).

(** [lua_pcall (L, 0, LUA_MULTRET, 0)]: the chunk on the top of the stack
    runs; what it leaves is up to the chunk. *)
Definition lua_pcall (nargs nresults msgh : Z) : X Z :=
  if (nargs =? 0) && (nresults =? LUA_MULTRET) && (msgh =? 0)
  then lua (λ w, (Ret (lua_pcall_ret P w).1, (lua_pcall_ret P w).2))
  else λ h, (MexStuck, h).

(** [lua_close (L)]: the interpreter is gone. *)
Definition lua_close : X unit :=
  λ h, match interp h with
       | Some _ => (MexRet tt, set_interp None h)
       | None => (MexUndefined, h)
       end.

(** The body of the loop of [getGraphFromLua]. *)
Definition edge_step (n : Z) (i : Z) : X unit :=
  (do k1 <- c_int (2 * i + 1) ;
   lua (lua_rawgeti (-1) k1) ;;
   do x <- lua (lua_tonumber luaO_str2num (-1)) ;
   do u <- c_int_of_double x ;
   lua (lift (lua_pop 1)) ;;
   do k2 <- c_int (2 * i + 2) ;
   lua (lua_rawgeti (-1) k2) ;;
   do y <- lua (lua_tonumber luaO_str2num (-1)) ;
   do v <- c_int_of_double y ;
   lua (lift (lua_pop 1)) ;;
   do u <- c_int (u - 1) ;
   do v <- c_int (v - 1) ;
   printf_edge u v ;;
   do nu <- c_int (n * u) ;
   do idx <- c_int (nu + v) ;
   store_outMatrix idx (FFinite 1 0))%X.

Definition getGraphFromLua (buf : string) (n : Z) : X unit :=
  (luaL_newstate ;;
   luaL_openlibs ;;
   lua (setLuaPath (luaO_tostring_ret P) (GRAZILPATH P)) ;;
   do status <- luaL_loadfile buf ;
   xwhen (negb (status =? 0))
     (do msg <- lua (lua_tostring (luaO_tostring_ret P) (-1)) ;
      mexErrMsgIdAndTxt "MATLAB:grazil:loadError" msg) ;;
   lua (lift lua_newtable) ;;
   lua (lua_pushstring "n") ;;
   lua (lift (lua_pushinteger n)) ;;
   lua (lua_rawset (-3)) ;;
   lua (lua_setglobal "params") ;;
   do result <- lua_pcall 0 LUA_MULTRET 0 ;
   xwhen (negb (result =? 0))
     (do msg <- lua (lua_tostring (luaO_tostring_ret P) (-1)) ;
      mexErrMsgIdAndTxt "MATLAB:grazil:runError" msg) ;;
   lua (lift (lua_len (-1))) ;;
   do x <- lua (lua_tonumber luaO_str2num (-1)) ;
   do m <- c_int_of_double (half x) ;
   lua (lift (lua_pop 1)) ;;
   xfor_each (seqZ 0 m) (edge_step n) ;;
   lua_close)%X.

End Host.

(** The cell of the array for the pair [(u, v)]. *)
Definition cell (n u v : Z) : Z := n * (u - 1) + (v - 1).

(** The pair can be stored: the [int] arithmetic does not overflow and the
    cell is inside an array of [len] elements. *)
Definition edge_defined (n : Z) (len : nat) (e : Z * Z) : Prop :=
  fits_int e.1 ∧ fits_int e.2
  ∧ fits_int (e.1 - 1) ∧ fits_int (e.2 - 1)
  ∧ fits_int (n * (e.1 - 1)) ∧ fits_int (cell n e.1 e.2)
  ∧ 0 <= cell n e.1 e.2 < Z.of_nat len.

(** The entries of a table that lists pairs: the two ends of each in turn. *)
Definition edge_items (edges : list (Z * Z)) : list lua_value :=
  flat_map (λ e, [LInteger e.1; LInteger e.2]) edges.

(** The array with the cells of the pairs set to 1. *)
Definition set_cells (n : Z) (edges : list (Z * Z)) (a : list lua_Number) :
    list lua_Number :=
  foldl (λ a e, <[Z.to_nat (cell n e.1 e.2) := FFinite 1 0]> a) a edges.

(** What [printf] writes for the pairs. *)
Definition edge_lines (edges : list (Z * Z)) : list string :=
  (λ e, edge_line (e.1 - 1) (e.2 - 1)) <$> edges.

(** The state in which the chunk starts, from the state [w0] with the
    standard libraries: the search path [path] in the table [pk] of
    [package], the global [params] with the field [n], and the chunk on the
    stack. *)
Definition script_world (w0 : lua_World) (pk : positive) (path : string)
    (chunk : lua_value) (n : Z) : lua_World :=
  let pr := fresh (dom (tables (L w0))) in
  mkWorld (push chunk (set_tables (<[pr := mkTable ∅ None None]> (tables (L w0))) (L w0)))
    (closures w0)
    (<[(globals w0, "params"%string) := LTable pr]>
       (<[(pr, "n"%string) := LInteger n]>
          (<[(pk, "path"%string) := LString path]> (fields w0))))
    (globals w0).

(** What [mexFunction] asks of MATLAB about an array: the number of its
    columns, the bytes that [mxGetString] leaves in a buffer of a given
    size, and its first element. *)
Record Matlab := mkMatlab {
  mxArray : Type;
  mxGetN : mxArray → Z;
  mxGetString_buf : mxArray → Z → string;
  mxGetScalar : mxArray → lua_Number;
}.

Section Mex.

Context (luaO_str2num : string → option (Z + lua_Number)).
Context (P : Platform).
Context (Mx : Matlab).

(** [mxCreateDoubleMatrix (m, n, mxREAL)]: an array of zeros.  With a
    negative size MATLAB fails in a way that is not modelled. *)
Definition mxCreateDoubleMatrix (m n : Z) : X unit :=
  λ h, if (0 <=? m) && (0 <=? n)
       then (MexRet tt, set_outMatrix (replicate (Z.to_nat (m * n)) (FFinite 0 0)) h)
       else (MexStuck, h).

(** [mexFunction]: [prhs] holds the [nrhs] arguments; the result is the
    order of the matrix [plhs[0]], whose elements are in [outMatrix]. *)
Definition mexFunction (nlhs : Z) (prhs : list (mxArray Mx)) : X Z :=
  (xwhen (negb (Z.of_nat (length prhs) =? 2))
     (mexErrMsgIdAndTxt "MATLAB:grazil:invalidNumInputs"
        (Some "Two input arguments required."%string)) ;;
   xwhen (1 <? nlhs)
     (mexErrMsgIdAndTxt "MATLAB:grazil:maxlhs"
        (Some "Too many output arguments."%string)) ;;
   match prhs with
   | [p0; p1] =>
       let buflen := mxGetN Mx p0 + 1 in
       let buf := mxGetString_buf Mx p0 buflen in
       do n <- c_int_of_double (mxGetScalar Mx p1) ;
       mxCreateDoubleMatrix n n ;;
       getGraphFromLua luaO_str2num P buf n ;;
       xret n
   | _ => λ h, (MexUndefined, h)
   end)%X.

End Mex.

(** The state [w0] with the standard libraries has the table [pk] as
    [package], with the search path [p0], and the new path fits the
    buffer. *)
Definition libs_ready (P : Platform) (pk : positive) (p0 : string) : Prop :=
  let w0 := luaL_openlibs_ret P (luaL_newstate_ret P) in
  fields w0 !! (globals w0, "package"%string) = Some (LTable pk)
  ∧ is_Some (tables (L w0) !! pk)
  ∧ fields w0 !! (pk, "path"%string) = Some (LString p0)
  ∧ (String.length (c_str p0 +:+ ";" +:+ c_str (GRAZILPATH P) +:+ "/?.lua") < 1024)%nat.

(** The search path that [setLuaPath] makes of [p0]. *)
Definition new_path (P : Platform) (p0 : string) : string :=
  c_str p0 +:+ ";" +:+ c_str (GRAZILPATH P) +:+ "/?.lua".

(** The state in which the file is loaded. *)
Definition load_world (P : Platform) (pk : positive) (p0 : string) : lua_World :=
  let w0 := luaL_openlibs_ret P (luaL_newstate_ret P) in
  set_fields (<[(pk, "path"%string) := LString (new_path P p0)]> (fields w0)) w0.

(** The chunk that starts in [ws] returns, with a table of the entries
    [items] as its last result. *)
Definition chunk_returns (P : Platform) (ws : lua_World) (items : list lua_value) : Prop :=
  ∃ w rt t, lua_pcall_ret P ws = (0, w)
            ∧ last (stack (L w)) = Some (LTable rt)
            ∧ tables (L w) !! rt = Some t
            ∧ t_int t = seq_table items
            ∧ LNil ∉ items.

(** The chunk that starts in [ws] fails with the status [status] and the
    error object [e]. *)
Definition chunk_fails (P : Platform) (ws : lua_World) (status : Z) (e : lua_value) : Prop :=
  ∃ w, lua_pcall_ret P ws = (status, w)
       ∧ status ≠ 0
       ∧ last (stack (L w)) = Some e.

(** Both ends of the pair are vertices of a graph of [n] vertices. *)
Definition in_range (n : Z) (e : Z * Z) : Prop :=
  1 <= e.1 <= n ∧ 1 <= e.2 <= n.

(** What [mexErrMsgIdAndTxt] makes of the message [s]. *)
Definition error_of {A} (id s : string) : mex_outcome A :=
  match format_plain (c_str s) with
  | Some text => MexError id text
  | None => MexUndefined
  end.

(** *** A platform for the examples *)

Definition demo_libs (w : lua_World) : lua_World :=
  mkWorld (set_tables (<[2%positive := mkTable ∅ None None]> (tables (L w))) (L w))
    (closures w)
    (<[(globals w, "package"%string) := LTable 2]>
       (<[(2%positive, "path"%string) := LString "./?.lua"]> (fields w)))
    (globals w).

(** Five files load; any other name is a syntax error. *)
Definition demo_loadfile (name : string) (w : lua_World) : Z * lua_value :=
  if bool_decide (name = "graph.lua"%string) then (0, LFunction 1)
  else if bool_decide (name = "fail.lua"%string) then (0, LFunction 2)
  else if bool_decide (name = "wide.lua"%string) then (0, LFunction 3)
  else if bool_decide (name = "percent.lua"%string) then (0, LFunction 4)
  else if bool_decide (name = "beyond.lua"%string) then (0, LFunction 5)
  else (3, LString (name +:+ ":1: unexpected symbol")).

(** The chunk is replaced by one result. *)
Definition demo_result (v : lua_value) (w : lua_World) : lua_World :=
  set_L (set_stack (take (length (stack (L w)) - 1)%nat (stack (L w)) ++ [v]) (L w)) w.

Definition demo_table (items : list lua_value) (w : lua_World) : lua_World :=
  let r := fresh (dom (tables (L w))) in
  demo_result (LTable r)
    (set_L (set_tables (<[r := mkTable (seq_table items) None None]> (tables (L w))) (L w)) w).

(** [graph.lua] returns [{1, 2, 2, 3, 7}], [wide.lua] returns
    [{1, 2, 4, 1}] and [beyond.lua] returns [{1, 4}]; [percent.lua] and
    [fail.lua] raise an error. *)
Definition demo_pcall (w : lua_World) : Z * lua_World :=
  match last (stack (L w)) with
  | Some (LFunction 1) =>
      (0, demo_table [LInteger 1; LInteger 2; LInteger 2; LInteger 3; LInteger 7] w)
  | Some (LFunction 3) =>
      (0, demo_table [LInteger 1; LInteger 2; LInteger 4; LInteger 1] w)
  | Some (LFunction 4) =>
      (2, demo_result (LString "percent.lua:1: 100% wrong") w)
  | Some (LFunction 5) =>
      (0, demo_table [LInteger 1; LInteger 4] w)
  | _ => (2, demo_result (LString "fail.lua:1: no graph") w)
  end.

Definition demo_platform : Platform :=
  mkPlatform "/opt/grazil" demo_world demo_libs demo_loadfile demo_pcall
    (λ v, match v with LInteger n => print_int n | _ => EmptyString end).

(** A host that has an array of nine zeros. *)
Definition demo_host : Host := mkHost None (replicate 9 (FFinite 0 0)) [].

(** Arrays of MATLAB for the examples: a row of characters, or a number. *)
Inductive demo_array :=
| CharRow (s : string)
| Scalar (x : lua_Number).

Definition demo_matlab : Matlab :=
  mkMatlab demo_array
    (λ a, match a with CharRow s => Z.of_nat (String.length s) | Scalar _ => 1 end)
    (λ a buflen, match a with
                 | CharRow s => String.substring 0 (Z.to_nat (buflen - 1)) s
                 | Scalar _ => EmptyString
                 end)
    (λ a, match a with Scalar x => x | CharRow _ => FFinite 0 0 end).

(** * Proofs *)

(** ** Stack and index lemmas *)

Lemma set_stack_id st : set_stack (stack st) st = st.
Proof. by destruct st. Qed.

Lemma take_push {A} (l : list A) (x : A) :
  take (length (l ++ [x]) - 1)%nat (l ++ [x]) = l.
Proof.
  rewrite length_app. simpl.
  replace (length l + 1 - 1)%nat with (length l) by lia.
  by rewrite take_app_length.
Qed.

Lemma take_push2 {A} (l : list A) (x y : A) :
  take (length ((l ++ [x]) ++ [y]) - 2)%nat ((l ++ [x]) ++ [y]) = l.
Proof.
  rewrite <- app_assoc. rewrite length_app. simpl.
  replace (length l + 2 - 2)%nat with (length l) by lia.
  by rewrite take_app_length.
Qed.

Lemma index2value_pos i st :
  0 < i → index2value i st = stack st !! Z.to_nat (i - 1).
Proof.
  intros Hi. unfold index2value.
  by rewrite (proj2 (Z.ltb_lt _ _)) by lia.
Qed.

Lemma index2value_top v st : index2value (-1) (push v st) = Some v.
Proof.
  unfold index2value, push. simpl. rewrite length_app. simpl.
  rewrite (proj2 (Z.leb_le _ _)) by lia.
  match goal with |- context [Z.to_nat ?x] =>
    replace (Z.to_nat x) with (length (stack st)) by lia end.
  by rewrite list_lookup_middle.
Qed.

Lemma index2value_below_top a b st :
  index2value (-2) (push b (push a st)) = Some a.
Proof.
  unfold index2value, push. simpl. rewrite !length_app. simpl.
  rewrite (proj2 (Z.leb_le _ _)) by lia.
  match goal with |- context [Z.to_nat ?x] =>
    replace (Z.to_nat x) with (length (stack st)) by lia end.
  rewrite <- app_assoc. simpl. by rewrite list_lookup_middle.
Qed.

Lemma index2value_push i v st :
  0 < i <= Z.of_nat (length (stack st)) →
  index2value i (push v st) = index2value i st.
Proof.
  intros Hi. rewrite !index2value_pos by lia. unfold push. simpl.
  apply lookup_app_l. lia.
Qed.

Lemma index2value_upvalue st :
  index2value (lua_upvalueindex 1) st = Some (upvalue1 st).
Proof. reflexivity. Qed.

Lemma last_push v st : last (stack (push v st)) = Some v.
Proof. unfold push. simpl. apply last_snoc. Qed.

Lemma luaV_rawequalobj_table a m :
  luaV_rawequalobj a (LTable m) = true ↔ a = LTable m.
Proof.
  destruct a; simpl; try (split; [done | discriminate]).
  rewrite bool_decide_eq_true. split; congruence.
Qed.

(** An object is equal to itself, whatever the handlers. *)
Lemma luaV_equalobj_same st m :
  luaV_equalobj st (LTable m) (LTable m) = Some true.
Proof. simpl. by rewrite bool_decide_eq_true_2. Qed.

(** Without handlers, [==] is primitive equality. *)
Lemma luaV_equalobj_plain st a b :
  fasttm_eq st a = None → fasttm_eq st b = None →
  luaV_equalobj st a b = Some (luaV_rawequalobj a b).
Proof.
  intros Ha Hb.
  destruct a, b; try reflexivity; unfold luaV_equalobj; rewrite Ha, Hb;
    simpl; by case_bool_decide.
Qed.

(** The comparison of [get_lgl], on the two values it has pushed. *)
Lemma lua_compare_pushed st a b :
  lua_compare_OPEQ (-1) (-2) (push a (push b st)) =
    match luaV_equalobj st a b with
    | Some eq => (Ret (if eq then 1 else 0), push a (push b st))
    | None => (Stuck, push a (push b st))
    end.
Proof.
  unfold lua_compare_OPEQ. by rewrite index2value_top, index2value_below_top.
Qed.

(** ** Steps of the monad *)

Lemma bind_Ret {A B} (m : M A) (k : A → M B) st a st' :
  m st = (Ret a, st') → bind m k st = k a st'.
Proof. unfold bind. by intros ->. Qed.

Lemma bind_Raise {A B} (m : M A) (k : A → M B) st e st' :
  m st = (Raise e, st') → bind m k st = (Raise e, st').
Proof. unfold bind. by intros ->. Qed.

Lemma bind_Stuck {A B} (m : M A) (k : A → M B) st st' :
  m st = (Stuck, st') → bind m k st = (Stuck, st').
Proof. unfold bind. by intros ->. Qed.

Lemma raise_literal {A} s st :
  (lua_pushliteral s ;; lua_error) st = (@Raise A (LString s), push (LString s) st).
Proof.
  unfold bind, lua_pushliteral, lua_error. by rewrite last_push.
Qed.

Lemma value_at_push i v st :
  0 < i <= Z.of_nat (length (stack st)) → value_at i (push v st) = value_at i st.
Proof. intros. unfold value_at. by rewrite index2value_push. Qed.

Lemma value_at_1 v args st : stack st = v :: args → value_at 1 st = v.
Proof. intros H. unfold value_at. rewrite index2value_pos by lia. by rewrite H. Qed.

Lemma pop2_push2 a b st : lua_pop 2 (push b (push a st)) = (Ret tt, st).
Proof.
  unfold lua_pop, push, set_stack. simpl. rewrite take_push2. by destruct st.
Qed.

Lemma pop1_push v st : lua_pop 1 (push v st) = (Ret tt, st).
Proof.
  unfold lua_pop, push, set_stack. simpl. rewrite take_push. by destruct st.
Qed.

(** ** [get_lgl] *)

Section SelfProofs.
Context (luaO_str2num : string → option (Z + lua_Number)).
Context (E : Lingeling).

Lemma get_lgl_session st cls r lgl args :
  stack st = LUserdata r :: args →
  upvalue1 st = LTable cls →
  is_session st cls r lgl →
  get_lgl st = (Ret lgl, st).
Proof.
  intros Hstk Hup Hses. unfold get_lgl.
  assert (Hmt : metatable_of st (value_at 1 st) = Some cls).
  { rewrite (value_at_1 _ _ _ Hstk). simpl. by rewrite Hses. }
  rewrite (bind_Ret _ _ _ 1 (push (LTable cls) st)).
  2:{ unfold lua_getmetatable. by rewrite Hmt. }
  simpl (when_ _ _). rewrite (bind_Ret _ _ _ tt (push (LTable cls) st)) by done.
  rewrite (bind_Ret _ _ _ tt (push (LTable cls) (push (LTable cls) st))).
  2:{ unfold lua_pushvalue, value_at. rewrite index2value_upvalue. simpl. by rewrite Hup. }
  rewrite (bind_Ret _ _ _ 1 (push (LTable cls) (push (LTable cls) st))).
  2:{ unfold lua_compare_OPEQ. rewrite index2value_top, index2value_below_top.
      simpl. by rewrite bool_decide_eq_true_2. }
  simpl (when_ _ _). rewrite (bind_Ret _ _ _ tt (push (LTable cls) (push (LTable cls) st))) by done.
  rewrite (bind_Ret _ _ _ tt st) by apply pop2_push2.
  rewrite (bind_Ret _ _ _ (Block r) st).
  2:{ unfold lua_touserdata. by rewrite (value_at_1 _ _ _ Hstk). }
  simpl (when_ _ _). rewrite (bind_Ret _ _ _ tt st) by done.
  unfold load_LGL. by rewrite Hses.
Qed.

Lemma get_lgl_no_metatable st :
  metatable_of st (value_at 1 st) = None →
  ∃ st', get_lgl st = (Raise (LString "Invalid self argument"), st')
         ∧ engine st' = engine st.
Proof.
  intros Hmt. unfold get_lgl.
  rewrite (bind_Ret _ _ _ 0 st) by (unfold lua_getmetatable; by rewrite Hmt).
  simpl (when_ _ _). exists (push (LString "Invalid self argument") st).
  split; [| done]. erewrite bind_Raise; [done |]. apply raise_literal.
Qed.

(** [get_lgl] up to the comparison of the metatable with the class *)
Lemma get_lgl_compared st m :
  metatable_of st (value_at 1 st) = Some m →
  get_lgl st =
    match luaV_equalobj st (upvalue1 st) (LTable m) with
    | Some true =>
        (do lgl_ptr <- lua_touserdata 1;
         when_ (is_NULL lgl_ptr)
           (lua_pushliteral "Invalid self argument" ;; lua_error) ;;
         load_LGL lgl_ptr) st
    | Some false =>
        (Raise (LString "Invalid self argument"),
         push (LString "Invalid self argument")
           (push (upvalue1 st) (push (LTable m) st)))
    | None => (Stuck, push (upvalue1 st) (push (LTable m) st))
    end.
Proof.
  intros Hmt. unfold get_lgl at 1.
  rewrite (bind_Ret _ _ _ 1 (push (LTable m) st))
    by (unfold lua_getmetatable; by rewrite Hmt).
  simpl (when_ _ _). rewrite (bind_Ret _ _ _ tt (push (LTable m) st)) by done.
  rewrite (bind_Ret _ _ _ tt (push (upvalue1 st) (push (LTable m) st))) by done.
  pose proof (lua_compare_pushed st (upvalue1 st) (LTable m)) as Hcmp.
  destruct (luaV_equalobj st (upvalue1 st) (LTable m)) as [[|] |].
  - rewrite (bind_Ret _ _ _ _ _ Hcmp). simpl (when_ _ _).
    rewrite (bind_Ret _ _ _ tt (push (upvalue1 st) (push (LTable m) st))) by done.
    by rewrite (bind_Ret _ _ _ tt st) by apply pop2_push2.
  - rewrite (bind_Ret _ _ _ _ _ Hcmp). simpl (when_ _ _).
    erewrite bind_Raise; [done |]. apply raise_literal.
  - by rewrite (bind_Stuck _ _ _ _ Hcmp).
Qed.

Lemma get_lgl_invalid st :
  fails_validation st →
  no_eq_handler st →
  ∃ st', get_lgl st = (Raise (LString "Invalid self argument"), st')
         ∧ engine st' = engine st.
Proof.
  intros Hf [Hup Hself].
  destruct (metatable_of st (value_at 1 st)) as [m|] eqn:Hmt.
  2:{ by apply get_lgl_no_metatable. }
  unfold get_lgl.
  rewrite (bind_Ret _ _ _ 1 (push (LTable m) st))
    by (unfold lua_getmetatable; by rewrite Hmt).
  simpl (when_ _ _). rewrite (bind_Ret _ _ _ tt (push (LTable m) st)) by done.
  rewrite (bind_Ret _ _ _ tt (push (upvalue1 st) (push (LTable m) st))) by done.
  pose proof (lua_compare_pushed st (upvalue1 st) (LTable m)) as Hcmp.
  rewrite (luaV_equalobj_plain st _ _ Hup (Hself m eq_refl)) in Hcmp.
  destruct (decide (upvalue1 st = LTable m)) as [Heq | Hne].
  - rewrite (proj2 (luaV_rawequalobj_table _ _) Heq) in Hcmp.
    rewrite (bind_Ret _ _ _ _ _ Hcmp).
    simpl (when_ _ _).
    rewrite (bind_Ret _ _ _ tt (push (upvalue1 st) (push (LTable m) st))) by done.
    rewrite (bind_Ret _ _ _ tt st) by apply pop2_push2.
    assert (Hnull : touserdata (value_at 1 st) = NULL).
    { destruct Hf as [Hno | m' Hm' Hne | Hnull]; [congruence | | done].
      congruence. }
    rewrite (bind_Ret _ _ _ NULL st) by (unfold lua_touserdata; by rewrite Hnull).
    simpl (when_ _ _). eexists. split.
    + erewrite bind_Raise; [done |]. apply raise_literal.
    + done.
  - assert (Hraw : luaV_rawequalobj (upvalue1 st) (LTable m) = false).
    { destruct (luaV_rawequalobj (upvalue1 st) (LTable m)) eqn:Heq; [| done].
      apply luaV_rawequalobj_table in Heq. done. }
    rewrite Hraw in Hcmp. rewrite (bind_Ret _ _ _ _ _ Hcmp).
    simpl (when_ _ _). eexists. split.
    + erewrite bind_Raise; [done |]. apply raise_literal.
    + done.
Qed.

End SelfProofs.

(** ** [Solver_addDIMACSSeqence] *)

Section AddProofs.
Context (luaO_str2num : string → option (Z + lua_Number)).
Context (E : Lingeling).

Lemma Solver_addDIMACSSeqence_eq :
  Solver_addDIMACSSeqence luaO_str2num =
  (do lgl <- get_lgl;
   do n <- lua_gettop;
   for_range 2 n (add_argument luaO_str2num lgl) ;;
   ret 0).
Proof. reflexivity. Qed.

Lemma set_engine_log_call e c st :
  set_engine e (log_call c st) = set_engine e st.
Proof. reflexivity. Qed.

Lemma log_call_push c v st : log_call c (push v st) = push v (log_call c st).
Proof. reflexivity. Qed.

Lemma set_engine_id st : set_engine (engine st) st = st.
Proof. by destruct st. Qed.

Lemma lua_tointegerx_Some idx st c :
  tointeger luaO_str2num (value_at idx st) = Some c →
  lua_tointegerx luaO_str2num idx st = (Ret (c, true), st).
Proof. unfold lua_tointegerx. by intros ->. Qed.

Lemma lua_tointegerx_None idx st :
  tointeger luaO_str2num (value_at idx st) = None →
  lua_tointegerx luaO_str2num idx st = (Ret (0, false), st).
Proof. unfold lua_tointegerx. by intros ->. Qed.

Lemma lua_tointeger_eq idx st :
  lua_tointeger luaO_str2num idx st = (Ret (tointeger0 luaO_str2num (value_at idx st)), st).
Proof.
  unfold lua_tointeger, tointeger0, bind, lua_tointegerx.
  by destruct (tointeger luaO_str2num (value_at idx st)).
Qed.

Lemma value_at_top v st : value_at (-1) (push v st) = v.
Proof. unfold value_at. by rewrite index2value_top. Qed.

Lemma lua_geti_table i j r t st :
  index2value i st = Some (LTable r) →
  tables st !! r = Some t →
  lua_geti i j st =
    (Ret (ttype (default LNil (t_int t !! j))), push (default LNil (t_int t !! j)) st).
Proof. unfold lua_geti. by intros -> ->. Qed.

Lemma all_integers_app l1 l2 :
  all_integers luaO_str2num (l1 ++ l2) =
  all_integers luaO_str2num l1 && all_integers luaO_str2num l2.
Proof. apply forallb_app. Qed.

Lemma integer_prefix_app l1 l2 :
  integer_prefix luaO_str2num (l1 ++ l2) =
  if all_integers luaO_str2num l1
  then integer_prefix luaO_str2num l1 ++ integer_prefix luaO_str2num l2
  else integer_prefix luaO_str2num l1.
Proof.
  induction l1 as [| v l1 IH]; [done |]. simpl.
  destruct (tointeger luaO_str2num v) as [c |] eqn:Hv.
  - rewrite bool_decide_eq_true_2 by eauto. simpl. rewrite IH.
    by destruct (all_integers luaO_str2num l1).
  - rewrite bool_decide_eq_false_2; [done |]. by intros [? ?].
Qed.

Lemma add_entry_Some lgl i j r t st c :
  index2value i st = Some (LTable r) →
  tables st !! r = Some t →
  tointeger luaO_str2num (default LNil (t_int t !! j)) = Some c →
  add_entry luaO_str2num lgl i j st =
    (Ret tt, log_call (Lgladd lgl (int_of_lua_Integer c)) st).
Proof.
  intros Hidx Ht Hv. unfold add_entry.
  rewrite (bind_Ret _ _ _ _ _ (lua_geti_table _ _ _ _ _ Hidx Ht)).
  set (v := default LNil (t_int t !! j)) in *.
  rewrite (bind_Ret _ _ _ (c, true) (push v st))
    by (apply lua_tointegerx_Some; by rewrite value_at_top).
  simpl (when_ _ _).
  rewrite (bind_Ret _ _ _ tt (push v st)) by done.
  rewrite (bind_Ret _ _ _ tt (push v (log_call (Lgladd lgl (int_of_lua_Integer c)) st))) by done.
  apply pop1_push.
Qed.

Lemma add_entry_None lgl i j r t st :
  index2value i st = Some (LTable r) →
  tables st !! r = Some t →
  tointeger luaO_str2num (default LNil (t_int t !! j)) = None →
  add_entry luaO_str2num lgl i j st =
    (Raise (LString illegal_argument),
     push (LString illegal_argument) (push (default LNil (t_int t !! j)) st)).
Proof.
  intros Hidx Ht Hv. unfold add_entry.
  rewrite (bind_Ret _ _ _ _ _ (lua_geti_table _ _ _ _ _ Hidx Ht)).
  set (v := default LNil (t_int t !! j)) in *.
  rewrite (bind_Ret _ _ _ (0, false) (push v st))
    by (apply lua_tointegerx_None; by rewrite value_at_top).
  simpl (when_ _ _).
  erewrite bind_Raise; [done |]. apply raise_literal.
Qed.

(** The inner loop: the entries are forwarded up to the first that is not
    an integer. *)
Lemma add_entries_run lgl i r t js : ∀ st,
  index2value i st = Some (LTable r) →
  tables st !! r = Some t →
  let vs := (λ j, default LNil (t_int t !! j)) <$> js in
  if all_integers luaO_str2num vs then
    for_each js (add_entry luaO_str2num lgl i) st =
      (Ret tt, set_engine (engine st ++ adds lgl (integer_prefix luaO_str2num vs)) st)
  else
    ∃ st', for_each js (add_entry luaO_str2num lgl i) st =
             (Raise (LString illegal_argument), st')
           ∧ engine st' = engine st ++ adds lgl (integer_prefix luaO_str2num vs)
           ∧ tables st' = tables st ∧ udata st' = udata st.
Proof.
  induction js as [| j js IH]; intros st Hidx Ht; simpl.
  { unfold ret. rewrite app_nil_r. by rewrite set_engine_id. }
  destruct (tointeger luaO_str2num (default LNil (t_int t !! j))) as [c |] eqn:Hv.
  - rewrite bool_decide_eq_true_2 by eauto. simpl.
    rewrite (bind_Ret _ _ _ _ _ (add_entry_Some lgl _ _ _ _ _ _ Hidx Ht Hv)).
    specialize (IH (log_call (Lgladd lgl (int_of_lua_Integer c)) st) Hidx Ht).
    simpl in IH. rewrite <- !app_assoc in IH. exact IH.
  - rewrite bool_decide_eq_false_2 by (by intros [? ?]). simpl.
    rewrite (bind_Raise _ _ _ _ _ (add_entry_None lgl _ _ _ _ _ Hidx Ht Hv)).
    eexists. split; [done |]. simpl. by rewrite app_nil_r.
Qed.

Lemma lua_type_eq i v st :
  index2value i st = Some v → lua_type i st = (Ret (ttype v), st).
Proof. unfold lua_type. by intros ->. Qed.

Lemma lua_len_table i r t st :
  index2value i st = Some (LTable r) →
  tables st !! r = Some t →
  lua_len i st = (Ret tt, push (LInteger (luaH_getn (t_int t))) st).
Proof. unfold lua_len. by intros -> ->. Qed.

Lemma for_range_1 n body : for_range 1 n body = for_each (seqZ 1 n) body.
Proof. unfold for_range. by replace (n - 1 + 1) with n by lia. Qed.

Lemma value_at_Some i v st : index2value i st = Some v → value_at i st = v.
Proof. unfold value_at. by intros ->. Qed.

(** One argument: a table is forwarded entry by entry, any other value as
    one literal. *)
Lemma add_argument_run lgl i v st :
  index2value i st = Some v →
  (∀ r, v = LTable r → is_Some (tables st !! r)) →
  let vs := arg_items (tables st) v in
  if all_integers luaO_str2num vs then
    add_argument luaO_str2num lgl i st =
      (Ret tt, set_engine (engine st ++ adds lgl (integer_prefix luaO_str2num vs)) st)
  else
    ∃ st', add_argument luaO_str2num lgl i st =
             (Raise (LString illegal_argument), st')
           ∧ engine st' = engine st ++ adds lgl (integer_prefix luaO_str2num vs)
           ∧ tables st' = tables st ∧ udata st' = udata st.
Proof.
  intros Hidx Hlive. unfold add_argument.
  rewrite (bind_Ret _ _ _ _ _ (lua_type_eq _ _ _ Hidx)).
  assert (Hcase : (∃ r, v = LTable r) ∨ (∀ r, v ≠ LTable r))
    by (destruct v; eauto).
  destruct Hcase as [[r ->] | Hnt].
  - destruct (Hlive r eq_refl) as [t Ht]. simpl. rewrite Ht. simpl.
    rewrite (bind_Ret _ _ _ _ _ (lua_len_table _ _ _ _ Hidx Ht)).
    rewrite (bind_Ret _ _ _ _ _ (lua_tointeger_eq _ _)).
    rewrite value_at_top.
    replace (tointeger0 luaO_str2num (LInteger (luaH_getn (t_int t))))
      with (luaH_getn (t_int t)) by done.
    rewrite (bind_Ret _ _ _ _ _ (pop1_push _ _)).
    rewrite for_range_1.
    exact (add_entries_run lgl i r t _ st Hidx Ht).
  - assert (Hty : (ttype v =? LUA_TTABLE) = false).
    { destruct v; try done; by destruct (Hnt r). }
    rewrite Hty.
    assert (Hitems : arg_items (tables st) v = [v]).
    { destruct v; try done; by destruct (Hnt r). }
    rewrite Hitems. simpl.
    destruct (tointeger luaO_str2num v) as [c |] eqn:Hv.
    + rewrite bool_decide_eq_true_2 by eauto. simpl.
      rewrite (bind_Ret _ _ _ (c, true) st)
        by (apply lua_tointegerx_Some; by rewrite (value_at_Some _ _ _ Hidx)).
      simpl (when_ _ _). by rewrite (bind_Ret _ _ _ tt st) by done.
    + rewrite bool_decide_eq_false_2 by (by intros [? ?]). simpl.
      rewrite (bind_Ret _ _ _ (0, false) st)
        by (apply lua_tointegerx_None; by rewrite (value_at_Some _ _ _ Hidx)).
      simpl (when_ _ _). eexists. split.
      * erewrite bind_Raise; [done |]. apply raise_literal.
      * simpl. by rewrite app_nil_r.
Qed.

(** The outer loop, over any list of valid indices. *)
Lemma add_arguments_run lgl idxs : ∀ st,
  Forall (live_at st) idxs →
  let vs := flat_map (λ i, arg_items (tables st) (value_at i st)) idxs in
  if all_integers luaO_str2num vs then
    for_each idxs (add_argument luaO_str2num lgl) st =
      (Ret tt, set_engine (engine st ++ adds lgl (integer_prefix luaO_str2num vs)) st)
  else
    ∃ st', for_each idxs (add_argument luaO_str2num lgl) st =
             (Raise (LString illegal_argument), st')
           ∧ engine st' = engine st ++ adds lgl (integer_prefix luaO_str2num vs)
           ∧ tables st' = tables st ∧ udata st' = udata st.
Proof.
  induction idxs as [| i idxs IH]; intros st Hlive; simpl.
  { unfold ret. rewrite app_nil_r. by rewrite set_engine_id. }
  apply Forall_cons in Hlive as [(v & Hidx & Hv) Hrest].
  rewrite (value_at_Some _ _ _ Hidx).
  rewrite all_integers_app, integer_prefix_app.
  pose proof (add_argument_run lgl i v st Hidx Hv) as Hone. simpl in Hone.
  destruct (all_integers luaO_str2num (arg_items (tables st) v)) eqn:Hall; simpl.
  - rewrite (bind_Ret _ _ _ _ _ Hone).
    set (st1 := set_engine _ st).
    specialize (IH st1 Hrest). simpl in IH.
    unfold adds. rewrite fmap_app. rewrite app_assoc. exact IH.
  - destruct Hone as (st' & Hrun & Heng & Htb & Hud).
    exists st'. by rewrite (bind_Raise _ _ _ _ _ Hrun).
Qed.

Lemma flat_map_arguments {B} (f : lua_value → list B) st args : ∀ pre,
  stack st = pre ++ args →
  flat_map (λ i, f (value_at i st))
    (seqZ (Z.of_nat (length pre) + 1) (Z.of_nat (length args))) = flat_map f args.
Proof.
  induction args as [| a args IH]; intros pre Hstk; [done |].
  rewrite seqZ_cons by (simpl; lia). simpl.
  f_equal.
  - f_equal. unfold value_at. rewrite index2value_pos by lia.
    rewrite Hstk.
    replace (Z.to_nat (Z.of_nat (length pre) + 1 - 1)) with (length pre) by lia.
    by rewrite list_lookup_middle.
  - specialize (IH (pre ++ [a])). rewrite length_app in IH. simpl in IH.
    rewrite <- IH by (by rewrite <- app_assoc).
    f_equal. f_equal; lia.
Qed.

Lemma live_arguments st args : ∀ pre,
  stack st = pre ++ args →
  (∀ r, LTable r ∈ args → is_Some (tables st !! r)) →
  Forall (live_at st) (seqZ (Z.of_nat (length pre) + 1) (Z.of_nat (length args))).
Proof.
  induction args as [| a args IH]; intros pre Hstk Hlive.
  { simpl. constructor. }
  rewrite seqZ_cons by (simpl; lia). constructor.
  - exists a. split.
    + rewrite index2value_pos by lia. rewrite Hstk.
      replace (Z.to_nat (Z.of_nat (length pre) + 1 - 1)) with (length pre) by lia.
      by rewrite list_lookup_middle.
    + intros r ->. apply Hlive. left.
  - specialize (IH (pre ++ [a])). rewrite length_app in IH. simpl in IH.
    replace (Z.succ (Z.of_nat (length pre) + 1)) with (Z.of_nat (length pre + 1)%nat + 1) by lia.
    replace (Z.pred (Z.of_nat (length (a :: args)))) with (Z.of_nat (length args)) by (simpl; lia).
    apply IH; [by rewrite <- app_assoc |].
    intros r Hr. apply Hlive. by right.
Qed.

(** [Solver_addDIMACSSeqence] on a session: the elements of the arguments
    are forwarded, in order, up to the first that is not an integer. *)
Lemma addDIMACSequence_run st cls r lgl args :
  stack st = LUserdata r :: args →
  upvalue1 st = LTable cls →
  is_session st cls r lgl →
  (∀ r', LTable r' ∈ args → is_Some (tables st !! r')) →
  let vs := flat_map (arg_items (tables st)) args in
  if all_integers luaO_str2num vs then
    Solver_addDIMACSSeqence luaO_str2num st =
      (Ret 0, set_engine (engine st ++ adds lgl (integer_prefix luaO_str2num vs)) st)
  else
    ∃ st', Solver_addDIMACSSeqence luaO_str2num st =
             (Raise (LString illegal_argument), st')
           ∧ engine st' = engine st ++ adds lgl (integer_prefix luaO_str2num vs)
           ∧ tables st' = tables st ∧ udata st' = udata st.
Proof.
  intros Hstk Hup Hses Hlive. rewrite Solver_addDIMACSSeqence_eq.
  rewrite (bind_Ret _ _ _ _ _ (get_lgl_session _ _ _ _ _ Hstk Hup Hses)).
  rewrite (bind_Ret _ _ _ (Z.of_nat (length (stack st))) st) by done.
  unfold for_range.
  replace (Z.of_nat (length (stack st))) with (Z.of_nat (S (length args)))
    by (by rewrite Hstk).
  replace (Z.of_nat (S (length args)) - 2 + 1) with (Z.of_nat (length args)) by lia.
  pose proof (add_arguments_run lgl _ st
                (live_arguments st args [LUserdata r] Hstk Hlive)) as Hrun.
  cbv zeta in Hrun.
  rewrite (flat_map_arguments (arg_items (tables st)) st args [LUserdata r] Hstk) in Hrun.
  change (Z.of_nat (length [LUserdata r]) + 1) with 2 in Hrun.
  destruct (all_integers luaO_str2num _).
  - by rewrite (bind_Ret _ _ _ _ _ Hrun).
  - destruct Hrun as (st' & Hrun & Hrest). exists st'.
    by rewrite (bind_Raise _ _ _ _ _ Hrun).
Qed.

End AddProofs.

(** ** Tables that are sequences *)

Lemma lookup_seq_table_from l : ∀ j k,
  seq_table_from j l !! k =
  if decide (j <= k < j + Z.of_nat (length l)) then l !! Z.to_nat (k - j) else None.
Proof.
  induction l as [| v l IH]; intros j k; simpl.
  { rewrite lookup_empty. by case_decide. }
  destruct (decide (j = k)) as [-> | Hne].
  - rewrite lookup_insert_eq. rewrite decide_True by lia.
    by replace (Z.to_nat (k - k)) with 0%nat by lia.
  - rewrite lookup_insert_ne by done. rewrite IH.
    repeat case_decide; try lia; try done.
    replace (Z.to_nat (k - j)) with (S (Z.to_nat (k - (j + 1)))) by lia. done.
Qed.

Lemma lookup_seq_table l k :
  seq_table l !! k =
  if decide (1 <= k <= Z.of_nat (length l)) then l !! Z.to_nat (k - 1) else None.
Proof.
  unfold seq_table. rewrite lookup_seq_table_from.
  repeat case_decide; try lia; done.
Qed.

Lemma size_seq_table_from l : ∀ j, size (seq_table_from j l) = length l.
Proof.
  induction l as [| v l IH]; intros j; simpl; [apply map_size_empty |].
  rewrite map_size_insert_None; [by rewrite IH |].
  rewrite lookup_seq_table_from. case_decide; [lia | done].
Qed.

Lemma seq_table_from_snoc l v : ∀ j,
  <[j + Z.of_nat (length l) := v]> (seq_table_from j l) = seq_table_from j (l ++ [v]).
Proof.
  induction l as [| x l IH]; intros j; simpl.
  { by replace (j + Z.of_nat 0) with j by lia. }
  rewrite <- IH. rewrite insert_insert_ne by lia.
  do 2 f_equal. lia.
Qed.

Lemma seq_table_snoc l v :
  <[Z.of_nat (length l) + 1 := v]> (seq_table l) = seq_table (l ++ [v]).
Proof.
  unfold seq_table. rewrite <- seq_table_from_snoc. f_equal. lia.
Qed.

Lemma border_from_spec (t : gmap Z lua_value) n : ∀ fuel k,
  k <= n →
  (∀ j, k < j <= n → is_Some (t !! j)) →
  t !! (n + 1) = None →
  (Z.to_nat (n - k) <= fuel)%nat →
  border_from fuel t k = n.
Proof.
  induction fuel as [| fuel IH]; intros k Hk Hin Hout Hfuel; simpl.
  { lia. }
  destruct (decide (k = n)) as [-> | Hne].
  { by rewrite Hout. }
  destruct (Hin (k + 1)) as [x Hx]; [lia |]. rewrite Hx.
  apply IH; [lia | | done | lia].
  intros j Hj. apply Hin. lia.
Qed.

Lemma luaH_getn_seq_table l : luaH_getn (seq_table l) = Z.of_nat (length l).
Proof.
  unfold luaH_getn. apply border_from_spec.
  - lia.
  - intros j Hj. rewrite lookup_seq_table. rewrite decide_True by lia.
    apply lookup_lt_is_Some. lia.
  - rewrite lookup_seq_table. case_decide; [lia | done].
  - unfold seq_table. rewrite size_seq_table_from. lia.
Qed.

Lemma table_seq_seq_table l : table_seq (seq_table l) = l.
Proof.
  unfold table_seq. rewrite luaH_getn_seq_table.
  apply list_eq. intros i. rewrite list_lookup_fmap.
  destruct (decide (i < length l)%nat) as [Hlt | Hge].
  - rewrite lookup_seqZ_lt by lia. simpl.
    rewrite lookup_seq_table. rewrite decide_True by lia.
    replace (Z.to_nat (1 + Z.of_nat i - 1)) with i by lia.
    destruct (lookup_lt_is_Some_2 l i Hlt) as [x Hx]. by rewrite Hx.
  - rewrite lookup_seqZ_ge by lia. simpl. symmetry. apply lookup_ge_None. lia.
Qed.

Lemma seqZ_to_nat m n : seqZ m n = seqZ m (Z.of_nat (Z.to_nat n)).
Proof. unfold seqZ. by rewrite Nat2Z.id. Qed.

(** ** One step of [Solver_query] *)

Section QueryStepProofs.
Context (luaO_str2num : string → option (Z + lua_Number)).
Context (E : Lingeling).

Lemma Solver_query_eq :
  Solver_query luaO_str2num E =
  (do lgl <- get_lgl;
   do top <- lua_gettop;
   when_ (negb (top =? 2))
     (lua_pushliteral "Query must be called with arguments self and a table" ;;
      lua_error) ;;
   do type <- lua_type 2;
   when_ (negb (type =? LUA_TTABLE))
     (lua_pushliteral "Query must be called with a table argument" ;;
      lua_error) ;;
   lua_newtable ;;
   lua_len 2 ;;
   do len <- lua_tointeger luaO_str2num (-1);
   lua_pop 1 ;;
   for_range 1 len (query_entry luaO_str2num E lgl) ;;
   ret 1).
Proof. reflexivity. Qed.

Lemma unpush v st :
  set_stack (take (length (stack (push v st)) - 1)%nat (stack (push v st))) (push v st) = st.
Proof. pose proof (pop1_push v st) as H. unfold lua_pop in H. congruence. Qed.

Lemma lua_seti_table i j r t v st :
  0 < i <= Z.of_nat (length (stack st)) →
  index2value i st = Some (LTable r) →
  tables st !! r = Some t →
  v ≠ LNil →
  lua_seti i j (push v st) =
    (Ret tt, set_tables (<[r := mkTable (<[j := v]> (t_int t)) (t_meta t) (t_eq t)]> (tables st)) st).
Proof.
  intros Hi Hidx Ht Hv. unfold lua_seti.
  rewrite index2value_push by done. rewrite Hidx, last_push.
  change (tables (push v st)) with (tables st). rewrite Ht.
  rewrite unpush. by destruct v.
Qed.

Lemma query_entry_nonzero lgl j r r3 t t3 st :
  index2value 2 st = Some (LTable r) →
  index2value 3 st = Some (LTable r3) →
  (3 <= length (stack st))%nat →
  tables st !! r = Some t →
  tables st !! r3 = Some t3 →
  tointeger0 luaO_str2num (default LNil (t_int t !! j)) ≠ 0 →
  let c := int_of_lua_Integer (tointeger0 luaO_str2num (default LNil (t_int t !! j))) in
  query_entry luaO_str2num E lgl j st =
    (Ret tt,
     set_tables
       (<[r3 := mkTable (<[j := LInteger (lglderef_ret E (engine st) lgl c)]> (t_int t3))
                        (t_meta t3) (t_eq t3)]> (tables st))
       (log_call (Lglderef lgl c) st)).
Proof.
  intros H2 H3 Hlen Ht Ht3 Hc c. unfold query_entry.
  rewrite (bind_Ret _ _ _ _ _ (lua_geti_table _ _ _ _ _ H2 Ht)).
  rewrite (bind_Ret _ _ _ _ _ (lua_tointeger_eq _ _ _)).
  rewrite value_at_top.
  rewrite (proj2 (Z.eqb_neq _ _) Hc). simpl (when_ _ _).
  rewrite (bind_Ret _ _ _ tt (push (default LNil (t_int t !! j)) st)) by done.
  rewrite (bind_Ret _ _ _ _ _ (pop1_push _ _)).
  fold c.
  rewrite (bind_Ret _ _ _ (lglderef_ret E (engine st) lgl c) (log_call (Lglderef lgl c) st))
    by done.
  rewrite (bind_Ret _ _ _ tt
             (push (LInteger (lglderef_ret E (engine st) lgl c)) (log_call (Lglderef lgl c) st)))
    by done.
  by rewrite (lua_seti_table 3 j r3 t3 _ (log_call (Lglderef lgl c) st))
    by (try done; simpl; lia).
Qed.

Lemma query_entry_zero lgl j r t st :
  index2value 2 st = Some (LTable r) →
  tables st !! r = Some t →
  tointeger0 luaO_str2num (default LNil (t_int t !! j)) = 0 →
  query_entry luaO_str2num E lgl j st =
    (Raise (LString zero_in_array),
     push (LString zero_in_array) (push (default LNil (t_int t !! j)) st)).
Proof.
  intros H2 Ht Hc. unfold query_entry.
  rewrite (bind_Ret _ _ _ _ _ (lua_geti_table _ _ _ _ _ H2 Ht)).
  rewrite (bind_Ret _ _ _ _ _ (lua_tointeger_eq _ _ _)).
  rewrite value_at_top. rewrite Hc. simpl (when_ _ _).
  erewrite bind_Raise; [done |]. apply raise_literal.
Qed.

End QueryStepProofs.

(** ** [Solver_query] *)

Section QueryProofs.
Context (luaO_str2num : string → option (Z + lua_Number)).
Context (E : Lingeling).

Lemma set_tables_engine_id st :
  set_tables (tables st) (set_engine (engine st) st) = st.
Proof. by destruct st. Qed.

(** The loop of [Solver_query], from entry [length done + 1] on: the
    answers are appended to the [done] ones, up to the first entry that is
    zero or not an integer. *)
Lemma query_entries_run lgl r r3 t mt3 eq3 : ∀ (m : nat) done st,
  index2value 2 st = Some (LTable r) →
  index2value 3 st = Some (LTable r3) →
  (3 <= length (stack st))%nat →
  r ≠ r3 →
  tables st !! r = Some t →
  tables st !! r3 = Some (mkTable (seq_table (LInteger <$> done)) mt3 eq3) →
  let js := seqZ (Z.of_nat (length done) + 1) (Z.of_nat m) in
  let vs := (λ j, default LNil (t_int t !! j)) <$> js in
  let cs := int_of_lua_Integer <$> nonzero_prefix luaO_str2num vs in
  if all_nonzero luaO_str2num vs then
    for_each js (query_entry luaO_str2num E lgl) st =
      (Ret tt,
       set_tables
         (<[r3 := mkTable (seq_table (LInteger <$> (done ++ deref_all E (engine st) lgl cs)))
                          mt3 eq3]> (tables st))
         (set_engine (engine st ++ derefs lgl cs) st))
  else
    ∃ st', for_each js (query_entry luaO_str2num E lgl) st = (Raise (LString zero_in_array), st')
           ∧ engine st' = engine st ++ derefs lgl cs
           ∧ udata st' = udata st.
Proof.
  induction m as [| m IH]; intros done st H2 H3 Hlen Hne Ht Ht3.
  { simpl. unfold ret. rewrite !app_nil_r. rewrite insert_id by done.
    by rewrite set_tables_engine_id. }
  cbv zeta. rewrite seqZ_cons by lia.
  replace (Z.pred (Z.of_nat (S m))) with (Z.of_nat m) by lia.
  set (j := Z.of_nat (length done) + 1).
  simpl.
  destruct (decide (tointeger0 luaO_str2num (default LNil (t_int t !! j)) = 0)) as [Hz | Hnz].
  - rewrite Hz. simpl.
    rewrite (bind_Raise _ _ _ _ _ (query_entry_zero luaO_str2num E lgl j r t st H2 Ht Hz)).
    eexists. split; [done |]. simpl. by rewrite app_nil_r.
  - rewrite (proj2 (Z.eqb_neq _ _) Hnz). simpl.
    pose proof (query_entry_nonzero luaO_str2num E lgl j r r3 t _ st
                  H2 H3 Hlen Ht Ht3 Hnz) as Hstep.
    cbv zeta in Hstep. simpl in Hstep.
    set (c := int_of_lua_Integer (tointeger0 luaO_str2num (default LNil (t_int t !! j)))) in *.
    set (res := lglderef_ret E (engine st) lgl c) in *.
    rewrite (bind_Ret _ _ _ _ _ Hstep).
    unfold j in Hstep |- * at 1.
    replace (<[Z.of_nat (length done) + 1 := LInteger res]> (seq_table (LInteger <$> done)))
      with (seq_table (LInteger <$> (done ++ [res]))).
    2:{ rewrite fmap_app. simpl. rewrite <- seq_table_snoc. by rewrite length_fmap. }
    set (st1 := set_tables _ (log_call (Lglderef lgl c) st)).
    specialize (IH (done ++ [res]) st1 H2 H3 Hlen Hne).
    assert (Ht1 : tables st1 !! r = Some t).
    { unfold st1. simpl. by rewrite lookup_insert_ne. }
    assert (Ht31 : tables st1 !! r3 =
                   Some (mkTable (seq_table (LInteger <$> (done ++ [res]))) mt3 eq3)).
    { unfold st1. simpl. by rewrite lookup_insert_eq. }
    specialize (IH Ht1 Ht31). cbv zeta in IH.
    rewrite length_app in IH. simpl length in IH.
    replace (Z.of_nat (length done + 1) + 1) with (Z.succ j) in IH by lia.
    destruct (all_nonzero luaO_str2num _) eqn:Hall.
    + rewrite IH. f_equal. unfold st1. simpl.
      unfold set_tables, set_engine, log_call, set_engine. simpl.
      rewrite insert_insert_eq. rewrite <- !app_assoc. done.
    + destruct IH as (st' & Hrun & Heng & Hud). exists st'. split; [done |].
      split; [| done]. rewrite Heng. unfold st1. simpl. by rewrite <- app_assoc.
Qed.

Lemma lua_newtable_eq st :
  lua_newtable st =
    (Ret tt, push (LTable (fresh (dom (tables st))))
               (set_tables (<[fresh (dom (tables st)) := mkTable ∅ None None]> (tables st)) st)).
Proof. reflexivity. Qed.

(** [Solver_query] on a session and a table: a new table holds the answers
    of the engine, up to the first entry that is zero or not an integer. *)
Lemma query_run st cls r lgl rt t :
  stack st = [LUserdata r; LTable rt] →
  upvalue1 st = LTable cls →
  is_session st cls r lgl →
  tables st !! rt = Some t →
  let vs := table_seq (t_int t) in
  let cs := int_of_lua_Integer <$> nonzero_prefix luaO_str2num vs in
  let r3 := fresh (dom (tables st)) in
  if all_nonzero luaO_str2num vs then
    Solver_query luaO_str2num E st =
      (Ret 1,
       set_tables
         (<[r3 := mkTable (seq_table (LInteger <$> deref_all E (engine st) lgl cs)) None None]>
            (tables st))
         (set_engine (engine st ++ derefs lgl cs)
            (set_stack [LUserdata r; LTable rt; LTable r3] st)))
  else
    ∃ st', Solver_query luaO_str2num E st = (Raise (LString zero_in_array), st')
           ∧ engine st' = engine st ++ derefs lgl cs
           ∧ udata st' = udata st.
Proof.
  intros Hstk Hup Hses Ht. cbv zeta. rewrite Solver_query_eq.
  rewrite (bind_Ret _ _ _ _ _ (get_lgl_session _ _ _ _ _ Hstk Hup Hses)).
  rewrite (bind_Ret _ _ _ 2 st) by (unfold lua_gettop; by rewrite Hstk).
  simpl (when_ _ _). rewrite (bind_Ret _ _ _ tt st) by done.
  assert (H2 : index2value 2 st = Some (LTable rt)).
  { rewrite index2value_pos by lia. by rewrite Hstk. }
  rewrite (bind_Ret _ _ _ _ _ (lua_type_eq _ _ _ H2)).
  simpl (when_ _ _). rewrite (bind_Ret _ _ _ tt st) by done.
  rewrite (bind_Ret _ _ _ _ _ (lua_newtable_eq st)).
  set (r3 := fresh (dom (tables st))).
  assert (Hfresh : tables st !! r3 = None).
  { apply not_elem_of_dom. apply is_fresh. }
  assert (Hne : rt ≠ r3) by congruence.
  set (st1 := push (LTable r3) (set_tables (<[r3 := mkTable ∅ None None]> (tables st)) st)).
  assert (H21 : index2value 2 st1 = Some (LTable rt)).
  { unfold st1. rewrite index2value_push; [done |]. simpl. rewrite Hstk. simpl. lia. }
  assert (H31 : index2value 3 st1 = Some (LTable r3)).
  { unfold st1. rewrite index2value_pos by lia. simpl. by rewrite Hstk. }
  assert (Ht1 : tables st1 !! rt = Some t).
  { unfold st1. simpl. by rewrite lookup_insert_ne. }
  assert (Ht31 : tables st1 !! r3 = Some (mkTable (seq_table (LInteger <$> [])) None None)).
  { unfold st1. simpl. by rewrite lookup_insert_eq. }
  rewrite (bind_Ret _ _ _ _ _ (lua_len_table _ _ _ _ H21 Ht1)).
  rewrite (bind_Ret _ _ _ _ _ (lua_tointeger_eq _ _ _)).
  rewrite value_at_top.
  replace (tointeger0 luaO_str2num (LInteger (luaH_getn (t_int t))))
    with (luaH_getn (t_int t)) by done.
  rewrite (bind_Ret _ _ _ _ _ (pop1_push _ _)).
  rewrite for_range_1. rewrite seqZ_to_nat.
  assert (Hlen1 : (3 <= length (stack st1))%nat).
  { unfold st1. simpl. rewrite Hstk. simpl. lia. }
  pose proof (query_entries_run lgl rt r3 t None None (Z.to_nat (luaH_getn (t_int t))) [] st1
                H21 H31 Hlen1 Hne Ht1 Ht31) as Hrun.
  cbv zeta in Hrun. simpl (Z.of_nat (length []) + 1) in Hrun.
  unfold table_seq. rewrite (seqZ_to_nat 1 (luaH_getn (t_int t))).
  destruct (all_nonzero luaO_str2num _).
  - rewrite (bind_Ret _ _ _ _ _ Hrun). unfold ret. f_equal.
    unfold st1. simpl. unfold set_tables, set_engine, set_stack, push. simpl.
    rewrite insert_insert_eq. rewrite Hstk. done.
  - destruct Hrun as (st' & Hrun & Heng & Hud). exists st'.
    by rewrite (bind_Raise _ _ _ _ _ Hrun).
Qed.

End QueryProofs.

(** ** What a computation can do to the engine and to the userdata *)

Section FrameProofs.
Context (luaO_str2num : string → option (Z + lua_Number)).
Context (E : Lingeling).
Context (Q : lgl_call → Prop).

Lemma silent_emits {A} (m : M A) : silent m → emits Q m.
Proof.
  intros H st. destruct (H st) as [Hu He]. split; [done |].
  exists []. by rewrite app_nil_r.
Qed.

Lemma emits_ret {A} (a : A) : emits Q (ret a).
Proof. apply silent_emits. by intros st. Qed.

Lemma emits_bind {A B} (m : M A) (k : A → M B) :
  emits Q m → (∀ a, emits Q (k a)) → emits Q (bind m k).
Proof.
  intros Hm Hk st. unfold bind.
  destruct (Hm st) as (Hu & l & He & Hl).
  destruct (m st) as [[a | e |] st1]; simpl in *.
  - destruct (Hk a st1) as (Hu' & l' & He' & Hl').
    split; [congruence |]. exists (l ++ l'). split.
    + rewrite He', He. by rewrite app_assoc.
    + by apply Forall_app.
  - eauto.
  - eauto.
Qed.

Lemma emits_when (b : bool) (m : M unit) : emits Q m → emits Q (when_ b m).
Proof. destruct b; [done |]. intros _. apply emits_ret. Qed.

Lemma emits_for_each l (body : Z → M unit) :
  (∀ i, emits Q (body i)) → emits Q (for_each l body).
Proof.
  intros Hbody. induction l as [| i l IH]; simpl.
  - apply emits_ret.
  - apply emits_bind; [apply Hbody | done].
Qed.

Lemma emits_for_range lo hi (body : Z → M unit) :
  (∀ i, emits Q (body i)) → emits Q (for_range lo hi body).
Proof. apply emits_for_each. Qed.

Lemma emits_call {A} (m : M A) (c : lgl_call) (a : lua_State → A) :
  Q c → (∀ st, m st = (Ret (a st), log_call c st)) → emits Q m.
Proof.
  intros Hc Hm st. rewrite Hm. simpl. split; [done |].
  exists [c]. split; [done |]. by constructor.
Qed.

Lemma silent_lua_gettop : silent lua_gettop.
Proof. by intros st. Qed.
Lemma silent_lua_type i : silent (lua_type i).
Proof. by intros st. Qed.
Lemma silent_lua_pushvalue i : silent (lua_pushvalue i).
Proof. by intros st. Qed.
Lemma silent_lua_pushliteral s : silent (lua_pushliteral s).
Proof. by intros st. Qed.
Lemma silent_lua_pushboolean b : silent (lua_pushboolean b).
Proof. by intros st. Qed.
Lemma silent_lua_pushinteger n : silent (lua_pushinteger n).
Proof. by intros st. Qed.
Lemma silent_lua_pop n : silent (lua_pop n).
Proof. by intros st. Qed.
Lemma silent_lua_error {A} : silent (@lua_error A).
Proof. intros st. unfold lua_error. by destruct (last (stack st)). Qed.
Lemma silent_lua_getmetatable i : silent (lua_getmetatable i).
Proof. intros st. unfold lua_getmetatable. by destruct (metatable_of _ _). Qed.
Lemma silent_lua_compare_OPEQ i j : silent (lua_compare_OPEQ i j).
Proof.
  intros st. unfold lua_compare_OPEQ.
  destruct (index2value i st) as [a |], (index2value j st) as [b |]; try done.
  by destruct (luaV_equalobj st a b).
Qed.
Lemma silent_lua_touserdata i : silent (lua_touserdata i).
Proof. by intros st. Qed.
Lemma silent_load_LGL p : silent (load_LGL p).
Proof.
  intros st. unfold load_LGL. destruct p; try done. by destruct (udata st !! r).
Qed.
Lemma silent_lua_newtable : silent lua_newtable.
Proof. by intros st. Qed.
Lemma silent_lua_len i : silent (lua_len i).
Proof.
  intros st. unfold lua_len.
  destruct (index2value i st) as [[] |]; try done. by destruct (tables st !! r).
Qed.
Lemma silent_lua_geti i n : silent (lua_geti i n).
Proof.
  intros st. unfold lua_geti.
  destruct (index2value i st) as [[] |]; try done. by destruct (tables st !! r).
Qed.
Lemma silent_lua_seti i n : silent (lua_seti i n).
Proof.
  intros st. unfold lua_seti.
  destruct (index2value i st) as [[] |]; try done.
  destruct (last (stack st)); try done. by destruct (tables st !! r).
Qed.
Lemma silent_lua_tointegerx i : silent (lua_tointegerx luaO_str2num i).
Proof. intros st. unfold lua_tointegerx. by destruct (tointeger _ _). Qed.

End FrameProofs.

Create HintDb frames.

#[export] Hint Resolve silent_lua_gettop silent_lua_type silent_lua_pushvalue
  silent_lua_pushliteral silent_lua_pushboolean silent_lua_pushinteger
  silent_lua_pop silent_lua_error silent_lua_getmetatable
  silent_lua_compare_OPEQ silent_lua_touserdata silent_load_LGL
  silent_lua_newtable silent_lua_len silent_lua_geti silent_lua_seti
  silent_lua_tointegerx : frames.

Ltac frame :=
  repeat first
    [ apply emits_ret
    | apply emits_when
    | apply emits_for_range; intros ?
    | apply emits_bind; [| intros ?]
    | apply silent_emits; solve [eauto with frames]
    | eapply emits_call; [| intros ?; reflexivity]; done
    | match goal with
      | |- emits _ (match ?x with _ => _ end) => destruct x
      | |- emits _ (if ?b then _ else _) => destruct b
      end ].

(** ** Sequences of operations *)

Section SessionProofs.
Context (luaO_str2num : string → option (Z + lua_Number)).
Context (E : Lingeling).

Lemma emits_get_lgl Q : emits Q get_lgl.
Proof. unfold get_lgl. frame. Qed.

Lemma emits_lua_tointeger Q i : emits Q (lua_tointeger luaO_str2num i).
Proof. unfold lua_tointeger. frame. Qed.

Lemma emits_addDIMACSSeqence :
  emits no_release (Solver_addDIMACSSeqence luaO_str2num).
Proof.
  unfold Solver_addDIMACSSeqence.
  pose proof (emits_get_lgl no_release). pose proof (emits_lua_tointeger no_release).
  frame; done.
Qed.

Lemma emits_isSatisfiable : emits no_release (Solver_isSatisfiable E).
Proof.
  unfold Solver_isSatisfiable. pose proof (emits_get_lgl no_release).
  frame; done.
Qed.

Lemma emits_query : emits no_release (Solver_query luaO_str2num E).
Proof.
  unfold Solver_query.
  pose proof (emits_get_lgl no_release). pose proof (emits_lua_tointeger no_release).
  frame; done.
Qed.

Lemma releases_app lgl l1 l2 :
  releases lgl (l1 ++ l2) = (releases lgl l1 + releases lgl l2)%nat.
Proof. unfold releases. by rewrite filter_app, length_app. Qed.

Lemma releases_no_release lgl l : Forall no_release l → releases lgl l = 0%nat.
Proof.
  unfold releases. induction 1 as [| c l Hc _ IH]; [done |].
  rewrite filter_cons_False; [done |]. intros ->. discriminate.
Qed.

Lemma run_op_other cls r op st :
  is_OpGc op = false →
  udata (run_op luaO_str2num E cls r op st) = udata st
  ∧ ∃ l, engine (run_op luaO_str2num E cls r op st) = engine st ++ l
         ∧ Forall no_release l.
Proof.
  intros Hop. destruct op; try discriminate; unfold run_op, call_closure.
  - apply (emits_addDIMACSSeqence
             (set_upvalue1 (LTable cls) (set_stack (LUserdata r :: args) st))).
  - apply (emits_isSatisfiable
             (set_upvalue1 (LTable cls) (set_stack [LUserdata r] st))).
  - apply (emits_query
             (set_upvalue1 (LTable cls) (set_stack (LUserdata r :: args) st))).
Qed.

Lemma Solver_gc_session st r u args :
  stack st = LUserdata r :: args →
  udata st !! r = Some u →
  Solver_gc st = (Ret 0, log_call (Lglrelease (u_block u)) st).
Proof.
  intros Hstk Hu. unfold Solver_gc.
  rewrite (bind_Ret _ _ _ (Block r) st)
    by (unfold lua_touserdata; by rewrite (value_at_1 _ _ _ Hstk)).
  simpl. rewrite (bind_Ret _ _ _ tt (log_call (Lglrelease (u_block u)) st)); [done |].
  rewrite (bind_Ret _ _ _ (u_block u) st); [done |].
  unfold load_LGL. by rewrite Hu.
Qed.

Lemma run_op_gc cls r lgl st :
  is_session st cls r lgl →
  run_op luaO_str2num E cls r OpGc st =
    log_call (Lglrelease lgl) (set_upvalue1 LNil (set_stack [LUserdata r] st)).
Proof.
  intros Hses. unfold run_op, call_closure.
  by rewrite (Solver_gc_session _ r (mkUdata lgl (Some cls)) []).
Qed.

Lemma run_ops_cons cls r op ops st :
  run_ops luaO_str2num E cls r (op :: ops) st =
  run_ops luaO_str2num E cls r ops (run_op luaO_str2num E cls r op st).
Proof. reflexivity. Qed.

End SessionProofs.

(** ** [Solver_new] *)

Section New.
Context (E : Lingeling).

(** [Solver.new ()] makes a session: a new userdata whose metatable is the
    class table and whose block holds the handle that [lglinit] returned. *)
Lemma Solver_new_session st cls :
  stack st = [] →
  upvalue1 st = LTable cls →
  ∃ r st',
    Solver_new E st = (Ret 1, st')
    ∧ stack st' = [LUserdata r]
    ∧ udata st !! r = None
    ∧ is_session st' cls r (lglinit_ret E (engine st))
    ∧ engine st' = engine st ++ [Lglinit].
Proof.
  intros Hstk Hup. unfold Solver_new.
  set (r := fresh (dom (udata st))).
  assert (Hfresh : udata st !! r = None) by apply not_elem_of_dom, is_fresh.
  set (st1 := push (LUserdata r) (set_udata (<[r := mkUdata 0 None]> (udata st)) st)).
  rewrite (bind_Ret _ _ _ (Block r) st1) by done.
  rewrite (bind_Ret _ _ _ tt (push (LTable cls) st1)).
  2:{ unfold lua_pushvalue, value_at. rewrite index2value_upvalue. simpl. by rewrite Hup. }
  set (st2 := set_udata (<[r := mkUdata 0 (Some cls)]> (udata st1)) st1).
  rewrite (bind_Ret _ _ _ 1 st2).
  2:{ unfold lua_setmetatable. rewrite last_push.
      rewrite value_at_push by (unfold st1; simpl; rewrite Hstk; simpl; lia).
      assert (H1 : value_at 1 st1 = LUserdata r).
      { unfold st1, value_at. rewrite index2value_pos by lia. simpl. by rewrite Hstk. }
      rewrite H1. change (udata (push (LTable cls) st1)) with (udata st1).
      assert (Hu : udata st1 !! r = Some (mkUdata 0 None)).
      { unfold st1. simpl. by rewrite lookup_insert_eq. }
      rewrite Hu. rewrite unpush. done. }
  rewrite (bind_Ret _ _ _ (lglinit_ret E (engine st)) (log_call Lglinit st2)) by done.
  set (h := lglinit_ret E (engine st)).
  set (st3 := set_udata (<[r := mkUdata h (Some cls)]> (udata st2)) (log_call Lglinit st2)).
  rewrite (bind_Ret _ _ _ tt st3).
  2:{ unfold store_LGL. change (udata (log_call Lglinit st2)) with (udata st2).
      assert (Hu : udata st2 !! r = Some (mkUdata 0 (Some cls))).
      { unfold st2. simpl. by rewrite lookup_insert_eq. }
      by rewrite Hu. }
  exists r, st3. split; [done |].
  split. { unfold st3, st2, st1. simpl. by rewrite Hstk. }
  split; [done |].
  split. { unfold is_session, st3. simpl. by rewrite lookup_insert_eq. }
  done.
Qed.

End New.

(** Called as a method, [Solver:new ()], the class table is at index 1: it
    becomes its own metatable and the new userdata has none. *)
Example Solver_new_as_method :
  let st := (Solver_new demo_engine (enter (LTable 1) [LTable 1] demo_init)).2 in
  stack st = [LTable 1; LUserdata 1]
  ∧ udata st !! 1%positive = Some (mkUdata 100 None)
  ∧ (tables st !! 1%positive ≫= t_meta) = Some 1%positive.
Proof. repeat split; vm_compute; reflexivity. Qed.

(** ** Literal streams *)

Section StreamProofs.
Context (luaO_str2num : string → option (Z + lua_Number)).
Context (E : Lingeling).

Lemma int_of_lua_Integer_fits c : fits_int c → int_of_lua_Integer c = c.
Proof.
  unfold fits_int, INT_MIN, INT_MAX, int_of_lua_Integer. intros H.
  rewrite Z.mod_small by lia. lia.
Qed.

Lemma adds_fits lgl cs : Forall fits_int cs → adds lgl cs = Lgladd lgl <$> cs.
Proof.
  unfold adds. induction 1 as [| c cs Hc _ IH]; [done |]. csimpl.
  by rewrite IH, int_of_lua_Integer_fits.
Qed.

Lemma map_int_of_fits cs : Forall fits_int cs → int_of_lua_Integer <$> cs = cs.
Proof.
  induction 1 as [| c cs Hc _ IH]; [done |]. csimpl.
  by rewrite IH, int_of_lua_Integer_fits.
Qed.

Lemma all_integers_LInteger cs : all_integers luaO_str2num (LInteger <$> cs) = true.
Proof.
  induction cs as [| c cs IH]; [done |]. exact IH.
Qed.

Lemma integer_prefix_LInteger cs : integer_prefix luaO_str2num (LInteger <$> cs) = cs.
Proof. induction cs as [| c cs IH]; [done |]. csimpl. by rewrite IH. Qed.

Lemma all_integers_false vs v :
  v ∈ vs → tointeger luaO_str2num v = None → all_integers luaO_str2num vs = false.
Proof.
  intros Hin Hv. induction Hin as [v vs | v w vs Hin IH]; simpl.
  - rewrite Hv. rewrite bool_decide_eq_false_2; [done |]. by intros [? ?].
  - rewrite IH by done. apply andb_false_r.
Qed.

Lemma integer_prefix_malformed pre bad rest :
  all_integers luaO_str2num pre = true → tointeger luaO_str2num bad = None →
  integer_prefix luaO_str2num (pre ++ bad :: rest) = integer_prefix luaO_str2num pre.
Proof.
  intros Hpre Hbad. rewrite integer_prefix_app, Hpre. simpl.
  rewrite Hbad. by rewrite app_nil_r.
Qed.

Lemma all_nonzero_LInteger cs :
  Forall (λ c, c ≠ 0) cs → all_nonzero luaO_str2num (LInteger <$> cs) = true.
Proof.
  induction 1 as [| c cs Hc _ IH]; [done |]. csimpl.
  rewrite IH. unfold tointeger0. simpl.
  by rewrite (proj2 (Z.eqb_neq _ _) Hc).
Qed.

Lemma nonzero_prefix_LInteger cs :
  Forall (λ c, c ≠ 0) cs → nonzero_prefix luaO_str2num (LInteger <$> cs) = cs.
Proof.
  induction 1 as [| c cs Hc _ IH]; [done |]. csimpl.
  rewrite IH. unfold tointeger0. simpl.
  by rewrite (proj2 (Z.eqb_neq _ _) Hc).
Qed.

Lemma all_nonzero_false vs v :
  v ∈ vs → tointeger0 luaO_str2num v = 0 → all_nonzero luaO_str2num vs = false.
Proof.
  intros Hin Hv. induction Hin as [v vs | v w vs Hin IH]; simpl.
  - by rewrite Hv.
  - rewrite IH by done. apply andb_false_r.
Qed.

Lemma arg_items_passes tbl v a :
  passes tbl v a → arg_items tbl v = LInteger <$> dimacs_literals a.
Proof.
  destruct a as [c | cs]; simpl.
  - by intros ->.
  - intros (r & t & -> & Ht & Hseq). simpl. rewrite Ht. simpl.
    by rewrite Hseq, table_seq_seq_table.
Qed.

Lemma flat_map_passes tbl args dargs :
  Forall2 (passes tbl) args dargs →
  flat_map (arg_items tbl) args = LInteger <$> flat_map dimacs_literals dargs.
Proof.
  induction 1 as [| v a args dargs Hva _ IH]; [done |]. csimpl.
  by rewrite fmap_app, IH, (arg_items_passes _ _ _ Hva).
Qed.

Lemma passes_live tbl args dargs :
  Forall2 (passes tbl) args dargs →
  ∀ r, LTable r ∈ args → is_Some (tbl !! r).
Proof.
  induction 1 as [| v a args dargs Hva _ IH]; intros r Hr.
  { by apply elem_of_nil in Hr. }
  apply elem_of_cons in Hr as [<- | Hr]; [| by apply IH].
  destruct a as [c | cs]; simpl in Hva; [discriminate |].
  destruct Hva as (r' & t & [= ->] & Ht & _). eauto.
Qed.

Lemma mutations_derefs log lgl cs : mutations (log ++ derefs lgl cs) = mutations log.
Proof.
  unfold mutations. rewrite filter_app.
  replace (filter _ (derefs lgl cs)) with (@nil lgl_call); [by rewrite app_nil_r |].
  induction cs as [| c cs IH]; [done |]. csimpl.
  by rewrite filter_cons_False by (simpl; congruence).
Qed.

Lemma deref_all_read lgl cs : ∀ log log',
  deref_is_read E →
  mutations log = mutations log' →
  deref_all E log lgl cs = deref_all E log' lgl cs.
Proof.
  induction cs as [| c cs IH]; intros log log' Hread Hm; [done |]. csimpl.
  f_equal; [by apply Hread |].
  apply IH; [done |].
  pose proof (mutations_derefs log lgl [c]) as H1.
  pose proof (mutations_derefs log' lgl [c]) as H2.
  change (derefs lgl [c]) with [Lglderef lgl c] in H1, H2. congruence.
Qed.

Lemma length_deref_all lgl cs : ∀ log, length (deref_all E log lgl cs) = length cs.
Proof. induction cs as [| c cs IH]; intros log; simpl; [done |]. by rewrite IH. Qed.

(** Integer arguments: every literal reaches the engine, converted to
    [int]. *)
Lemma addDIMACSequence_integers_run st cls r lgl args dargs :
  stack st = LUserdata r :: args →
  upvalue1 st = LTable cls →
  is_session st cls r lgl →
  Forall2 (passes (tables st)) args dargs →
  Solver_addDIMACSSeqence luaO_str2num st =
    (Ret 0, set_engine (engine st ++ adds lgl (flat_map dimacs_literals dargs)) st).
Proof.
  intros Hstk Hup Hses Hargs.
  pose proof (addDIMACSequence_run luaO_str2num st cls r lgl args Hstk Hup Hses
                (passes_live _ _ _ Hargs)) as Hrun.
  cbv zeta in Hrun. rewrite (flat_map_passes _ _ _ Hargs) in Hrun.
  by rewrite all_integers_LInteger, integer_prefix_LInteger in Hrun.
Qed.

Lemma converted_prefix pre cs :
  Forall2 (λ v c, tointeger luaO_str2num v = Some c) pre cs →
  all_integers luaO_str2num pre = true ∧ integer_prefix luaO_str2num pre = cs.
Proof.
  induction 1 as [| v c pre cs Hv _ [IH1 IH2]]; [done |]. simpl.
  rewrite Hv, IH1, IH2. by rewrite bool_decide_eq_true_2 by eauto.
Qed.

End StreamProofs.

(** The tables of a call whose table arguments are proper sequences
    exist. *)
Lemma sequence_arguments_live tbl args :
  sequence_arguments tbl args → ∀ r', LTable r' ∈ args → is_Some (tbl !! r').
Proof. intros H r' Hr'. destruct (H r' Hr') as (t & -> & _). eauto. Qed.

(** The table found at a reference is the proper sequence of the list [l]. *)
Ltac sequence_of l :=
  eexists; split; [vm_compute; reflexivity |];
  split; [reflexivity |]; exists l; split; [vm_compute; reflexivity |];
  let H := fresh in
  intros H;
  repeat (apply elem_of_cons in H as [H | H]; [discriminate |]);
  by apply elem_of_nil in H.

(** * The claims of the specification *)

(** ** C1: the verdict of [isSatisfiable] *)

(** Claim C1.  On every session, whatever clauses were added before,
    [isSatisfiable] makes exactly one call of the engine's solve and returns
    one boolean, which is true if and only if the engine answered
    [LGL_SATISFIABLE]; for every other answer (unsatisfiable, unknown, any
    other code) it is false. *)
Theorem isSatisfiable_iff_engine_satisfiable (E : Lingeling) st cls r lgl args :
  stack st = LUserdata r :: args →
  upvalue1 st = LTable cls →
  is_session st cls r lgl →
  ∃ b : bool,
    Solver_isSatisfiable E st =
      (Ret 1, push (LBoolean b) (log_call (Lglsat lgl) st))
    ∧ (b = true ↔ lglsat_ret E (engine st) lgl = LGL_SATISFIABLE).
Proof.
  intros Hstk Hup Hses. unfold Solver_isSatisfiable.
  rewrite (bind_Ret _ _ _ _ _ (get_lgl_session _ _ _ _ _ Hstk Hup Hses)).
  rewrite (bind_Ret _ _ _ (lglsat_ret E (engine st) lgl) (log_call (Lglsat lgl) st)) by done.
  destruct (lglsat_ret E (engine st) lgl =? LGL_SATISFIABLE) eqn:Hres.
  - exists true. split; [done |]. apply Z.eqb_eq in Hres. done.
  - exists false. split; [done |]. apply Z.eqb_neq in Hres. done.
Qed.

Lemma isSatisfiable_witness :
  ∃ b : bool,
    Solver_isSatisfiable demo_engine frame_self_only =
      (Ret 1, push (LBoolean b) (log_call (Lglsat 100) frame_self_only))
    ∧ (b = true ↔
       lglsat_ret demo_engine (engine frame_self_only) 100 = LGL_SATISFIABLE).
Proof.
  apply (isSatisfiable_iff_engine_satisfiable demo_engine frame_self_only 1 1 100 []).
  - reflexivity.
  - reflexivity.
  - vm_compute. reflexivity.
Defined.

(** ** C2: a malformed element in [addDIMACSequence] *)

(** Claim C2 as stated fails.  In [s:addDIMACSequence {1, "x"}] the element
    ["x"] is not an integer; the call raises the error, but the literal 1
    that precedes it has reached the engine. *)
Lemma addDIMACSequence_forwards_before_error :
  flat_map (arg_items (tables frame_malformed)) [LTable 6] = [LInteger 1; LString "x"]
  ∧ tointeger decimal_str2num (LString "x") = None
  ∧ Solver_addDIMACSSeqence decimal_str2num frame_malformed =
      (Raise (LString "Illegal argument in DIMACS sequence"),
       push (LString "Illegal argument in DIMACS sequence")
         (push (LString "x") (log_call (Lgladd 100 1) frame_malformed)))
  ∧ ¬ rejects_whole_call decimal_str2num frame_malformed.
Proof.
  assert (Hrun : Solver_addDIMACSSeqence decimal_str2num frame_malformed =
      (Raise (LString "Illegal argument in DIMACS sequence"),
       push (LString "Illegal argument in DIMACS sequence")
         (push (LString "x") (log_call (Lgladd 100 1) frame_malformed))))
    by (vm_compute; reflexivity).
  split; [vm_compute; reflexivity |].
  split; [vm_compute; reflexivity |].
  split; [exact Hrun |].
  intros (st' & Hst' & Heng). rewrite Hrun in Hst'.
  injection Hst' as <-. vm_compute in Heng. discriminate.
Qed.

(** Claim C2, amended.  Take a call of [addDIMACSequence] on a session
    whose table arguments are proper sequences: tables without a metatable
    that hold the keys [1 .. n] and no [nil].  When the elements of the
    arguments, in argument order then collection order, are
    [pre ++ bad :: rest], where the elements of [pre] are the integers [cs]
    and [bad] is not an integer, the call raises "Illegal argument in DIMACS
    sequence"; the engine has received the literals of [pre], in order, and
    nothing of [bad] or of what follows it.  Tables and userdata are as
    before. *)
Theorem addDIMACSequence_stops_at_malformed
    (luaO_str2num : string → option (Z + lua_Number))
    st cls r lgl args pre cs bad rest :
  stack st = LUserdata r :: args →
  upvalue1 st = LTable cls →
  is_session st cls r lgl →
  sequence_arguments (tables st) args →
  flat_map (arg_items (tables st)) args = pre ++ bad :: rest →
  Forall2 (λ v c, tointeger luaO_str2num v = Some c) pre cs →
  tointeger luaO_str2num bad = None →
  ∃ st', Solver_addDIMACSSeqence luaO_str2num st =
           (Raise (LString "Illegal argument in DIMACS sequence"), st')
         ∧ engine st' = engine st ++ adds lgl cs
         ∧ tables st' = tables st ∧ udata st' = udata st.
Proof.
  intros Hstk Hup Hses Hseq Hitems Hpre Hbad.
  destruct (converted_prefix luaO_str2num _ _ Hpre) as [Hall Hcs].
  pose proof (addDIMACSequence_run luaO_str2num st cls r lgl args Hstk Hup Hses
                (sequence_arguments_live _ _ Hseq)) as Hrun.
  cbv zeta in Hrun. rewrite Hitems in Hrun.
  rewrite (all_integers_false luaO_str2num _ bad) in Hrun;
    [| set_solver | done].
  by rewrite (integer_prefix_malformed luaO_str2num _ _ _ Hall Hbad), Hcs in Hrun.
Qed.

Lemma addDIMACSequence_stops_witness :
  ∃ st', Solver_addDIMACSSeqence decimal_str2num frame_malformed =
           (Raise (LString "Illegal argument in DIMACS sequence"), st')
         ∧ engine st' = engine frame_malformed ++ adds 100 [1]
         ∧ tables st' = tables frame_malformed
         ∧ udata st' = udata frame_malformed.
Proof.
  apply (addDIMACSequence_stops_at_malformed decimal_str2num frame_malformed
           1 1 100 [LTable 6] [LInteger 1] [1] (LString "x") []).
  - reflexivity.
  - reflexivity.
  - vm_compute. reflexivity.
  - intros r' Hr'. apply list_elem_of_singleton in Hr'. injection Hr' as ->.
    sequence_of [LInteger 1; LString "x"].
  - vm_compute. reflexivity.
  - repeat constructor.
  - vm_compute. reflexivity.
Defined.

(** The same with a direct argument: [s:addDIMACSequence ({1, -2, 3}, "x", 7)]
    forwards 1, -2 and 3 and then raises the error. *)
Example addDIMACSequence_stops_at_argument :
  ∃ st', Solver_addDIMACSSeqence decimal_str2num
           (enter (LTable 1) [LUserdata 1; LTable 5; LString "x"; LInteger 7]
              demo_with_table) =
           (Raise (LString "Illegal argument in DIMACS sequence"), st')
         ∧ engine st' = engine demo_with_table ++ adds 100 [1; -2; 3].
Proof. eexists. split; vm_compute; reflexivity. Qed.

(** ** C3: what [addDIMACSequence] forwards *)

(** Claim C3 as stated fails.  The engine takes literals as C [int], so in
    [s:addDIMACSequence (1, 4294967296)] the second argument, an integer
    that is not zero, reaches the engine as the clause terminator 0. *)
Lemma addDIMACSequence_narrows_wide_literal :
  Forall2 (passes (tables frame_add_wide)) [LInteger 1; LInteger 4294967296]
    [Literal 1; Literal 4294967296]
  ∧ Solver_addDIMACSSeqence decimal_str2num frame_add_wide =
      (Ret 0, set_engine (engine frame_add_wide ++ [Lgladd 100 1; Lgladd 100 0])
                frame_add_wide)
  ∧ ¬ forwards_exactly decimal_str2num frame_add_wide 100 [1; 4294967296].
Proof.
  assert (Hrun : Solver_addDIMACSSeqence decimal_str2num frame_add_wide =
      (Ret 0, set_engine (engine frame_add_wide ++ [Lgladd 100 1; Lgladd 100 0])
                frame_add_wide))
    by (vm_compute; reflexivity).
  split; [repeat constructor |].
  split; [exact Hrun |].
  unfold forwards_exactly. rewrite Hrun. intros Heq.
  injection Heq as Heq. vm_compute in Heq. discriminate.
Qed.

(** Claim C3, amended.  When every argument of a call of [addDIMACSequence]
    on a session is a single integer or an ordered collection of integers,
    and these integers fit a C [int], the call returns and the engine has
    received exactly these literals, concatenated in argument order then
    collection order: nothing is reordered, dropped or added, and no
    terminator 0 is made up.  Nothing else in the state changes. *)
Theorem addDIMACSequence_forwards_int_literals
    (luaO_str2num : string → option (Z + lua_Number))
    st cls r lgl args dargs :
  stack st = LUserdata r :: args →
  upvalue1 st = LTable cls →
  is_session st cls r lgl →
  Forall2 (passes (tables st)) args dargs →
  Forall fits_int (flat_map dimacs_literals dargs) →
  forwards_exactly luaO_str2num st lgl (flat_map dimacs_literals dargs).
Proof.
  intros Hstk Hup Hses Hargs Hfit. unfold forwards_exactly.
  rewrite (addDIMACSequence_integers_run luaO_str2num st cls r lgl args dargs)
    by done.
  by rewrite adds_fits.
Qed.

Lemma addDIMACSequence_forwards_witness :
  forwards_exactly decimal_str2num frame_add 100 [1; -2; 3; 0; -3].
Proof.
  apply (addDIMACSequence_forwards_int_literals decimal_str2num frame_add
           1 1 100 [LTable 5; LInteger 0; LInteger (-3)]
           [Literals [1; -2; 3]; Literal 0; Literal (-3)]).
  - reflexivity.
  - reflexivity.
  - vm_compute. reflexivity.
  - repeat constructor.
    exists 5%positive, (mkTable (seq_table [LInteger 1; LInteger (-2); LInteger 3]) None None).
    split; [reflexivity |]. split; [vm_compute; reflexivity | reflexivity].
  - repeat constructor; vm_compute; discriminate.
Defined.

(** ** C4: what [query] returns *)

(** Claim C4 as stated fails.  In [s:query {4294967296}] the entry is an
    integer that is not zero, so the binding accepts it; the engine is then
    asked for the literal 0, not for the entry. *)
Lemma query_narrows_wide_literal :
  tables frame_query_wide !! 7%positive =
    Some (mkTable (seq_table (LInteger <$> [4294967296])) None None)
  ∧ Forall (λ c, c ≠ 0) [4294967296]
  ∧ engine (Solver_query decimal_str2num demo_engine frame_query_wide).2 =
      engine frame_query_wide ++ [Lglderef 100 0]
  ∧ ¬ answers_each_literal decimal_str2num demo_engine frame_query_wide 100 [4294967296].
Proof.
  assert (Heng : engine (Solver_query decimal_str2num demo_engine frame_query_wide).2 =
                 engine frame_query_wide ++ [Lglderef 100 0])
    by (vm_compute; reflexivity).
  split; [vm_compute; reflexivity |].
  split; [repeat constructor; discriminate |].
  split; [exact Heng |].
  unfold answers_each_literal. intros Hrun. rewrite Hrun in Heng.
  vm_compute in Heng. discriminate.
Qed.

(** Claim C4, amended.  For a call of [query] on a session with an ordered
    collection [cs] of integers: if no entry is zero and every entry fits a
    C [int], the call returns a new table of the same length whose j-th
    entry is the answer of the engine's deref for the j-th entry of [cs],
    the engine being asked in the order of [cs]; if some entry is zero, the
    call raises "Array may contain only non-zero integers". *)
Theorem query_answers_int_literals
    (luaO_str2num : string → option (Z + lua_Number)) (E : Lingeling)
    st cls r lgl rt t cs :
  stack st = [LUserdata r; LTable rt] →
  upvalue1 st = LTable cls →
  is_session st cls r lgl →
  tables st !! rt = Some t →
  t_int t = seq_table (LInteger <$> cs) →
  (Forall (λ c, c ≠ 0) cs → Forall fits_int cs →
     answers_each_literal luaO_str2num E st lgl cs
     ∧ length (deref_all E (engine st) lgl cs) = length cs)
  ∧ (0 ∈ cs →
     ∃ st', Solver_query luaO_str2num E st =
              (Raise (LString "Array may contain only non-zero integers"), st')).
Proof.
  intros Hstk Hup Hses Ht Hseq.
  pose proof (query_run luaO_str2num E st cls r lgl rt t Hstk Hup Hses Ht) as Hrun.
  cbv zeta in Hrun. rewrite Hseq, table_seq_seq_table in Hrun.
  split.
  - intros Hnz Hfit. split; [| apply length_deref_all].
    rewrite all_nonzero_LInteger, nonzero_prefix_LInteger in Hrun by done.
    rewrite map_int_of_fits in Hrun by done.
    unfold answers_each_literal. rewrite Hrun. unfold push. by rewrite Hstk.
  - intros Hz.
    rewrite (all_nonzero_false luaO_str2num _ (LInteger 0)) in Hrun;
      [| by apply list_elem_of_fmap_2 | done].
    destruct Hrun as (st' & Hrun & _). eauto.
Qed.

Lemma query_answers_witness :
  (Forall (λ c, c ≠ 0) [1; -2; 3] → Forall fits_int [1; -2; 3] →
     answers_each_literal decimal_str2num demo_engine frame_query 100 [1; -2; 3]
     ∧ length (deref_all demo_engine (engine frame_query) 100 [1; -2; 3])
       = length [1; -2; 3])
  ∧ (0 ∈ [1; -2; 3] →
     ∃ st', Solver_query decimal_str2num demo_engine frame_query =
              (Raise (LString "Array may contain only non-zero integers"), st')).
Proof.
  apply (query_answers_int_literals decimal_str2num demo_engine frame_query 1 1 100 5
           (mkTable (seq_table [LInteger 1; LInteger (-2); LInteger 3]) None None) [1; -2; 3]).
  - reflexivity.
  - reflexivity.
  - vm_compute. reflexivity.
  - vm_compute. reflexivity.
  - reflexivity.
Defined.

(** [s:query {1, 0}] *)
Example query_zero_entry :
  ∃ st', Solver_query decimal_str2num demo_engine
           (enter (LTable 1) [LUserdata 1; LTable 8]
              (set_tables (<[8%positive := mkTable (seq_table [LInteger 1; LInteger 0]) None None]>
                             (tables demo_session)) demo_session)) =
           (Raise (LString "Array may contain only non-zero integers"), st').
Proof. eexists. vm_compute. reflexivity. Qed.

(** ** C5: the validation of the self argument *)

(** Claim C5 as stated fails.  [get_lgl] compares the metatable of the self
    argument with the class by [lua_compare], the equality [==] of Lua,
    which asks an [__eq] handler when the two tables are not the same.
    After [setmetatable (Solver, {__eq = function () return true end})] a
    userdata of another library, whose metatable is not the class, passes
    the validation: [Solver.isSatisfiable (u)] returns, and the engine has
    been called with what the block of [u] holds. *)
Lemma equal_metatable_passes_validation :
  metatable_of frame_foreign_self (value_at 1 frame_foreign_self) = Some 4%positive
  ∧ upvalue1 frame_foreign_self = LTable 1
  ∧ fails_validation frame_foreign_self
  ∧ Solver_isSatisfiable demo_engine frame_foreign_self =
      (Ret 1, push (LBoolean true) (log_call (Lglsat 4242) frame_foreign_self))
  ∧ ¬ rejects_self (Solver_isSatisfiable demo_engine) frame_foreign_self.
Proof.
  assert (Hrun : Solver_isSatisfiable demo_engine frame_foreign_self =
      (Ret 1, push (LBoolean true) (log_call (Lglsat 4242) frame_foreign_self)))
    by (vm_compute; reflexivity).
  split; [vm_compute; reflexivity |].
  split; [reflexivity |].
  split. { apply (other_metatable _ 4); [vm_compute; reflexivity | discriminate]. }
  split; [exact Hrun |].
  intros (st' & Hst' & _). rewrite Hrun in Hst'. discriminate.
Qed.

(** Claim C5, amended.  When no [__eq] handler takes part in the
    comparison (neither the class nor the metatable of the self argument
    has a metatable with a field [__eq]), each of [addDIMACSequence],
    [isSatisfiable] and [query], called with a self argument that has no
    metatable, or whose metatable is not the Solver class, or that is not a
    userdata, raises "Invalid self argument", and has made no call into the
    engine. *)
Theorem invalid_self_rejected
    (luaO_str2num : string → option (Z + lua_Number)) (E : Lingeling)
    field f st :
  field ∈ ["addDIMACSequence"; "isSatisfiable"; "query"] →
  luaopen_grazil_bindings_lingeling_Solver luaO_str2num E field = Some f →
  fails_validation st →
  no_eq_handler st →
  rejects_self f st.
Proof.
  intros Hfield Hf Hinv Hplain.
  destruct (get_lgl_invalid st Hinv Hplain) as (st' & Hget & Heng).
  exists st'. split; [| done].
  unfold luaopen_grazil_bindings_lingeling_Solver in Hf.
  repeat (apply elem_of_cons in Hfield as [-> | Hfield]);
    [| | | by apply elem_of_nil in Hfield].
  - rewrite bool_decide_eq_false_2, bool_decide_eq_true_2 in Hf by done.
    injection Hf as <-. apply bind_Raise, Hget.
  - rewrite !bool_decide_eq_false_2, bool_decide_eq_true_2 in Hf by done.
    injection Hf as <-. apply bind_Raise, Hget.
  - rewrite !bool_decide_eq_false_2, bool_decide_eq_true_2 in Hf by done.
    injection Hf as <-. apply bind_Raise, Hget.
Qed.

Lemma invalid_self_witness :
  rejects_self (Solver_query decimal_str2num demo_engine) frame_string_self.
Proof.
  apply (invalid_self_rejected decimal_str2num demo_engine "query").
  - repeat constructor.
  - reflexivity.
  - apply (other_metatable _ 2); [vm_compute; reflexivity | discriminate].
  - split; [vm_compute; reflexivity |].
    intros m Hm. vm_compute in Hm. injection Hm as <-. vm_compute. reflexivity.
Defined.

(** A handler that says "not equal" changes nothing: with
    [__eq = function () return false end] on the metatable of the class,
    the same call is rejected. *)
Example unequal_by_handler_rejected :
  rejects_self (Solver_isSatisfiable demo_engine)
    (enter (LTable 1) [LUserdata 2]
       (set_tables (<[3%positive := mkTable ∅ None (Some (λ _ _, Some false))]>
                      (tables demo_with_eq)) demo_with_eq)).
Proof. eexists. split; vm_compute; reflexivity. Qed.

(** A table with the class as its metatable passes the first two tests and
    fails the third; with no argument at all the first test fails. *)
Example invalid_self_table_and_none :
  (Solver_isSatisfiable demo_engine
     (enter (LTable 1) [LTable 9]
        (set_tables (<[9%positive := mkTable ∅ (Some 1%positive) None]> (tables demo_session))
           demo_session))).1 = Raise (LString "Invalid self argument")
  ∧ (Solver_isSatisfiable demo_engine (enter (LTable 1) [] demo_session)).1
    = Raise (LString "Invalid self argument").
Proof. split; vm_compute; reflexivity. Qed.

(** ** C6: disposal *)

(** Claim C6 as stated fails.  [Solver_gc] has no guard: run twice on the
    same session, it releases the handle twice. *)
Lemma second_gc_releases_again :
  is_session demo_session 1 1 100
  ∧ releases 100 (engine (run_ops decimal_str2num demo_engine 1 1 [OpGc] demo_session))
    = 1%nat
  ∧ releases 100 (engine (run_ops decimal_str2num demo_engine 1 1 [OpGc; OpGc] demo_session))
    = 2%nat
  ∧ ¬ second_disposal_guarded decimal_str2num demo_engine 1 1 100 [] [] demo_session.
Proof.
  split; [vm_compute; reflexivity |].
  split; [vm_compute; reflexivity |].
  split; [vm_compute; reflexivity |].
  unfold second_disposal_guarded. vm_compute. discriminate.
Qed.

(** Claim C6, amended.  Every disposal step releases the engine handle of
    the session once, and no other operation releases it: over any sequence
    of operations on a session the handle is released as many times as the
    sequence has disposal steps.  It is released exactly once when there is
    exactly one disposal step. *)
Theorem releases_once_per_disposal
    (luaO_str2num : string → option (Z + lua_Number)) (E : Lingeling)
    cls r lgl ops st :
  is_session st cls r lgl →
  releases lgl (engine (run_ops luaO_str2num E cls r ops st)) =
    (releases lgl (engine st) + length (filter (λ op, is_OpGc op = true) ops))%nat.
Proof.
  revert st. induction ops as [| op ops IH]; intros st Hses.
  { simpl. lia. }
  rewrite run_ops_cons.
  destruct (is_OpGc op) eqn:Hop.
  - destruct op; try discriminate.
    rewrite filter_cons_True by done.
    rewrite (run_op_gc _ _ _ _ _ _ Hses).
    rewrite IH by exact Hses. simpl. rewrite releases_app.
    unfold releases at 2. rewrite filter_cons_True by done. simpl. lia.
  - rewrite filter_cons_False by (by rewrite Hop).
    destruct (run_op_other luaO_str2num E cls r op st Hop) as (Hud & l & Heng & Hl).
    rewrite IH by (unfold is_session; by rewrite Hud).
    rewrite Heng, releases_app, (releases_no_release _ _ Hl). lia.
Qed.

Lemma releases_witness :
  releases 100
    (engine (run_ops decimal_str2num demo_engine 1 1
               [OpAddDIMACSequence [LInteger 1; LInteger 0]; OpIsSatisfiable; OpGc]
               demo_session)) =
  (releases 100 (engine demo_session)
   + length (filter (λ op, is_OpGc op = true)
               [OpAddDIMACSequence [LInteger 1; LInteger 0]; OpIsSatisfiable; OpGc]))%nat.
Proof.
  apply (releases_once_per_disposal decimal_str2num demo_engine 1 1 100).
  vm_compute. reflexivity.
Defined.

(** ** C7: [query] asked twice *)

Lemma demo_engine_reads : deref_is_read demo_engine.
Proof. intros log log' lgl lit _. reflexivity. Defined.

(** Claim C7.  In every state of a session, so also after a solve, and for
    every ordered collection [cs] of integers that are not zero, two calls
    of [query] in a row with that collection both return, and the two
    tables they return (two distinct tables, as long as [cs]) hold the same
    answers in the same order.  Querying leaves the session as it was: no
    clause is added and no solve is run (the only calls into the engine are
    derefs), the userdata and the table passed are unchanged.  The engine is
    one whose deref is a read ([deref_is_read]). *)
Theorem query_twice_same_results
    (luaO_str2num : string → option (Z + lua_Number)) (E : Lingeling)
    st cls r lgl rt t cs :
  stack st = [LUserdata r; LTable rt] →
  upvalue1 st = LTable cls →
  is_session st cls r lgl →
  tables st !! rt = Some t →
  t_int t = seq_table (LInteger <$> cs) →
  Forall (λ c, c ≠ 0) cs →
  deref_is_read E →
  ∃ st1 st2 r1 r2 answers,
    Solver_query luaO_str2num E st = (Ret 1, st1)
    ∧ Solver_query luaO_str2num E (set_stack [LUserdata r; LTable rt] st1) = (Ret 1, st2)
    ∧ last (stack st1) = Some (LTable r1)
    ∧ last (stack st2) = Some (LTable r2)
    ∧ r1 ≠ r2
    ∧ length answers = length cs
    ∧ tables st2 !! r1 = Some (mkTable (seq_table (LInteger <$> answers)) None None)
    ∧ tables st2 !! r2 = Some (mkTable (seq_table (LInteger <$> answers)) None None)
    ∧ mutations (engine st1) = mutations (engine st)
    ∧ mutations (engine st2) = mutations (engine st)
    ∧ udata st2 = udata st
    ∧ tables st2 !! rt = Some t.
Proof.
  intros Hstk Hup Hses Ht Hseq Hnz Hread.
  pose proof (query_run luaO_str2num E st cls r lgl rt t Hstk Hup Hses Ht) as Hrun1.
  cbv zeta in Hrun1. rewrite Hseq, table_seq_seq_table in Hrun1.
  rewrite all_nonzero_LInteger, nonzero_prefix_LInteger in Hrun1 by done.
  set (lits := int_of_lua_Integer <$> cs) in *.
  set (r1 := fresh (dom (tables st))) in *.
  set (answers := deref_all E (engine st) lgl lits) in *.
  set (st1 := set_tables _ _) in Hrun1.
  assert (Hfresh1 : tables st !! r1 = None) by apply not_elem_of_dom, is_fresh.
  assert (Ht1 : tables st1 !! rt = Some t).
  { unfold st1. simpl. rewrite lookup_insert_ne; [done | congruence]. }
  pose proof (query_run luaO_str2num E (set_stack [LUserdata r; LTable rt] st1)
                cls r lgl rt t eq_refl Hup Hses Ht1) as Hrun2.
  cbv zeta in Hrun2. rewrite Hseq, table_seq_seq_table in Hrun2.
  rewrite all_nonzero_LInteger, nonzero_prefix_LInteger in Hrun2 by done.
  fold lits in Hrun2.
  change (tables (set_stack _ st1)) with (tables st1) in Hrun2.
  change (engine (set_stack _ st1)) with (engine st ++ derefs lgl lits) in Hrun2.
  set (r2 := fresh (dom (tables st1))) in *.
  assert (Hfresh2 : tables st1 !! r2 = None) by apply not_elem_of_dom, is_fresh.
  assert (Hsame : deref_all E (engine st ++ derefs lgl lits) lgl lits = answers).
  { apply deref_all_read; [done |]. apply mutations_derefs. }
  rewrite Hsame in Hrun2.
  set (st2 := set_tables _ _) in Hrun2.
  assert (Hr1 : tables st1 !! r1 = Some (mkTable (seq_table (LInteger <$> answers)) None None)).
  { unfold st1. simpl. by rewrite lookup_insert_eq. }
  exists st1, st2, r1, r2, answers.
  split; [done |]. split; [done |].
  split; [done |]. split; [done |].
  split; [congruence |].
  split. { unfold answers, lits. by rewrite length_deref_all, length_fmap. }
  split. { unfold st2. simpl. rewrite lookup_insert_ne; [done | congruence]. }
  split. { unfold st2. simpl. by rewrite lookup_insert_eq. }
  split. { unfold st1. simpl. apply mutations_derefs. }
  split. { unfold st2. simpl. by rewrite !mutations_derefs. }
  split; [done |].
  unfold st2. simpl. rewrite lookup_insert_ne; [done | congruence].
Qed.

Lemma query_twice_witness :
  ∃ st1 st2 r1 r2 answers,
    Solver_query decimal_str2num demo_engine frame_query = (Ret 1, st1)
    ∧ Solver_query decimal_str2num demo_engine
        (set_stack [LUserdata 1; LTable 5] st1) = (Ret 1, st2)
    ∧ last (stack st1) = Some (LTable r1)
    ∧ last (stack st2) = Some (LTable r2)
    ∧ r1 ≠ r2
    ∧ length answers = length [1; -2; 3]
    ∧ tables st2 !! r1 = Some (mkTable (seq_table (LInteger <$> answers)) None None)
    ∧ tables st2 !! r2 = Some (mkTable (seq_table (LInteger <$> answers)) None None)
    ∧ mutations (engine st1) = mutations (engine frame_query)
    ∧ mutations (engine st2) = mutations (engine frame_query)
    ∧ udata st2 = udata frame_query
    ∧ tables st2 !! 5%positive =
        Some (mkTable (seq_table [LInteger 1; LInteger (-2); LInteger 3]) None None).
Proof.
  apply (query_twice_same_results decimal_str2num demo_engine frame_query 1 1 100 5
           (mkTable (seq_table [LInteger 1; LInteger (-2); LInteger 3]) None None) [1; -2; 3]).
  - reflexivity.
  - reflexivity.
  - vm_compute. reflexivity.
  - vm_compute. reflexivity.
  - reflexivity.
  - repeat constructor; discriminate.
  - exact demo_engine_reads.
Defined.

(** The binding asks the engine again at each call: with an engine whose
    answers depend on the reads it has served, the two tables differ. *)
Example query_twice_counting_engine :
  let st1 := (Solver_query decimal_str2num counting_engine frame_query).2 in
  let st2 := (Solver_query decimal_str2num counting_engine
                (set_stack [LUserdata 1; LTable 5] st1)).2 in
  (t_int <$> tables st2 !! 6%positive) = Some (seq_table (LInteger <$> [0; 1; 2]))
  ∧ (t_int <$> tables st2 !! 7%positive) = Some (seq_table (LInteger <$> [3; 4; 5])).
Proof. split; vm_compute; reflexivity. Qed.

(** ** C8: [query] before any solve *)

(** Claim C8.  On a session on which no solve has been run, [query] with an
    ordered collection of integers that are not zero raises no error: it
    returns a new table with the answers of the engine's deref, whatever
    the engine defines them to be.  The binding does not look at the state
    of the engine first: its only calls into the engine are the derefs. *)
Theorem query_before_solve
    (luaO_str2num : string → option (Z + lua_Number)) (E : Lingeling)
    st cls r lgl rt t cs :
  stack st = [LUserdata r; LTable rt] →
  upvalue1 st = LTable cls →
  is_session st cls r lgl →
  tables st !! rt = Some t →
  t_int t = seq_table (LInteger <$> cs) →
  Forall (λ c, c ≠ 0) cs →
  Lglsat lgl ∉ engine st →
  ∃ st' r3,
    Solver_query luaO_str2num E st = (Ret 1, st')
    ∧ last (stack st') = Some (LTable r3)
    ∧ tables st' !! r3 =
        Some (mkTable (seq_table (LInteger <$>
                 deref_all E (engine st) lgl (int_of_lua_Integer <$> cs))) None None)
    ∧ engine st' = engine st ++ derefs lgl (int_of_lua_Integer <$> cs).
Proof.
  intros Hstk Hup Hses Ht Hseq Hnz _.
  pose proof (query_run luaO_str2num E st cls r lgl rt t Hstk Hup Hses Ht) as Hrun.
  cbv zeta in Hrun. rewrite Hseq, table_seq_seq_table in Hrun.
  rewrite all_nonzero_LInteger, nonzero_prefix_LInteger in Hrun by done.
  eexists _, _. split; [exact Hrun |]. simpl.
  split; [done |]. split; [| done]. by rewrite lookup_insert_eq.
Qed.

Lemma query_before_solve_witness :
  ∃ st' r3,
    Solver_query decimal_str2num demo_engine frame_query = (Ret 1, st')
    ∧ last (stack st') = Some (LTable r3)
    ∧ tables st' !! r3 =
        Some (mkTable (seq_table (LInteger <$>
                 deref_all demo_engine (engine frame_query) 100
                   (int_of_lua_Integer <$> [1; -2; 3]))) None None)
    ∧ engine st' = engine frame_query ++ derefs 100 (int_of_lua_Integer <$> [1; -2; 3]).
Proof.
  apply (query_before_solve decimal_str2num demo_engine frame_query 1 1 100 5
           (mkTable (seq_table [LInteger 1; LInteger (-2); LInteger 3]) None None) [1; -2; 3]).
  - reflexivity.
  - reflexivity.
  - vm_compute. reflexivity.
  - vm_compute. reflexivity.
  - reflexivity.
  - repeat constructor; discriminate.
  - vm_compute. intros H. apply list_elem_of_singleton in H. discriminate.
Defined.

(** ** C9: an entry of [query] that is not an integer *)

(** Claim C9 as stated fails.  [query] reads each entry with
    [lua_tointeger], which converts what it can: in [s:query {1, "5", 6.0}]
    the string ["5"] and the float [6.0] are not integers, yet they are
    read as 5 and 6, the engine is asked for 1, 5 and 6, and the call
    returns the table of the answers. *)
Lemma query_converts_numerals :
  tables frame_query_numerals !! 8%positive =
    Some (mkTable (seq_table [LInteger 1; LString "5"; LFloat (FFinite 6 0)]) None None)
  ∧ not_an_integer (LString "5")
  ∧ not_an_integer (LFloat (FFinite 6 0))
  ∧ tointeger0 decimal_str2num (LString "5") = 5
  ∧ tointeger0 decimal_str2num (LFloat (FFinite 6 0)) = 6
  ∧ answers_each_literal decimal_str2num demo_engine frame_query_numerals 100 [1; 5; 6]
  ∧ ¬ coerced_and_rejected decimal_str2num demo_engine frame_query_numerals (LString "5")
  ∧ ¬ coerced_and_rejected decimal_str2num demo_engine frame_query_numerals
        (LFloat (FFinite 6 0)).
Proof.
  split; [vm_compute; reflexivity |].
  split; [intros n'; discriminate |].
  split; [intros n'; discriminate |].
  split; [vm_compute; reflexivity |].
  split; [vm_compute; reflexivity |].
  split; [vm_compute; reflexivity |].
  split; intros [Hzero _]; vm_compute in Hzero; discriminate.
Qed.

(** Claim C9, amended.  When the collection passed to [query] on a session,
    a table without a metatable, has an entry that Lua cannot convert to an
    integer (a string that is no numeral, say), [lua_tointeger] makes it 0
    and the call raises "Array may contain only non-zero integers", the
    error of a zero entry; [query] has no error of its own for this case,
    whereas [addDIMACSequence] on the same collection raises "Illegal
    argument in DIMACS sequence". *)
Theorem query_non_integer_entry
    (luaO_str2num : string → option (Z + lua_Number)) (E : Lingeling)
    st cls r lgl rt t v :
  stack st = [LUserdata r; LTable rt] →
  upvalue1 st = LTable cls →
  is_session st cls r lgl →
  tables st !! rt = Some t →
  t_meta t = None →
  v ∈ table_seq (t_int t) →
  tointeger luaO_str2num v = None →
  coerced_and_rejected luaO_str2num E st v
  ∧ (∃ st', Solver_addDIMACSSeqence luaO_str2num st =
              (Raise (LString "Illegal argument in DIMACS sequence"), st')).
Proof.
  intros Hstk Hup Hses Ht _ Hv Hnone.
  assert (Hzero : tointeger0 luaO_str2num v = 0).
  { unfold tointeger0. by rewrite Hnone. }
  split; [split; [done |] |].
  - pose proof (query_run luaO_str2num E st cls r lgl rt t Hstk Hup Hses Ht) as Hrun.
    cbv zeta in Hrun. rewrite (all_nonzero_false luaO_str2num _ v Hv Hzero) in Hrun.
    destruct Hrun as (st' & Hrun & _). eauto.
  - pose proof (addDIMACSequence_run luaO_str2num st cls r lgl [LTable rt] Hstk Hup Hses) as Hrun.
    cbv zeta in Hrun. simpl in Hrun. rewrite Ht in Hrun. simpl in Hrun.
    rewrite app_nil_r in Hrun.
    rewrite (all_integers_false luaO_str2num _ v Hv Hnone) in Hrun.
    destruct Hrun as (st' & Hrun & _); [| by eauto].
    intros r' Hr'. apply list_elem_of_singleton in Hr'. injection Hr' as ->. eauto.
Qed.

Lemma query_non_integer_witness :
  coerced_and_rejected decimal_str2num demo_engine frame_malformed (LString "x")
  ∧ (∃ st', Solver_addDIMACSSeqence decimal_str2num frame_malformed =
              (Raise (LString "Illegal argument in DIMACS sequence"), st')).
Proof.
  apply (query_non_integer_entry decimal_str2num demo_engine frame_malformed 1 1 100 6
           (mkTable (seq_table [LInteger 1; LString "x"]) None None) (LString "x")).
  - reflexivity.
  - reflexivity.
  - vm_compute. reflexivity.
  - vm_compute. reflexivity.
  - reflexivity.
  - cbn [t_int]. rewrite table_seq_seq_table.
    apply list_elem_of_further, list_elem_of_here.
  - vm_compute. reflexivity.
Defined.

(** ** C10: the arguments of [query] *)

(** Claim C10.  A call of [query] on a session with an argument count other
    than two (self and one argument) raises "Query must be called with
    arguments self and a table"; with two arguments of which the second is
    not a table it raises "Query must be called with a table argument".  In
    both cases the engine has not been called. *)
Theorem query_argument_errors
    (luaO_str2num : string → option (Z + lua_Number)) (E : Lingeling)
    st cls r lgl args :
  stack st = LUserdata r :: args →
  upvalue1 st = LTable cls →
  is_session st cls r lgl →
  (length args ≠ 1%nat →
   ∃ st', Solver_query luaO_str2num E st =
            (Raise (LString "Query must be called with arguments self and a table"), st')
          ∧ engine st' = engine st)
  ∧ (∀ v, args = [v] → ttype v ≠ LUA_TTABLE →
     ∃ st', Solver_query luaO_str2num E st =
              (Raise (LString "Query must be called with a table argument"), st')
            ∧ engine st' = engine st).
Proof.
  intros Hstk Hup Hses. rewrite Solver_query_eq.
  rewrite (bind_Ret _ _ _ _ _ (get_lgl_session _ _ _ _ _ Hstk Hup Hses)).
  rewrite (bind_Ret _ _ _ (Z.of_nat (length (stack st))) st) by done.
  split.
  - intros Hlen.
    assert (Htop : (Z.of_nat (length (stack st)) =? 2) = false).
    { apply Z.eqb_neq. rewrite Hstk. simpl. lia. }
    rewrite Htop. simpl (when_ _ _). eexists. split.
    + erewrite bind_Raise; [done |]. apply raise_literal.
    + done.
  - intros v -> Hty.
    assert (Htop : (Z.of_nat (length (stack st)) =? 2) = true) by (by rewrite Hstk).
    rewrite Htop. simpl (when_ _ _). rewrite (bind_Ret _ _ _ tt st) by done.
    assert (H2 : index2value 2 st = Some v).
    { rewrite index2value_pos by lia. by rewrite Hstk. }
    rewrite (bind_Ret _ _ _ _ _ (lua_type_eq _ _ _ H2)).
    rewrite (proj2 (Z.eqb_neq _ _) Hty). simpl (when_ _ _). eexists. split.
    + erewrite bind_Raise; [done |]. apply raise_literal.
    + done.
Qed.

Lemma query_argument_errors_witness :
  (length (@nil lua_value) ≠ 1%nat →
   ∃ st', Solver_query decimal_str2num demo_engine frame_self_only =
            (Raise (LString "Query must be called with arguments self and a table"), st')
          ∧ engine st' = engine frame_self_only)
  ∧ (∀ v, [] = [v] → ttype v ≠ LUA_TTABLE →
     ∃ st', Solver_query decimal_str2num demo_engine frame_self_only =
              (Raise (LString "Query must be called with a table argument"), st')
            ∧ engine st' = engine frame_self_only).
Proof.
  apply (query_argument_errors decimal_str2num demo_engine frame_self_only 1 1 100 []).
  - reflexivity.
  - reflexivity.
  - vm_compute. reflexivity.
Defined.

(** [s:query (5)] *)
Example query_with_integer_argument :
  (Solver_query decimal_str2num demo_engine
     (enter (LTable 1) [LUserdata 1; LInteger 5] demo_session)).1
  = Raise (LString "Query must be called with a table argument").
Proof. vm_compute. reflexivity. Qed.

(** * Further properties of the binding *)

(** ** The self argument *)

Lemma value_at_1_stack st v :
  value_at 1 st = v → v ≠ LNil → ∃ args, stack st = v :: args.
Proof.
  unfold value_at. rewrite index2value_pos by lia. simpl.
  destruct (stack st) as [| w args]; simpl; [congruence |].
  intros <- _. eauto.
Qed.

(** X1.  Take a call whose first argument is not a light userdata and in
    which the comparison of [get_lgl] has an answer (no [__eq] handler is
    called, or the one that is called returns and changes nothing).
    [get_lgl] returns a handle in exactly one case: the first argument is a
    full userdata with a metatable, and the table in the first upvalue of
    the running closure is equal to that metatable by [==], that is, it is
    the same table or the [__eq] handler says so.  The handle is then the
    content of the block of the userdata, and the state is as before the
    call.  (A light userdata is left out: [get_lgl] would read the memory it
    points to, which is not part of the state of Lua.) *)
Theorem get_lgl_accepts_exactly st lgl st' :
  (∀ p, value_at 1 st ≠ LLightUserdata p) →
  comparison_answers st →
  get_lgl st = (Ret lgl, st') ↔
  st' = st ∧ ∃ r m, value_at 1 st = LUserdata r
                    ∧ udata st !! r = Some (mkUdata lgl (Some m))
                    ∧ luaV_equalobj st (upvalue1 st) (LTable m) = Some true.
Proof.
  intros Hlight _. split.
  - intros Hrun.
    destruct (metatable_of st (value_at 1 st)) as [m |] eqn:Hmt.
    2:{ destruct (get_lgl_no_metatable st Hmt) as (st2 & H2 & _). congruence. }
    rewrite (get_lgl_compared st m Hmt) in Hrun.
    destruct (luaV_equalobj st (upvalue1 st) (LTable m)) as [[|] |] eqn:Heq;
      [| discriminate | discriminate].
    rewrite (bind_Ret _ _ _ (touserdata (value_at 1 st)) st) in Hrun by done.
    destruct (touserdata (value_at 1 st)) as [| r | p] eqn:Hud.
    + simpl (when_ _ _) in Hrun.
      erewrite bind_Raise in Hrun by apply raise_literal. discriminate.
    + assert (Hv : value_at 1 st = LUserdata r).
      { destruct (value_at 1 st); simpl in Hud; try discriminate.
        - by destruct (p =? 0).
        - congruence. }
      rewrite Hv in Hmt. simpl in Hmt.
      destruct (udata st !! r) as [[h um] |] eqn:Hu; [| discriminate].
      simpl in Hmt. subst um.
      simpl (when_ _ _) in Hrun. rewrite (bind_Ret _ _ _ tt st) in Hrun by done.
      unfold load_LGL in Hrun. rewrite Hu in Hrun.
      injection Hrun as <- <-. split; [done |]. eauto.
    + destruct (value_at 1 st) as [| b | p' | n | f | s | r0 | r0 | r | r0] eqn:Hv;
        try discriminate Hud.
      by destruct (Hlight p').
  - intros (-> & r & m & Hv & Hu & Heq).
    assert (Hmt : metatable_of st (value_at 1 st) = Some m).
    { rewrite Hv. simpl. by rewrite Hu. }
    rewrite (get_lgl_compared st m Hmt), Heq.
    rewrite (bind_Ret _ _ _ (Block r) st)
      by (unfold lua_touserdata; by rewrite Hv).
    simpl (when_ _ _). rewrite (bind_Ret _ _ _ tt st) by done.
    unfold load_LGL. by rewrite Hu.
Qed.

Lemma get_lgl_accepts_exactly_witness :
  get_lgl frame_foreign_self = (Ret 4242, frame_foreign_self) ↔
  frame_foreign_self = frame_foreign_self
  ∧ ∃ r m, value_at 1 frame_foreign_self = LUserdata r
           ∧ udata frame_foreign_self !! r = Some (mkUdata 4242 (Some m))
           ∧ luaV_equalobj frame_foreign_self (upvalue1 frame_foreign_self) (LTable m)
             = Some true.
Proof.
  apply (get_lgl_accepts_exactly frame_foreign_self 4242 frame_foreign_self).
  - intros p Hp. vm_compute in Hp. discriminate.
  - intros m Hm. vm_compute in Hm. injection Hm as <-. vm_compute. eauto.
Defined.

(** With tables compared by identity, the one case is that of a session of
    the class. *)
Example get_lgl_accepts_sessions st lgl :
  no_eq_handler st →
  (∀ p, value_at 1 st ≠ LLightUserdata p) →
  get_lgl st = (Ret lgl, st) ↔
  ∃ r m, value_at 1 st = LUserdata r
         ∧ udata st !! r = Some (mkUdata lgl (Some m))
         ∧ upvalue1 st = LTable m.
Proof.
  intros Hplain Hlight. split.
  - intros Hrun.
    destruct (metatable_of st (value_at 1 st)) as [m |] eqn:Hmt.
    2:{ destruct (get_lgl_no_metatable st Hmt) as (st2 & H2 & _). congruence. }
    destruct (decide (upvalue1 st = LTable m)) as [Heq | Hne].
    2:{ destruct (get_lgl_invalid st (other_metatable st m Hmt Hne) Hplain)
          as (st2 & H2 & _). congruence. }
    destruct (touserdata (value_at 1 st)) as [| r | p] eqn:Hud.
    + destruct (get_lgl_invalid st (not_userdata st Hud) Hplain)
        as (st2 & H2 & _). congruence.
    + destruct (value_at 1 st) as [| b | p | n | f | s | r0 | r0 | r' | r0] eqn:Hv;
        try discriminate Hud.
      * by destruct (Hlight p).
      * simpl in Hud. injection Hud as ->. simpl in Hmt.
        destruct (udata st !! r) as [[h um] |] eqn:Hu; [| discriminate].
        simpl in Hmt. subst um.
        destruct (value_at_1_stack st _ Hv) as [args Hstk]; [done |].
        rewrite (get_lgl_session st m r h args Hstk Heq Hu) in Hrun.
        injection Hrun as <-. eauto.
    + destruct (value_at 1 st) as [| b | p' | n | f | s | r0 | r0 | r' | r0] eqn:Hv;
        try discriminate Hud.
      by destruct (Hlight p').
  - intros (r & m & Hv & Hu & Hup').
    destruct (value_at_1_stack st _ Hv) as [args Hstk]; [done |].
    exact (get_lgl_session st m r lgl args Hstk Hup' Hu).
Qed.

(** ** [Solver_new] *)

(** X2.  [Solver_new] called without arguments from the closure of the
    class table returns one value, a new full userdata: its reference was
    free, its block holds the handle that [lglinit] returned, its metatable
    is the class table, and [lglinit] is the only engine call.  Whatever the
    further arguments, [get_lgl] accepts it as the self argument. *)
Theorem Solver_new_makes_session (E : Lingeling) st cls :
  stack st = [] →
  upvalue1 st = LTable cls →
  let r := fresh (dom (udata st)) in
  let h := lglinit_ret E (engine st) in
  let st' := mkState [LUserdata r] (LTable cls) (tables st)
               (<[r := mkUdata h (Some cls)]> (udata st)) (G_mt st)
               (engine st ++ [Lglinit]) in
  udata st !! r = None
  ∧ Solver_new E st = (Ret 1, st')
  ∧ ∀ args, get_lgl (enter (LTable cls) (LUserdata r :: args) st') =
              (Ret h, enter (LTable cls) (LUserdata r :: args) st').
Proof.
  intros Hstk Hup r h st'.
  assert (Hfresh : udata st !! r = None) by apply not_elem_of_dom, is_fresh.
  split; [done |]. split.
  - unfold Solver_new.
    set (st1 := push (LUserdata r) (set_udata (<[r := mkUdata 0 None]> (udata st)) st)).
    rewrite (bind_Ret _ _ _ (Block r) st1) by done.
    rewrite (bind_Ret _ _ _ tt (push (LTable cls) st1)).
    2:{ unfold lua_pushvalue, value_at. rewrite index2value_upvalue. simpl. by rewrite Hup. }
    set (st2 := set_udata (<[r := mkUdata 0 (Some cls)]> (udata st1)) st1).
    rewrite (bind_Ret _ _ _ 1 st2).
    2:{ unfold lua_setmetatable. rewrite last_push.
        rewrite value_at_push by (unfold st1; simpl; rewrite Hstk; simpl; lia).
        assert (H1 : value_at 1 st1 = LUserdata r).
        { unfold st1, value_at. rewrite index2value_pos by lia. simpl. by rewrite Hstk. }
        rewrite H1. change (udata (push (LTable cls) st1)) with (udata st1).
        assert (Hu : udata st1 !! r = Some (mkUdata 0 None)).
        { unfold st1. simpl. by rewrite lookup_insert_eq. }
        rewrite Hu. rewrite unpush. done. }
    rewrite (bind_Ret _ _ _ h (log_call Lglinit st2)) by done.
    set (st3 := set_udata (<[r := mkUdata h (Some cls)]> (udata st2)) (log_call Lglinit st2)).
    rewrite (bind_Ret _ _ _ tt st3).
    2:{ unfold store_LGL. change (udata (log_call Lglinit st2)) with (udata st2).
        assert (Hu : udata st2 !! r = Some (mkUdata 0 (Some cls))).
        { unfold st2. simpl. by rewrite lookup_insert_eq. }
        by rewrite Hu. }
    unfold ret. f_equal. unfold st3, st2, st1, st'. simpl.
    unfold set_udata, log_call, set_engine, push, set_stack. simpl.
    rewrite !insert_insert_eq. rewrite Hstk, Hup. done.
  - intros args. apply (get_lgl_session _ cls r h args); [done | done |].
    unfold is_session, st'. simpl. by rewrite lookup_insert_eq.
Qed.

Lemma Solver_new_makes_session_witness :
  let st := enter (LTable 1) [] demo_init in
  let r := fresh (dom (udata st)) in
  let h := lglinit_ret demo_engine (engine st) in
  let st' := mkState [LUserdata r] (LTable 1) (tables st)
               (<[r := mkUdata h (Some 1%positive)]> (udata st)) (G_mt st)
               (engine st ++ [Lglinit]) in
  udata st !! r = None
  ∧ Solver_new demo_engine st = (Ret 1, st')
  ∧ ∀ args, get_lgl (enter (LTable 1) (LUserdata r :: args) st') =
              (Ret h, enter (LTable 1) (LUserdata r :: args) st').
Proof.
  apply (Solver_new_makes_session demo_engine (enter (LTable 1) [] demo_init) 1).
  - reflexivity.
  - reflexivity.
Defined.

(** X3.  [Solver_new] sets the metatable of the value at index 1.  When
    the call has an argument (as in the method call [Solver:new ()]), that
    is the first argument and not the new userdata: the argument gets the
    class table as metatable (a table or userdata for itself, any other
    value for all values of its type), while the userdata that is returned
    has no metatable; it holds a handle of [lglinit], but [get_lgl] rejects
    it, so no method can use it. *)
Theorem Solver_new_with_argument (E : Lingeling) st cls v rest :
  stack st = v :: rest →
  upvalue1 st = LTable cls →
  live_value st v →
  let r := fresh (dom (udata st)) in
  let h := lglinit_ret E (engine st) in
  ∃ st', Solver_new E st = (Ret 1, st')
         ∧ stack st' = v :: rest ++ [LUserdata r]
         ∧ udata st' !! r = Some (mkUdata h None)
         ∧ metatable_of st' v = Some cls
         ∧ engine st' = engine st ++ [Lglinit]
         ∧ ∀ args, ∃ st'',
             get_lgl (enter (LTable cls) (LUserdata r :: args) st') =
               (Raise (LString "Invalid self argument"), st'').
Proof.
  intros Hstk Hup Hlive r h.
  assert (Hfresh : udata st !! r = None) by apply not_elem_of_dom, is_fresh.
  unfold Solver_new.
  set (st1 := push (LUserdata r) (set_udata (<[r := mkUdata 0 None]> (udata st)) st)).
  rewrite (bind_Ret _ _ _ (Block r) st1) by done.
  rewrite (bind_Ret _ _ _ tt (push (LTable cls) st1)).
  2:{ unfold lua_pushvalue, value_at. rewrite index2value_upvalue. simpl. by rewrite Hup. }
  assert (H1 : value_at 1 (push (LTable cls) st1) = v).
  { unfold value_at. rewrite index2value_pos by lia. simpl. by rewrite Hstk. }
  assert (Hinvalid : ∀ st' : lua_State,
            udata st' !! r = Some (mkUdata h None) →
            ∀ args, ∃ st'',
              get_lgl (enter (LTable cls) (LUserdata r :: args) st') =
                (Raise (LString "Invalid self argument"), st'')).
  { intros st' Hr args.
    destruct (get_lgl_no_metatable (enter (LTable cls) (LUserdata r :: args) st'))
      as (st'' & Hget & _); [| by eauto].
    simpl. by rewrite Hr. }
  assert (Hcase : (∃ r', v = LTable r') ∨ (∃ r', v = LUserdata r')
                  ∨ ((∀ r', v ≠ LTable r') ∧ (∀ r', v ≠ LUserdata r')))
    by (destruct v; eauto).
  destruct Hcase as [[r' ->] | [[r' ->] | [Hnt Hnu]]].
  - (* the argument is a table: it gets the metatable *)
    destruct Hlive as [t Ht].
    set (st2 := set_tables (<[r' := mkTable (t_int t) (Some cls) (t_eq t)]> (tables st1)) st1).
    rewrite (bind_Ret _ _ _ 1 st2).
    2:{ unfold lua_setmetatable. rewrite last_push, H1.
        change (tables (push (LTable cls) st1)) with (tables st).
        rewrite Ht, unpush. done. }
    rewrite (bind_Ret _ _ _ h (log_call Lglinit st2)) by done.
    set (st3 := set_udata (<[r := mkUdata h None]> (udata st2)) (log_call Lglinit st2)).
    rewrite (bind_Ret _ _ _ tt st3).
    2:{ unfold store_LGL. change (udata (log_call Lglinit st2)) with (udata st1).
        assert (Hu : udata st1 !! r = Some (mkUdata 0 None)).
        { unfold st1. simpl. by rewrite lookup_insert_eq. }
        by rewrite Hu. }
    assert (Hr : udata st3 !! r = Some (mkUdata h None)).
    { unfold st3. simpl. by rewrite lookup_insert_eq. }
    exists st3. split; [done |].
    split. { unfold st3, st2, st1. simpl. by rewrite Hstk. }
    split; [done |].
    split. { unfold st3, st2. simpl. by rewrite lookup_insert_eq. }
    split; [done |]. by apply Hinvalid.
  - (* the argument is another userdata: it gets the metatable *)
    destruct Hlive as [u Hu'].
    assert (Hne : r' ≠ r) by congruence.
    assert (Hu1 : udata st1 !! r' = Some u).
    { unfold st1. simpl. by rewrite lookup_insert_ne. }
    set (st2 := set_udata (<[r' := mkUdata (u_block u) (Some cls)]> (udata st1)) st1).
    rewrite (bind_Ret _ _ _ 1 st2).
    2:{ unfold lua_setmetatable. rewrite last_push, H1.
        change (udata (push (LTable cls) st1)) with (udata st1).
        rewrite Hu1, unpush. done. }
    rewrite (bind_Ret _ _ _ h (log_call Lglinit st2)) by done.
    set (st3 := set_udata (<[r := mkUdata h None]> (udata st2)) (log_call Lglinit st2)).
    rewrite (bind_Ret _ _ _ tt st3).
    2:{ unfold store_LGL. change (udata (log_call Lglinit st2)) with (udata st2).
        assert (Hu : udata st2 !! r = Some (mkUdata 0 None)).
        { unfold st2, st1. simpl. rewrite lookup_insert_ne by done.
          by rewrite lookup_insert_eq. }
        by rewrite Hu. }
    assert (Hr : udata st3 !! r = Some (mkUdata h None)).
    { unfold st3. simpl. by rewrite lookup_insert_eq. }
    exists st3. split; [done |].
    split. { unfold st3, st2, st1. simpl. by rewrite Hstk. }
    split; [done |].
    split. { unfold st3, st2. simpl. rewrite lookup_insert_ne by done.
             by rewrite lookup_insert_eq. }
    split; [done |]. by apply Hinvalid.
  - (* any other value: its whole type gets the metatable *)
    set (st2 := set_G_mt (λ tag, if tag =? ttype v then Some cls else G_mt st tag) st1).
    rewrite (bind_Ret _ _ _ 1 st2).
    2:{ unfold lua_setmetatable. rewrite last_push, H1, unpush.
        destruct v as [| b | p | n | f | s | r0 | r0 | r0 | r0]; try done;
          [by destruct (Hnt r0) | by destruct (Hnu r0)]. }
    rewrite (bind_Ret _ _ _ h (log_call Lglinit st2)) by done.
    set (st3 := set_udata (<[r := mkUdata h None]> (udata st2)) (log_call Lglinit st2)).
    rewrite (bind_Ret _ _ _ tt st3).
    2:{ unfold store_LGL. change (udata (log_call Lglinit st2)) with (udata st1).
        assert (Hu : udata st1 !! r = Some (mkUdata 0 None)).
        { unfold st1. simpl. by rewrite lookup_insert_eq. }
        by rewrite Hu. }
    assert (Hr : udata st3 !! r = Some (mkUdata h None)).
    { unfold st3. simpl. by rewrite lookup_insert_eq. }
    exists st3. split; [done |].
    split. { unfold st3, st2, st1. simpl. by rewrite Hstk. }
    split; [done |].
    split. { destruct v as [| b | p | n | f | s | r0 | r0 | r0 | r0];
             simpl; rewrite ?Z.eqb_refl; try done;
             [by destruct (Hnt r0) | by destruct (Hnu r0)]. }
    split; [done |]. by apply Hinvalid.
Qed.

Lemma Solver_new_with_argument_witness :
  let st := enter (LTable 1) [LTable 1] demo_init in
  let r := fresh (dom (udata st)) in
  let h := lglinit_ret demo_engine (engine st) in
  ∃ st', Solver_new demo_engine st = (Ret 1, st')
         ∧ stack st' = LTable 1 :: [] ++ [LUserdata r]
         ∧ udata st' !! r = Some (mkUdata h None)
         ∧ metatable_of st' (LTable 1) = Some 1%positive
         ∧ engine st' = engine st ++ [Lglinit]
         ∧ ∀ args, ∃ st'',
             get_lgl (enter (LTable 1) (LUserdata r :: args) st') =
               (Raise (LString "Invalid self argument"), st'').
Proof.
  apply (Solver_new_with_argument demo_engine (enter (LTable 1) [LTable 1] demo_init)
           1 (LTable 1) []).
  - reflexivity.
  - reflexivity.
  - vm_compute. eauto.
Defined.

(** ** [Solver_gc] *)

(** X4.  [Solver_gc] checks nothing: it never raises an error.  When
    [lua_touserdata] gives [NULL] for the first argument it returns without
    calling the engine; for a full userdata it releases what the block
    holds, whatever the metatable of the userdata and whether or not the
    handle has been released before, and leaves the block as it is. *)
Theorem Solver_gc_unguarded st :
  (touserdata (value_at 1 st) = NULL → Solver_gc st = (Ret 0, st))
  ∧ (∀ r u, value_at 1 st = LUserdata r → udata st !! r = Some u →
       Solver_gc st = (Ret 0, log_call (Lglrelease (u_block u)) st))
  ∧ (∀ e st', Solver_gc st ≠ (Raise e, st')).
Proof.
  split; [| split].
  - intros Hnull. unfold Solver_gc.
    rewrite (bind_Ret _ _ _ NULL st) by (unfold lua_touserdata; by rewrite Hnull).
    done.
  - intros r u Hv Hu.
    destruct (value_at_1_stack st _ Hv) as [args Hstk]; [done |].
    exact (Solver_gc_session st r u args Hstk Hu).
  - intros e st'. unfold Solver_gc.
    rewrite (bind_Ret _ _ _ (touserdata (value_at 1 st)) st) by done.
    destruct (touserdata (value_at 1 st)) as [| r | p]; simpl; [done | |].
    + unfold bind, load_LGL. by destruct (udata st !! r).
    + done.
Qed.

(** X5.  The collector hook does not invalidate the object.  After
    [Solver_gc] has run on a session, the userdata still is a session with
    the same handle, and a method called on it passes the released handle
    to the engine: [isSatisfiable] returns a verdict that [lglsat] gave for
    a handle that [lglrelease] has already taken. *)
Theorem session_survives_gc
    (luaO_str2num : string → option (Z + lua_Number)) (E : Lingeling)
    cls r lgl st :
  is_session st cls r lgl →
  let st1 := run_op luaO_str2num E cls r OpGc st in
  is_session st1 cls r lgl
  ∧ engine st1 = engine st ++ [Lglrelease lgl]
  ∧ ∃ b st2,
      Solver_isSatisfiable E (enter (LTable cls) [LUserdata r] st1) =
        (Ret 1, st2)
      ∧ last (stack st2) = Some (LBoolean b)
      ∧ engine st2 = engine st ++ [Lglrelease lgl; Lglsat lgl].
Proof.
  intros Hses st1. unfold st1. rewrite (run_op_gc luaO_str2num E cls r lgl st Hses).
  split; [done |]. split; [done |].
  set (st1' := log_call _ _).
  unfold Solver_isSatisfiable.
  set (st1e := enter (LTable cls) [LUserdata r] st1').
  rewrite (bind_Ret _ _ _ lgl st1e)
    by (by apply (get_lgl_session _ cls r lgl [])).
  rewrite (bind_Ret _ _ _ (lglsat_ret E (engine st1e) lgl) (log_call (Lglsat lgl) st1e))
    by done.
  destruct (_ =? LGL_SATISFIABLE).
  - eexists true, _. split; [reflexivity |]. simpl.
    split; [done |]. by rewrite <- app_assoc.
  - eexists false, _. split; [reflexivity |]. simpl.
    split; [done |]. by rewrite <- app_assoc.
Qed.

Lemma session_survives_gc_witness :
  let st1 := run_op decimal_str2num demo_engine 1 1 OpGc demo_session in
  is_session st1 1 1 100
  ∧ engine st1 = engine demo_session ++ [Lglrelease 100]
  ∧ ∃ b st2,
      Solver_isSatisfiable demo_engine (enter (LTable 1) [LUserdata 1] st1) =
        (Ret 1, st2)
      ∧ last (stack st2) = Some (LBoolean b)
      ∧ engine st2 = engine demo_session ++ [Lglrelease 100; Lglsat 100].
Proof.
  apply (session_survives_gc decimal_str2num demo_engine 1 1 100 demo_session).
  vm_compute. reflexivity.
Defined.

(** ** What the methods ask of the engine *)

Lemma emits_add_arguments
    (luaO_str2num : string → option (Z + lua_Number)) lgl n :
  emits (adds_to lgl) (for_range 2 n (add_argument luaO_str2num lgl) ;; ret 0).
Proof.
  pose proof (emits_lua_tointeger luaO_str2num (adds_to lgl)).
  unfold add_argument, add_entry. frame; try done.
  all: eapply emits_call; [| intros ?; reflexivity]; by eexists.
Qed.

(** X6.  Whatever its arguments and whether it returns or raises an error,
    a call of [addDIMACSequence] on a session asks nothing of the engine but
    [lgladd] on the handle of that session: it never solves, reads, creates
    or releases, and it changes no userdata. *)
Theorem addDIMACSequence_only_adds
    (luaO_str2num : string → option (Z + lua_Number))
    st cls r lgl args :
  stack st = LUserdata r :: args →
  upvalue1 st = LTable cls →
  is_session st cls r lgl →
  udata (Solver_addDIMACSSeqence luaO_str2num st).2 = udata st
  ∧ ∃ l, engine (Solver_addDIMACSSeqence luaO_str2num st).2 = engine st ++ l
         ∧ Forall (adds_to lgl) l.
Proof.
  intros Hstk Hup Hses. rewrite Solver_addDIMACSSeqence_eq.
  rewrite (bind_Ret _ _ _ _ _ (get_lgl_session _ _ _ _ _ Hstk Hup Hses)).
  rewrite (bind_Ret _ _ _ (Z.of_nat (length (stack st))) st) by done.
  apply emits_add_arguments.
Qed.

Lemma addDIMACSequence_only_adds_witness :
  udata (Solver_addDIMACSSeqence decimal_str2num frame_malformed).2 = udata frame_malformed
  ∧ ∃ l, engine (Solver_addDIMACSSeqence decimal_str2num frame_malformed).2 =
           engine frame_malformed ++ l
         ∧ Forall (adds_to 100) l.
Proof.
  apply (addDIMACSequence_only_adds decimal_str2num frame_malformed 1 1 100 [LTable 6]).
  - reflexivity.
  - reflexivity.
  - vm_compute. reflexivity.
Defined.

Lemma mutations_only_derefs log l :
  Forall (λ c, is_deref c = true) l → mutations (log ++ l) = mutations log.
Proof.
  intros Hl. unfold mutations. rewrite filter_app.
  replace (filter _ l) with (@nil lgl_call); [by rewrite app_nil_r |].
  induction Hl as [| c l Hc _ IH]; [done |].
  rewrite filter_cons_False by (by rewrite Hc). done.
Qed.

(** X7.  In every state and with any arguments, valid or not, [query] asks
    nothing of the engine but [lglderef]: the calls that change the engine
    ([lglinit], [lgladd], [lglsat], [lglrelease]) are the same after the
    call as before, and no userdata changes. *)
Theorem query_only_derefs
    (luaO_str2num : string → option (Z + lua_Number)) (E : Lingeling) st :
  udata (Solver_query luaO_str2num E st).2 = udata st
  ∧ mutations (engine (Solver_query luaO_str2num E st).2) = mutations (engine st).
Proof.
  assert (Hem : emits (λ c, is_deref c = true) (Solver_query luaO_str2num E)).
  { unfold Solver_query.
    pose proof (emits_get_lgl (λ c, is_deref c = true)).
    pose proof (emits_lua_tointeger luaO_str2num (λ c, is_deref c = true)).
    frame; done. }
  destruct (Hem st) as (Hud & l & Heng & Hl).
  split; [done |]. rewrite Heng. by apply mutations_only_derefs.
Qed.

(** ** Conversions and composition in [addDIMACSequence] *)

(** X8.  [addDIMACSequence] takes every element through [lua_tointegerx],
    so it accepts what Lua converts to an integer, not integers alone: a
    float with an integer value and a string that reads as such a number
    are literals too.  When the table arguments are proper sequences and
    every element converts, the call returns and the engine has received
    the converted values, narrowed to [int], in order; the Lua state is
    otherwise as before. *)
Theorem addDIMACSequence_converts
    (luaO_str2num : string → option (Z + lua_Number))
    st cls r lgl args cs :
  stack st = LUserdata r :: args →
  upvalue1 st = LTable cls →
  is_session st cls r lgl →
  sequence_arguments (tables st) args →
  Forall2 (λ v c, tointeger luaO_str2num v = Some c)
    (flat_map (arg_items (tables st)) args) cs →
  Solver_addDIMACSSeqence luaO_str2num st =
    (Ret 0, set_engine (engine st ++ adds lgl cs) st).
Proof.
  intros Hstk Hup Hses Hseq Hcs.
  destruct (converted_prefix luaO_str2num _ _ Hcs) as [Hall Hpre].
  pose proof (addDIMACSequence_run luaO_str2num st cls r lgl args Hstk Hup Hses
                (sequence_arguments_live _ _ Hseq)) as Hrun.
  cbv zeta in Hrun. by rewrite Hall, Hpre in Hrun.
Qed.

Lemma addDIMACSequence_converts_witness :
  Solver_addDIMACSSeqence decimal_str2num frame_add_coerced =
    (Ret 0, set_engine (engine frame_add_coerced ++ adds 100 [10; 6; 1; -2; 3])
              frame_add_coerced).
Proof.
  apply (addDIMACSequence_converts decimal_str2num frame_add_coerced 1 1 100
           [LString "10"; LFloat (FFinite 3 1); LTable 5] [10; 6; 1; -2; 3]).
  - reflexivity.
  - reflexivity.
  - vm_compute. reflexivity.
  - intros r' Hr'.
    apply elem_of_cons in Hr' as [Hr' | Hr']; [discriminate |].
    apply elem_of_cons in Hr' as [Hr' | Hr']; [discriminate |].
    apply list_elem_of_singleton in Hr'. injection Hr' as ->.
    sequence_of [LInteger 1; LInteger (-2); LInteger 3].
  - replace (flat_map (arg_items (tables frame_add_coerced))
               [LString "10"; LFloat (FFinite 3 1); LTable 5])
      with [LString "10"; LFloat (FFinite 3 1); LInteger 1; LInteger (-2); LInteger 3]
      by (vm_compute; reflexivity).
    repeat (constructor; [vm_compute; reflexivity |]). constructor.
Defined.

(** X9.  Clauses can be sent in pieces.  When the table arguments are
    proper sequences and the elements of the arguments [args1] all convert
    to integers, one call with the arguments
    [args1 ++ args2] and two calls in a row, with [args1] and then with
    [args2], come to the same: the first of the two returns, the second has
    the outcome of the single call, and the engine, the tables and the
    userdata end up the same. *)
Theorem addDIMACSequence_split
    (luaO_str2num : string → option (Z + lua_Number))
    st cls r lgl args1 args2 :
  is_session st cls r lgl →
  sequence_arguments (tables st) (args1 ++ args2) →
  all_integers luaO_str2num (flat_map (arg_items (tables st)) args1) = true →
  let one := Solver_addDIMACSSeqence luaO_str2num
               (enter (LTable cls) (LUserdata r :: args1 ++ args2) st) in
  let first := Solver_addDIMACSSeqence luaO_str2num
                 (enter (LTable cls) (LUserdata r :: args1) st) in
  let second := Solver_addDIMACSSeqence luaO_str2num
                  (enter (LTable cls) (LUserdata r :: args2) first.2) in
  first.1 = Ret 0
  ∧ second.1 = one.1
  ∧ engine second.2 = engine one.2
  ∧ tables second.2 = tables one.2
  ∧ udata second.2 = udata one.2.
Proof.
  intros Hses Hseq Hall1 one first second.
  pose proof (sequence_arguments_live _ _ Hseq) as Hlive.
  pose proof (addDIMACSequence_run luaO_str2num
                (enter (LTable cls) (LUserdata r :: args1 ++ args2) st)
                cls r lgl (args1 ++ args2) eq_refl eq_refl Hses Hlive) as Hone.
  pose proof (addDIMACSequence_run luaO_str2num
                (enter (LTable cls) (LUserdata r :: args1) st)
                cls r lgl args1 eq_refl eq_refl Hses) as Hfirst.
  cbv zeta in Hone, Hfirst.
  change (tables (enter _ _ st)) with (tables st) in Hone, Hfirst.
  change (engine (enter _ _ st)) with (engine st) in Hone, Hfirst.
  rewrite Hall1 in Hfirst.
  assert (Hfirst' : first = (Ret 0, set_engine
            (engine st ++ adds lgl (integer_prefix luaO_str2num
                                      (flat_map (arg_items (tables st)) args1)))
            (enter (LTable cls) (LUserdata r :: args1) st))).
  { apply Hfirst. intros r' Hr'. apply Hlive. set_solver. }
  clear Hfirst.
  pose proof (addDIMACSequence_run luaO_str2num
                (enter (LTable cls) (LUserdata r :: args2) first.2)
                cls r lgl args2 eq_refl eq_refl) as Hsecond.
  cbv zeta in Hsecond. rewrite Hfirst' in Hsecond. simpl in Hsecond.
  specialize (Hsecond Hses).
  assert (Hlive2 : ∀ r', LTable r' ∈ args2 → is_Some (tables st !! r')).
  { intros r' Hr'. apply Hlive. set_solver. }
  specialize (Hsecond Hlive2).
  rewrite flat_map_app, all_integers_app, integer_prefix_app, Hall1 in Hone.
  simpl in Hone.
  split; [by rewrite Hfirst' |].
  unfold second, one. rewrite Hfirst'. simpl.
  destruct (all_integers luaO_str2num (flat_map (arg_items (tables st)) args2)).
  - rewrite Hone, Hsecond. simpl. unfold adds. rewrite fmap_app, app_assoc. done.
  - destruct Hone as (s1 & -> & He1 & Ht1 & Hu1).
    destruct Hsecond as (s2 & -> & He2 & Ht2 & Hu2). simpl.
    rewrite He1, He2, Ht1, Ht2, Hu1, Hu2. simpl.
    unfold adds. rewrite fmap_app, app_assoc. done.
Qed.

Lemma addDIMACSequence_split_witness :
  let one := Solver_addDIMACSSeqence decimal_str2num
               (enter (LTable 1) (LUserdata 1 :: [LTable 5] ++ [LInteger 0; LTable 6])
                  demo_with_both) in
  let first := Solver_addDIMACSSeqence decimal_str2num
                 (enter (LTable 1) (LUserdata 1 :: [LTable 5])
                    demo_with_both) in
  let second := Solver_addDIMACSSeqence decimal_str2num
                  (enter (LTable 1) (LUserdata 1 :: [LInteger 0; LTable 6]) first.2) in
  first.1 = Ret 0
  ∧ second.1 = one.1
  ∧ engine second.2 = engine one.2
  ∧ tables second.2 = tables one.2
  ∧ udata second.2 = udata one.2.
Proof.
  apply (addDIMACSequence_split decimal_str2num demo_with_both 1 1 100
           [LTable 5] [LInteger 0; LTable 6]).
  - vm_compute. reflexivity.
  - intros r' Hr'.
    apply elem_of_cons in Hr' as [Hr' | Hr'].
    { injection Hr' as ->. sequence_of [LInteger 1; LInteger (-2); LInteger 3]. }
    apply elem_of_cons in Hr' as [Hr' | Hr']; [discriminate |].
    apply list_elem_of_singleton in Hr'. injection Hr' as ->.
    sequence_of [LInteger 1; LString "x"].
  - vm_compute. reflexivity.
Defined.

(** ** [query] up to a bad entry *)

Lemma nonzero_prefix_stops
    (luaO_str2num : string → option (Z + lua_Number)) pre cs bad rest :
  Forall2 (λ v c, tointeger0 luaO_str2num v = c ∧ c ≠ 0) pre cs →
  tointeger0 luaO_str2num bad = 0 →
  all_nonzero luaO_str2num (pre ++ bad :: rest) = false
  ∧ nonzero_prefix luaO_str2num (pre ++ bad :: rest) = cs.
Proof.
  intros Hpre Hbad. induction Hpre as [| v c pre cs [Hv Hc] _ [IH1 IH2]]; simpl.
  - by rewrite Hbad.
  - rewrite Hv, IH1, IH2. by rewrite (proj2 (Z.eqb_neq _ _) Hc).
Qed.

(** X10.  [query] checks and reads entry by entry.  When the entries of
    the collection are [pre ++ bad :: rest], where the entries of [pre] read
    as the integers [cs], none of them zero, and [bad] reads as zero (it is
    zero or does not convert), the call raises "Array may contain only
    non-zero integers" after it has asked the engine for every literal of
    [pre], in order, and for nothing after them; the answers are lost with
    the table that held them. *)
Theorem query_reads_before_error
    (luaO_str2num : string → option (Z + lua_Number)) (E : Lingeling)
    st cls r lgl rt t pre cs bad rest :
  stack st = [LUserdata r; LTable rt] →
  upvalue1 st = LTable cls →
  is_session st cls r lgl →
  tables st !! rt = Some t →
  table_seq (t_int t) = pre ++ bad :: rest →
  Forall2 (λ v c, tointeger0 luaO_str2num v = c ∧ c ≠ 0) pre cs →
  tointeger0 luaO_str2num bad = 0 →
  ∃ st', Solver_query luaO_str2num E st =
           (Raise (LString "Array may contain only non-zero integers"), st')
         ∧ engine st' = engine st ++ derefs lgl (int_of_lua_Integer <$> cs)
         ∧ udata st' = udata st.
Proof.
  intros Hstk Hup Hses Ht Hseq Hpre Hbad.
  destruct (nonzero_prefix_stops luaO_str2num pre cs bad rest Hpre Hbad) as [Hall Hcs].
  pose proof (query_run luaO_str2num E st cls r lgl rt t Hstk Hup Hses Ht) as Hrun.
  cbv zeta in Hrun. by rewrite Hseq, Hall, Hcs in Hrun.
Qed.

Lemma query_reads_before_error_witness :
  ∃ st', Solver_query decimal_str2num demo_engine frame_malformed =
           (Raise (LString "Array may contain only non-zero integers"), st')
         ∧ engine st' = engine frame_malformed ++ derefs 100 (int_of_lua_Integer <$> [1])
         ∧ udata st' = udata frame_malformed.
Proof.
  apply (query_reads_before_error decimal_str2num demo_engine frame_malformed 1 1 100 6
           (mkTable (seq_table [LInteger 1; LString "x"]) None None)
           [LInteger 1] [1] (LString "x") []).
  - reflexivity.
  - reflexivity.
  - vm_compute. reflexivity.
  - vm_compute. reflexivity.
  - cbn [t_int]. by rewrite table_seq_seq_table.
  - repeat constructor. discriminate.
  - vm_compute. reflexivity.
Defined.

(** ** The loader *)

Lemma wbind_Ret {A B} (m : W A) (k : A → W B) w a w' :
  m w = (Ret a, w') → wbind m k w = k a w'.
Proof. unfold wbind. by intros ->. Qed.

Lemma index2value_last st s v :
  stack st = s ++ [v] → index2value (-1) st = Some v.
Proof.
  intros Hs. unfold index2value. rewrite Hs. simpl. rewrite length_app. simpl.
  rewrite (proj2 (Z.leb_le _ _)) by lia.
  match goal with |- context [Z.to_nat ?x] =>
    replace (Z.to_nat x) with (length s) by lia end.
  by rewrite list_lookup_middle.
Qed.

Lemma index2value_last2 st s a b :
  stack st = s ++ [a; b] → index2value (-2) st = Some a.
Proof.
  intros Hs. unfold index2value. rewrite Hs. simpl. rewrite length_app. simpl.
  rewrite (proj2 (Z.leb_le _ _)) by lia.
  match goal with |- context [Z.to_nat ?x] =>
    replace (Z.to_nat x) with (length s) by lia end.
  by rewrite list_lookup_middle.
Qed.

(** [lua_setfield (L, -2, name)] with the table [cls] below the value [v]
    on the top. *)
Lemma lua_setfield_below_top name w s cls t v :
  stack (L w) = s ++ [LTable cls; v] →
  tables (L w) !! cls = Some t →
  v ≠ LNil →
  lua_setfield (-2) name w =
    (Ret tt, set_fields (<[(cls, name) := v]> (fields w))
               (set_L (set_stack (s ++ [LTable cls]) (L w)) w)).
Proof.
  intros Hstk Ht Hv. unfold lua_setfield.
  rewrite (index2value_last2 _ s (LTable cls) v Hstk), Hstk.
  replace (s ++ [LTable cls; v]) with ((s ++ [LTable cls]) ++ [v])
    by (by rewrite <- app_assoc).
  rewrite last_snoc, Ht, length_app. simpl length.
  replace (length (s ++ [LTable cls]) + 1 - 1)%nat with (length (s ++ [LTable cls])) by lia.
  rewrite take_app_length. by destruct v.
Qed.

(** One method of the class table on the top of the stack: the table is
    copied, the copy becomes the upvalue of a new closure, and the closure
    is stored under the name. *)
Lemma register_method fn name (k : W Z) w s cls t :
  stack (L w) = s ++ [LTable cls] →
  tables (L w) !! cls = Some t →
  (lift (lua_pushvalue (-1)) ;; lua_pushcclosure fn 1 ;; lua_setfield (-2) name ;; k)%W w =
  k (mkWorld (L w)
       (<[fresh (dom (closures w)) := mkCClosure fn [LTable cls]]> (closures w))
       (<[(cls, name) := LFunction (fresh (dom (closures w)))]> (fields w))
       (globals w)).
Proof.
  intros Hstk Ht.
  rewrite (wbind_Ret _ _ w tt (set_L (push (LTable cls) (L w)) w)).
  2:{ unfold lift, lua_pushvalue. simpl. unfold value_at.
      by rewrite (index2value_last _ s (LTable cls)). }
  set (w1 := set_L (push (LTable cls) (L w)) w).
  assert (Hstk1 : stack (L w1) = (s ++ [LTable cls]) ++ [LTable cls]).
  { subst w1. simpl. by rewrite Hstk. }
  rewrite (wbind_Ret _ _ w1 tt
             (set_closures (<[fresh (dom (closures w)) := mkCClosure fn [LTable cls]]> (closures w))
                (set_L (set_stack ((s ++ [LTable cls]) ++ [LFunction (fresh (dom (closures w)))])
                          (L w1)) w1))).
  2:{ unfold lua_pushcclosure. cbv zeta. rewrite Hstk1.
      rewrite length_app. simpl length.
      replace (1 <=? length (s ++ [LTable cls]) + 1)%nat with true
        by (symmetry; apply Nat.leb_le; lia).
      replace (length (s ++ [LTable cls]) + 1 - 1)%nat with (length (s ++ [LTable cls])) by lia.
      rewrite drop_app_length, take_app_length. done. }
  set (w2 := set_closures _ _).
  rewrite (wbind_Ret _ _ w2 tt
             (set_fields (<[(cls, name) := LFunction (fresh (dom (closures w)))]> (fields w2))
                (set_L (set_stack (s ++ [LTable cls]) (L w2)) w2))).
  2:{ apply (lua_setfield_below_top _ _ _ _ t); [| done | done].
      subst w2. simpl. by rewrite <- app_assoc. }
  f_equal. subst w2 w1. unfold set_fields, set_closures, set_L. simpl.
  f_equal. rewrite <- Hstk. destruct (L w); reflexivity.
Qed.

(** The collector hook: a C function without upvalues. *)
Lemma register_function fn name (k : W Z) w s cls t :
  stack (L w) = s ++ [LTable cls] →
  tables (L w) !! cls = Some t →
  (lua_pushcfunction fn ;; lua_setfield (-2) name ;; k)%W w =
  k (mkWorld (L w)
       (<[fresh (dom (closures w)) := mkCClosure fn []]> (closures w))
       (<[(cls, name) := LFunction (fresh (dom (closures w)))]> (fields w))
       (globals w)).
Proof.
  intros Hstk Ht.
  rewrite (wbind_Ret _ _ w tt
             (set_closures (<[fresh (dom (closures w)) := mkCClosure fn []]> (closures w))
                (set_L (set_stack ((s ++ [LTable cls]) ++ [LFunction (fresh (dom (closures w)))])
                          (L w)) w))).
  2:{ unfold lua_pushcfunction, lua_pushcclosure. cbv zeta. rewrite Hstk.
      simpl (0 <=? _)%nat. rewrite Nat.sub_0_r.
      by rewrite drop_all, firstn_all. }
  set (w2 := set_closures _ _).
  rewrite (wbind_Ret _ _ w2 tt
             (set_fields (<[(cls, name) := LFunction (fresh (dom (closures w)))]> (fields w2))
                (set_L (set_stack (s ++ [LTable cls]) (L w2)) w2))).
  2:{ apply (lua_setfield_below_top _ _ _ _ t); [| done | done].
      subst w2. simpl. by rewrite <- app_assoc. }
  f_equal. subst w2. unfold set_fields, set_closures, set_L. simpl.
  f_equal. rewrite <- Hstk. destruct (L w); reflexivity.
Qed.

(** The table under a name of its own. *)
Lemma register_self name (k : W Z) w s cls t :
  stack (L w) = s ++ [LTable cls] →
  tables (L w) !! cls = Some t →
  (lift (lua_pushvalue (-1)) ;; lua_setfield (-2) name ;; k)%W w =
  k (set_fields (<[(cls, name) := LTable cls]> (fields w)) w).
Proof.
  intros Hstk Ht.
  rewrite (wbind_Ret _ _ w tt (set_L (push (LTable cls) (L w)) w)).
  2:{ unfold lift, lua_pushvalue. simpl. unfold value_at.
      by rewrite (index2value_last _ s (LTable cls)). }
  set (w1 := set_L (push (LTable cls) (L w)) w).
  rewrite (wbind_Ret _ _ w1 tt
             (set_fields (<[(cls, name) := LTable cls]> (fields w1))
                (set_L (set_stack (s ++ [LTable cls]) (L w1)) w1))).
  2:{ apply (lua_setfield_below_top _ _ _ _ t); [| done | done].
      subst w1. simpl. rewrite Hstk. by rewrite <- app_assoc. }
  f_equal. subst w1. unfold set_fields, set_closures, set_L. simpl.
  f_equal. rewrite <- Hstk. destruct (L w); reflexivity.
Qed.

Lemma luaopen_Solver_run w : luaopen_Solver w = (Ret 1, loaded w).
Proof.
  unfold luaopen_Solver.
  set (cls := fresh (dom (tables (L w)))).
  rewrite (wbind_Ret _ _ w tt
             (set_L (push (LTable cls)
                       (set_tables (<[cls := mkTable ∅ None None]> (tables (L w))) (L w))) w))
    by done.
  set (w0 := set_L _ w).
  assert (Hstk : ∀ c f, stack (L (mkWorld (L w0) c f (globals w0))) =
                          stack (L w) ++ [LTable cls]) by done.
  assert (Ht : ∀ c f, tables (L (mkWorld (L w0) c f (globals w0))) !! cls =
                        Some (mkTable ∅ None None)).
  { intros. simpl. by rewrite lookup_insert_eq. }
  rewrite (register_method _ _ _ w0 (stack (L w)) cls (mkTable ∅ None None))
    by (subst w0; simpl; by rewrite ?lookup_insert_eq).
  rewrite (register_method _ _ _ _ _ cls _ (Hstk _ _) (Ht _ _)).
  cbn [L closures fields globals].
  rewrite (register_method _ _ _ _ _ cls _ (Hstk _ _) (Ht _ _)).
  cbn [L closures fields globals].
  rewrite (register_method _ _ _ _ _ cls _ (Hstk _ _) (Ht _ _)).
  cbn [L closures fields globals].
  rewrite (register_function _ _ _ _ _ cls _ (Hstk _ _) (Ht _ _)).
  cbn [L closures fields globals].
  rewrite (register_self _ _ _ _ cls _ (Hstk _ _) (Ht _ _)).
  reflexivity.
Qed.

Lemma lookup_fresh {A} (m : gmap positive A) : m !! fresh (dom m) = None.
Proof. apply not_elem_of_dom, is_fresh. Qed.

Lemma insert_fresh_subseteq {A} (m : gmap positive A) x :
  m ⊆ <[fresh (dom m) := x]> m.
Proof. apply insert_subseteq, lookup_fresh. Qed.

Lemma lookup_fresh_subseteq {A} (m m' : gmap positive A) :
  m ⊆ m' → m !! fresh (dom m') = None.
Proof.
  intros Hsub. destruct (m !! fresh (dom m')) as [x |] eqn:Hx; [| done].
  apply (lookup_weaken _ m') in Hx; [| done].
  by rewrite lookup_fresh in Hx.
Qed.

Ltac in_list :=
  unfold methods, class_fields;
  repeat first [apply list_elem_of_here | apply list_elem_of_further].

(** What the loader leaves, closure by closure. *)
Lemma loaded_closures w :
  let cls := fresh (dom (tables (L w))) in
  closures w ⊆ closures (loaded w)
  ∧ (∀ name fn, (name, fn) ∈ methods →
       ∃ rf, fields (loaded w) !! (cls, name) = Some (LFunction rf)
             ∧ closures w !! rf = None
             ∧ closures (loaded w) !! rf = Some (mkCClosure fn [LTable cls]))
  ∧ (∃ rf, fields (loaded w) !! (cls, "__gc"%string) = Some (LFunction rf)
           ∧ closures w !! rf = None
           ∧ closures (loaded w) !! rf = Some (mkCClosure F_Solver_gc []))
  ∧ fields (loaded w) !! (cls, "__index"%string) = Some (LTable cls).
Proof.
  intros cls. unfold loaded. fold cls. cbv zeta. cbn [closures fields].
  set (c0 := closures w).
  set (c1 := <[fresh (dom c0) := mkCClosure F_Solver_new [LTable cls]]> c0).
  set (c2 := <[fresh (dom c1) := mkCClosure F_Solver_addDIMACSSeqence [LTable cls]]> c1).
  set (c3 := <[fresh (dom c2) := mkCClosure F_Solver_isSatisfiable [LTable cls]]> c2).
  set (c4 := <[fresh (dom c3) := mkCClosure F_Solver_query [LTable cls]]> c3).
  set (c5 := <[fresh (dom c4) := mkCClosure F_Solver_gc []]> c4).
  assert (H01 : c0 ⊆ c1) by apply insert_fresh_subseteq.
  assert (H12 : c1 ⊆ c2) by apply insert_fresh_subseteq.
  assert (H23 : c2 ⊆ c3) by apply insert_fresh_subseteq.
  assert (H34 : c3 ⊆ c4) by apply insert_fresh_subseteq.
  assert (H45 : c4 ⊆ c5) by apply insert_fresh_subseteq.
  assert (H02 : c0 ⊆ c2) by (by etrans).
  assert (H03 : c0 ⊆ c3) by (by etrans).
  assert (H04 : c0 ⊆ c4) by (by etrans).
  assert (H15 : c1 ⊆ c5) by (etrans; [done |]; etrans; [done |]; by etrans).
  assert (H25 : c2 ⊆ c5) by (etrans; [done |]; by etrans).
  assert (H35 : c3 ⊆ c5) by (by etrans).
  split; [by etrans |].
  split; [| split].
  - intros name fn Hin. unfold methods in Hin.
    repeat (apply elem_of_cons in Hin as [[= -> ->] | Hin]);
      [| | | | by apply elem_of_nil in Hin].
    + exists (fresh (dom c0)). split; [| split].
      * by repeat (rewrite lookup_insert_ne by (intros [=])); rewrite lookup_insert_eq.
      * apply lookup_fresh.
      * apply (lookup_weaken c1); [apply lookup_insert_eq | done].
    + exists (fresh (dom c1)). split; [| split].
      * by repeat (rewrite lookup_insert_ne by (intros [=])); rewrite lookup_insert_eq.
      * by apply lookup_fresh_subseteq.
      * apply (lookup_weaken c2); [apply lookup_insert_eq | done].
    + exists (fresh (dom c2)). split; [| split].
      * by repeat (rewrite lookup_insert_ne by (intros [=])); rewrite lookup_insert_eq.
      * by apply lookup_fresh_subseteq.
      * apply (lookup_weaken c3); [apply lookup_insert_eq | done].
    + exists (fresh (dom c3)). split; [| split].
      * by repeat (rewrite lookup_insert_ne by (intros [=])); rewrite lookup_insert_eq.
      * by apply lookup_fresh_subseteq.
      * apply (lookup_weaken c4); [apply lookup_insert_eq | done].
  - exists (fresh (dom c4)). split; [| split].
    + by repeat (rewrite lookup_insert_ne by (intros [=])); rewrite lookup_insert_eq.
    + by apply lookup_fresh_subseteq.
    + apply lookup_insert_eq.
  - apply lookup_insert_eq.
Qed.

(** The other fields of the world are as before. *)
Lemma loaded_fields_other w r k :
  (r = fresh (dom (tables (L w))) → k ∉ class_fields) →
  fields (loaded w) !! (r, k) = fields w !! (r, k).
Proof.
  intros Hnot. unfold loaded. cbv zeta. cbn [fields].
  repeat (rewrite lookup_insert_ne;
          [| intros [= Hr Hk]; apply (Hnot (eq_sym Hr)); rewrite <- Hk; in_list]).
  done.
Qed.

(** X11.  The loader, run in any state, returns 1 with one more value on
    the stack: a new table, the class.  The table has the four methods,
    each a new closure of its C function whose only upvalue is the class
    table itself; [__gc], a new C function without upvalues; and [__index],
    the table itself.  No other field, closure or object of the state
    changes. *)
Theorem luaopen_builds_class w :
  let cls := fresh (dom (tables (L w))) in
  ∃ w', luaopen_Solver w = (Ret 1, w')
    ∧ L w' = push (LTable cls)
               (set_tables (<[cls := mkTable ∅ None None]> (tables (L w))) (L w))
    ∧ (∀ name fn, (name, fn) ∈ methods →
         ∃ rf, fields w' !! (cls, name) = Some (LFunction rf)
               ∧ closures w !! rf = None
               ∧ closures w' !! rf = Some (mkCClosure fn [LTable cls]))
    ∧ (∃ rf, fields w' !! (cls, "__gc"%string) = Some (LFunction rf)
             ∧ closures w !! rf = None
             ∧ closures w' !! rf = Some (mkCClosure F_Solver_gc []))
    ∧ fields w' !! (cls, "__index"%string) = Some (LTable cls)
    ∧ (∀ r k, (r = cls → k ∉ class_fields) →
              fields w' !! (r, k) = fields w !! (r, k))
    ∧ closures w ⊆ closures w'
    ∧ globals w' = globals w.
Proof.
  intros cls. exists (loaded w).
  destruct (loaded_closures w) as (Hsub & Hm & Hgc & Hidx).
  split; [apply luaopen_Solver_run |].
  split; [done |].
  split; [done |]. split; [done |]. split; [done |].
  split; [apply loaded_fields_other |]. done.
Qed.

(** X12.  The class that the loader builds works as a whole.  The
    function stored under [new], called without arguments, returns a
    session: a userdata that holds the handle of [lglinit] and whose
    metatable is the class table.  Every method stored in the class is a
    closure whose upvalue makes [get_lgl] accept that session as the self
    argument, with any further arguments. *)
Theorem loaded_class_serves_sessions
    (luaO_str2num : string → option (Z + lua_Number)) (E : Lingeling) w :
  let cls := fresh (dom (tables (L w))) in
  let h := lglinit_ret E (engine (L w)) in
  ∃ w' fnew r st1,
    luaopen_Solver w = (Ret 1, w')
    ∧ fields w' !! (cls, "new"%string) = Some fnew
    ∧ call_function luaO_str2num E w' fnew [] = Some (Ret 1, st1)
    ∧ stack st1 = [LUserdata r]
    ∧ is_session st1 cls r h
    ∧ engine st1 = engine (L w) ++ [Lglinit]
    ∧ ∀ name fn args, (name, fn) ∈ methods →
        ∃ rf c, fields w' !! (cls, name) = Some (LFunction rf)
                ∧ closures w' !! rf = Some c
                ∧ c_fn c = fn
                ∧ get_lgl (enter (default LNil (head (c_upvalues c)))
                             (LUserdata r :: args) st1) =
                    (Ret h, enter (default LNil (head (c_upvalues c)))
                              (LUserdata r :: args) st1).
Proof.
  intros cls h.
  destruct (loaded_closures w) as (_ & Hm & _ & _). fold cls in Hm.
  destruct (Hm "new"%string F_Solver_new) as (rnew & Hfnew & _ & Hcnew); [in_list |].
  destruct (Solver_new_session E (enter (LTable cls) [] (L (loaded w))) cls eq_refl eq_refl)
    as (r & st1 & Hrun & Hstk & _ & Hses & Heng).
  exists (loaded w), (LFunction rnew), r, st1.
  split; [apply luaopen_Solver_run |].
  split; [done |].
  split. { unfold call_function. rewrite Hcnew. simpl. unfold call_closure.
           f_equal. exact Hrun. }
  split; [done |]. split; [done |]. split; [done |].
  intros name fn args Hin.
  destruct (Hm name fn Hin) as (rf & Hf & _ & Hc).
  exists rf, (mkCClosure fn [LTable cls]).
  split; [done |]. split; [done |]. split; [done |]. simpl.
  apply (get_lgl_session _ cls r h args); done.
Qed.

(** X13.  The fields of the class are the six that the loader sets and no
    others.  For a name that had no field in the new table, the class has a
    C function under that name exactly when the field map
    [luaopen_grazil_bindings_lingeling_Solver] has one, and it is a closure
    of the same function; the only other field is [__index], the class
    table itself. *)
Theorem luaopen_fields_agree
    (luaO_str2num : string → option (Z + lua_Number)) (E : Lingeling) w name :
  let cls := fresh (dom (tables (L w))) in
  fields w !! (cls, name) = None →
  ∃ w', luaopen_Solver w = (Ret 1, w')
    ∧ match luaopen_grazil_bindings_lingeling_Solver luaO_str2num E name with
      | Some f =>
          ∃ rf c, fields w' !! (cls, name) = Some (LFunction rf)
                  ∧ closures w' !! rf = Some c
                  ∧ cfunction_body luaO_str2num E (c_fn c) = f
      | None =>
          fields w' !! (cls, name) =
            if bool_decide (name = "__index"%string) then Some (LTable cls) else None
      end.
Proof.
  intros cls Hnone. exists (loaded w). split; [apply luaopen_Solver_run |].
  destruct (loaded_closures w) as (_ & Hm & Hgc & Hidx). fold cls in Hm, Hgc, Hidx.
  assert (Hmethod : ∀ fn, (name, fn) ∈ methods →
            ∃ rf c, fields (loaded w) !! (cls, name) = Some (LFunction rf)
                    ∧ closures (loaded w) !! rf = Some c
                    ∧ c_fn c = fn).
  { intros fn Hin. destruct (Hm name fn Hin) as (rf & Hf & Hold & Hc).
    by exists rf, (mkCClosure fn [LTable cls]). }
  unfold luaopen_grazil_bindings_lingeling_Solver.
  destruct (decide (name = "new"%string)) as [-> | Hn1].
  { destruct (Hmethod F_Solver_new) as (rf & c & Hf & Hc & Hfn); [in_list |].
    simpl. exists rf, c. by rewrite Hfn. }
  rewrite bool_decide_eq_false_2 by done.
  destruct (decide (name = "addDIMACSequence"%string)) as [-> | Hn2].
  { destruct (Hmethod F_Solver_addDIMACSSeqence) as (rf & c & Hf & Hc & Hfn); [in_list |].
    simpl. exists rf, c. by rewrite Hfn. }
  rewrite bool_decide_eq_false_2 by done.
  destruct (decide (name = "isSatisfiable"%string)) as [-> | Hn3].
  { destruct (Hmethod F_Solver_isSatisfiable) as (rf & c & Hf & Hc & Hfn); [in_list |].
    simpl. exists rf, c. by rewrite Hfn. }
  rewrite bool_decide_eq_false_2 by done.
  destruct (decide (name = "query"%string)) as [-> | Hn4].
  { destruct (Hmethod F_Solver_query) as (rf & c & Hf & Hc & Hfn); [in_list |].
    simpl. exists rf, c. by rewrite Hfn. }
  rewrite bool_decide_eq_false_2 by done.
  destruct (decide (name = "__gc"%string)) as [-> | Hn5].
  { destruct Hgc as (rf & Hf & Hold & Hc).
    simpl. by exists rf, (mkCClosure F_Solver_gc []). }
  rewrite bool_decide_eq_false_2 by done.
  destruct (decide (name = "__index"%string)) as [-> | Hn6].
  { by rewrite bool_decide_eq_true_2. }
  rewrite bool_decide_eq_false_2 by done.
  rewrite loaded_fields_other; [done |].
  intros _ Hin. unfold class_fields in Hin.
  repeat (apply elem_of_cons in Hin as [Hin | Hin]; [done |]).
  by apply elem_of_nil in Hin.
Qed.

Lemma luaopen_fields_agree_witness :
  let cls := fresh (dom (tables (L demo_world))) in
  ∃ w', luaopen_Solver demo_world = (Ret 1, w')
    ∧ match luaopen_grazil_bindings_lingeling_Solver decimal_str2num demo_engine "query" with
      | Some f =>
          ∃ rf c, fields w' !! (cls, "query"%string) = Some (LFunction rf)
                  ∧ closures w' !! rf = Some c
                  ∧ cfunction_body decimal_str2num demo_engine (c_fn c) = f
      | None =>
          fields w' !! (cls, "query"%string) =
            if bool_decide ("query"%string = "__index"%string)
            then Some (LTable cls) else None
      end.
Proof.
  apply (luaopen_fields_agree decimal_str2num demo_engine demo_world "query").
  reflexivity.
Defined.

(** * The host interface of MATLAB *)

(** ** Strings and the search path *)

Lemma append_cons (c : ascii) (a b : string) :
  String c a +:+ b = String c (a +:+ b).
Proof. reflexivity. Qed.

Lemma append_nil_r (a : string) : a +:+ EmptyString = a.
Proof.
  induction a as [| c a IH]; [done |]. by rewrite append_cons, IH.
Qed.

Lemma append_assoc (a b c : string) : (a +:+ b) +:+ c = a +:+ (b +:+ c).
Proof.
  induction a as [| x a IH]; [done |]. by rewrite !append_cons, IH.
Qed.

Lemma string_length_app (a b : string) :
  String.length (a +:+ b) = (String.length a + String.length b)%nat.
Proof.
  induction a as [| c a IH]; [done |]. rewrite append_cons. simpl. by rewrite IH.
Qed.

Lemma c_str_app (a b : string) : c_str (c_str a +:+ b) = c_str a +:+ c_str b.
Proof.
  induction a as [| c a IH]; [done |]. simpl.
  destruct (Ascii.eqb c "000") eqn:Hc; [done |].
  rewrite !append_cons. simpl. by rewrite Hc, IH.
Qed.

Lemma c_str_idemp (a : string) : c_str (c_str a) = c_str a.
Proof.
  pose proof (c_str_app a EmptyString) as H.
  by rewrite !append_nil_r in H.
Qed.

Lemma set_L_id w : set_L (L w) w = w.
Proof. by destruct w. Qed.

Lemma lift_Ret {A} (m : M A) w a st :
  m (L w) = (Ret a, st) → lift m w = (Ret a, set_L st w).
Proof. unfold lift. by intros ->. Qed.

(** [lua_setfield (L, -2, name)] on pushed values. *)
Lemma lua_setfield_pushed name w st r t v :
  L w = push v (push (LTable r) st) →
  tables st !! r = Some t →
  v ≠ LNil →
  lua_setfield (-2) name w =
    (Ret tt, set_fields (<[(r, name) := v]> (fields w)) (set_L (push (LTable r) st) w)).
Proof.
  intros HL Ht Hv. unfold lua_setfield. rewrite HL.
  rewrite index2value_below_top, last_push.
  change (tables (push v (push (LTable r) st))) with (tables st). rewrite Ht.
  rewrite unpush. by destruct v.
Qed.

(** [setLuaPath] when the buffer is large enough: the search path of
    [package] gets one more template. *)
Lemma setLuaPath_run luaO_tostring path w pk t p :
  fields w !! (globals w, "package"%string) = Some (LTable pk) →
  tables (L w) !! pk = Some t →
  fields w !! (pk, "path"%string) = Some (LString p) →
  (String.length (c_str p +:+ ";" +:+ c_str path +:+ "/?.lua") < 1024)%nat →
  setLuaPath luaO_tostring path w =
    (Ret 0, set_fields (<[(pk, "path"%string) :=
                           LString (c_str p +:+ ";" +:+ c_str path +:+ "/?.lua")]>
                          (fields w)) w).
Proof.
  intros Hpk Ht Hp Hlen. unfold setLuaPath.
  rewrite !string_length_app in Hlen. simpl in Hlen.
  destruct w as [st cl fl gl]. cbn [L fields globals closures] in Hpk, Ht, Hp.
  set (w1 := mkWorld (push (LTable pk) st) cl fl gl).
  rewrite (wbind_Ret _ _ _ (ttype (LTable pk)) w1)
    by (unfold lua_getglobal; cbn [L fields globals]; by rewrite Hpk).
  set (w2 := mkWorld (push (LString p) (push (LTable pk) st)) cl fl gl).
  rewrite (wbind_Ret _ _ w1 (ttype (LString p)) w2).
  2:{ unfold lua_getfield, w1. cbn [L fields]. rewrite index2value_top.
      change (tables (push (LTable pk) st)) with (tables st). by rewrite Ht, Hp. }
  rewrite (wbind_Ret _ _ w2 (Some p) w2).
  2:{ unfold lua_tostring, w2. cbn [L]. by rewrite index2value_top. }
  rewrite (wbind_Ret _ _ w2 (c_str p) w2).
  2:{ unfold strcpy. replace (String.length (c_str p) <? 1024)%nat with true; [done |].
      symmetry. apply Nat.ltb_lt. lia. }
  rewrite (wbind_Ret _ _ w2 (c_str p +:+ ";") w2).
  2:{ unfold strcat. simpl (c_str ";").
      replace (String.length (c_str p +:+ ";") <? 1024)%nat with true; [done |].
      symmetry. apply Nat.ltb_lt. rewrite string_length_app. simpl. lia. }
  rewrite (wbind_Ret _ _ w2 ((c_str p +:+ ";") +:+ c_str path) w2).
  2:{ unfold strcat.
      replace (String.length ((c_str p +:+ ";") +:+ c_str path) <? 1024)%nat with true;
        [done |].
      symmetry. apply Nat.ltb_lt. rewrite !string_length_app. simpl. lia. }
  set (str := c_str p +:+ ";" +:+ c_str path +:+ "/?.lua").
  assert (Hassoc : ((c_str p +:+ ";") +:+ c_str path) +:+ "/?.lua" = str).
  { subst str. by rewrite !append_assoc. }
  rewrite (wbind_Ret _ _ w2 str w2).
  2:{ unfold strcat. simpl (c_str "/?.lua"). rewrite Hassoc.
      replace (String.length str <? 1024)%nat with true; [done |].
      symmetry. apply Nat.ltb_lt. subst str. rewrite !string_length_app. simpl. lia. }
  rewrite (wbind_Ret _ _ w2 tt w1).
  2:{ unfold lift, w2, w1. cbn [L set_L closures fields globals].
      by rewrite pop1_push. }
  assert (Hstr : c_str str = str).
  { subst str. rewrite c_str_app. f_equal.
    change (";" +:+ c_str path +:+ "/?.lua") with (String ";" (c_str path +:+ "/?.lua")).
    simpl. f_equal. by rewrite c_str_app. }
  set (w3 := mkWorld (push (LString str) (push (LTable pk) st)) cl fl gl).
  rewrite (wbind_Ret _ _ w1 tt w3)
    by (unfold lua_pushstring, w1, w3; cbn [L set_L closures fields globals];
        by rewrite Hstr).
  set (w4 := mkWorld (push (LTable pk) st) cl (<[(pk, "path"%string) := LString str]> fl) gl).
  rewrite (wbind_Ret _ _ w3 tt w4).
  2:{ by rewrite (lua_setfield_pushed _ _ st pk t (LString str)). }
  rewrite (wbind_Ret _ _ w4 tt (mkWorld st cl (<[(pk, "path"%string) := LString str]> fl) gl)).
  2:{ unfold lift, w4. cbn [L set_L closures fields globals]. by rewrite pop1_push. }
  done.
Qed.

(** ** The loop over the pairs *)

Lemma xbind_Ret {A B} (m : X A) (k : A → X B) h a h' :
  m h = (MexRet a, h') → xbind m k h = k a h'.
Proof. unfold xbind. by intros ->. Qed.

Lemma lua_Ret {A} (m : W A) w a w' mat p :
  m w = (Ret a, w') →
  lua m (mkHost (Some w) mat p) = (MexRet a, mkHost (Some w') mat p).
Proof. unfold lua. simpl. by intros ->. Qed.

Lemma c_int_fits z h : fits_int z → c_int z h = (MexRet z, h).
Proof. intros Hz. unfold c_int. by rewrite decide_True. Qed.

Lemma cast_num_exact n : Z.abs n < 2 ^ 53 → cast_num n = FFinite n 0.
Proof. intros Hn. unfold cast_num. by rewrite (proj2 (Z.ltb_lt _ _) Hn). Qed.

Lemma fits_int_exact n : fits_int n → Z.abs n < 2 ^ 53.
Proof.
  unfold fits_int, INT_MIN, INT_MAX. change (2 ^ 53) with 9007199254740992. lia.
Qed.

Lemma int_of_double_int n : fits_int n → int_of_double (FFinite n 0) = Some n.
Proof.
  intros Hn. unfold int_of_double. change (0 <=? 0) with true. cbv iota zeta.
  rewrite Z.pow_0_r, Z.mul_1_r. by rewrite decide_True.
Qed.

Lemma c_int_of_double_int n h :
  fits_int n → c_int_of_double (cast_num n) h = (MexRet n, h).
Proof.
  intros Hn. unfold c_int_of_double.
  by rewrite (cast_num_exact n (fits_int_exact n Hn)), int_of_double_int.
Qed.

Lemma xfor_each_app l1 l2 body h :
  xfor_each (l1 ++ l2) body h =
  (xfor_each l1 body ;; xfor_each l2 body)%X h.
Proof.
  revert h. induction l1 as [| i l1 IH]; intros h; simpl; [done |].
  unfold xbind in *. by destruct (body i h) as [[a | id msg | |] h1].
Qed.

(** One entry of the table on the top of the stack is read as a number. *)
Lemma read_entry luaO_str2num (k : lua_Number → X unit) w rt t j c mat p :
  index2value (-1) (L w) = Some (LTable rt) →
  tables (L w) !! rt = Some t →
  t_int t !! j = Some (LInteger c) →
  (lua (lua_rawgeti (-1) j) ;;
   do x <- lua (lua_tonumber luaO_str2num (-1)) ;
   k x)%X (mkHost (Some w) mat p) =
  k (cast_num c) (mkHost (Some (set_L (push (LInteger c) (L w)) w)) mat p).
Proof.
  intros Htop Ht Hj.
  rewrite (xbind_Ret _ _ _ (ttype (LInteger c))
             (mkHost (Some (set_L (push (LInteger c) (L w)) w)) mat p)).
  2:{ apply lua_Ret. unfold lua_rawgeti. by rewrite Htop, Ht, Hj. }
  rewrite (xbind_Ret _ _ _ (cast_num c)
             (mkHost (Some (set_L (push (LInteger c) (L w)) w)) mat p)).
  2:{ apply lua_Ret. unfold lua_tonumber. cbn [L set_L]. by rewrite value_at_top. }
  done.
Qed.

Lemma lua_pop_pushed v w mat p :
  lua (lift (lua_pop 1)) (mkHost (Some (set_L (push v (L w)) w)) mat p) =
    (MexRet tt, mkHost (Some w) mat p).
Proof.
  rewrite (lua_Ret _ _ tt w); [done |].
  unfold lift. cbn [L set_L]. rewrite pop1_push. by destruct w.
Qed.

Section Loop.

Context (luaO_str2num : string → option (Z + lua_Number)).
Context (P : Platform).

(** One round of the loop. *)
Lemma edge_step_run n i w rt t u v mat p :
  index2value (-1) (L w) = Some (LTable rt) →
  tables (L w) !! rt = Some t →
  t_int t !! (2 * i + 1) = Some (LInteger u) →
  t_int t !! (2 * i + 2) = Some (LInteger v) →
  0 <= i → fits_int (2 * i + 2) →
  edge_defined n (length mat) (u, v) →
  edge_step luaO_str2num n i (mkHost (Some w) mat p) =
    (MexRet tt,
     mkHost (Some w) (<[Z.to_nat (cell n u v) := FFinite 1 0]> mat)
       (p ++ [edge_line (u - 1) (v - 1)])).
Proof.
  intros Htop Ht Hu Hv Hi Hfit (Hfu & Hfv & Hu1 & Hv1 & Hnu & Hc & Hin).
  cbn [fst snd] in *.
  unfold edge_step.
  rewrite (xbind_Ret _ _ _ (2 * i + 1) (mkHost (Some w) mat p)).
  2:{ apply c_int_fits. revert Hfit. unfold fits_int, INT_MIN, INT_MAX. lia. }
  rewrite (read_entry luaO_str2num _ w rt t _ u) by done.
  rewrite (xbind_Ret _ _ _ u _ (c_int_of_double_int u _ Hfu)).
  rewrite (xbind_Ret _ _ _ tt _ (lua_pop_pushed _ w mat p)).
  rewrite (xbind_Ret _ _ _ (2 * i + 2) (mkHost (Some w) mat p)) by (by apply c_int_fits).
  rewrite (read_entry luaO_str2num _ w rt t _ v) by done.
  rewrite (xbind_Ret _ _ _ v _ (c_int_of_double_int v _ Hfv)).
  rewrite (xbind_Ret _ _ _ tt _ (lua_pop_pushed _ w mat p)).
  rewrite (xbind_Ret _ _ _ (u - 1) _ (c_int_fits _ _ Hu1)).
  rewrite (xbind_Ret _ _ _ (v - 1) _ (c_int_fits _ _ Hv1)).
  rewrite (xbind_Ret _ _ _ tt (mkHost (Some w) mat (p ++ [edge_line (u - 1) (v - 1)])))
    by done.
  rewrite (xbind_Ret _ _ _ (n * (u - 1)) _ (c_int_fits _ _ Hnu)).
  rewrite (xbind_Ret _ _ _ (cell n u v) _ (c_int_fits _ _ Hc)).
  unfold store_outMatrix. cbn [outMatrix].
  rewrite (proj2 (Z.leb_le _ _)) by lia.
  rewrite (proj2 (Z.ltb_lt _ _)) by lia.
  done.
Qed.

Lemma length_set_cells n edges mat : length (set_cells n edges mat) = length mat.
Proof.
  revert mat. induction edges as [| e edges IH]; intros mat; [done |].
  change (set_cells n (e :: edges) mat)
    with (set_cells n edges (<[Z.to_nat (cell n e.1 e.2) := FFinite 1 0]> mat)).
  rewrite IH. apply length_insert.
Qed.

(** The loop, from the round [i0] on. *)
Lemma edges_loop n w rt t edges : ∀ i0 mat p,
  index2value (-1) (L w) = Some (LTable rt) →
  tables (L w) !! rt = Some t →
  (∀ (j : nat) e, edges !! j = Some e →
     t_int t !! (2 * (i0 + Z.of_nat j) + 1) = Some (LInteger e.1)
     ∧ t_int t !! (2 * (i0 + Z.of_nat j) + 2) = Some (LInteger e.2)) →
  0 <= i0 → fits_int (2 * (i0 + Z.of_nat (length edges))) →
  Forall (edge_defined n (length mat)) edges →
  xfor_each (seqZ i0 (Z.of_nat (length edges))) (edge_step luaO_str2num n)
    (mkHost (Some w) mat p) =
    (MexRet tt, mkHost (Some w) (set_cells n edges mat) (p ++ edge_lines edges)).
Proof.
  intros i0 mat p Htop Ht. revert i0 mat p.
  induction edges as [| [u v] edges IH]; intros i0 mat p Hitems Hi0 Hfit Hdef.
  { simpl. by rewrite app_nil_r. }
  replace (Z.of_nat (length ((u, v) :: edges))) with (Z.succ (Z.of_nat (length edges)))
    by (simpl; lia).
  rewrite seqZ_cons by lia. rewrite Z.pred_succ. cbn [xfor_each].
  destruct (Hitems 0%nat (u, v) eq_refl) as [Hu Hv].
  replace (i0 + Z.of_nat 0) with i0 in Hu, Hv by lia.
  apply Forall_cons in Hdef as [Hd Hdef].
  simpl length in Hfit.
  rewrite (xbind_Ret _ _ _ tt _
             (edge_step_run n i0 w rt t u v mat p Htop Ht Hu Hv Hi0
                ltac:(revert Hfit; unfold fits_int, INT_MIN, INT_MAX; lia) Hd)).
  rewrite IH.
  - simpl. unfold edge_lines. csimpl. by rewrite <- app_assoc.
  - intros j e He. specialize (Hitems (S j) e He).
    replace (Z.succ i0 + Z.of_nat j) with (i0 + Z.of_nat (S j)) by lia. done.
  - lia.
  - revert Hfit. unfold fits_int, INT_MIN, INT_MAX. lia.
  - rewrite length_insert. done.
Qed.

End Loop.

Lemma index2value_below2 a b c st :
  index2value (-3) (push c (push b (push a st))) = Some a.
Proof.
  unfold index2value, push. simpl. rewrite !length_app. simpl.
  rewrite (proj2 (Z.leb_le _ _)) by lia.
  match goal with |- context [Z.to_nat ?x] =>
    replace (Z.to_nat x) with (length (stack st)) by lia end.
  rewrite <- !app_assoc. simpl. by rewrite list_lookup_middle.
Qed.

Lemma unpush2 a b st :
  set_stack (take (length (stack (push b (push a st))) - 2)%nat
               (stack (push b (push a st)))) (push b (push a st)) = st.
Proof. pose proof (pop2_push2 a b st) as H. unfold lua_pop in H. congruence. Qed.

Lemma edge_items_length edges : length (edge_items edges) = (2 * length edges)%nat.
Proof. induction edges as [| e edges IH]; simpl; [done | lia]. Qed.

Lemma edge_items_lookup edges (j : nat) e :
  edges !! j = Some e →
  edge_items edges !! (2 * j)%nat = Some (LInteger e.1)
  ∧ edge_items edges !! (2 * j + 1)%nat = Some (LInteger e.2).
Proof.
  revert j. induction edges as [| e' edges IH]; intros j Hj; [done |].
  destruct j as [| j]; simpl in Hj.
  - injection Hj as ->. done.
  - destruct (IH j Hj) as [H1 H2].
    replace (2 * S j)%nat with (S (S (2 * j))) by lia.
    replace (S (S (2 * j)) + 1)%nat with (S (S (2 * j + 1))) by lia.
    done.
Qed.

Section Parts.

Context (luaO_str2num : string → option (Z + lua_Number)).
Context (P : Platform).

(** The interpreter is made and the search path is set. *)
Lemma start_run (k : X unit) h pk tpk p0 :
  let w0 := luaL_openlibs_ret P (luaL_newstate_ret P) in
  let path := c_str p0 +:+ ";" +:+ c_str (GRAZILPATH P) +:+ "/?.lua" in
  fields w0 !! (globals w0, "package"%string) = Some (LTable pk) →
  tables (L w0) !! pk = Some tpk →
  fields w0 !! (pk, "path"%string) = Some (LString p0) →
  (String.length path < 1024)%nat →
  (luaL_newstate P ;;
   luaL_openlibs P ;;
   lua (setLuaPath (luaO_tostring_ret P) (GRAZILPATH P)) ;;
   k)%X h =
  k (mkHost (Some (set_fields (<[(pk, "path"%string) := LString path]> (fields w0)) w0))
       (outMatrix h) (printed h)).
Proof.
  intros w0 path Hpk Htpk Hp0 Hlen.
  rewrite (xbind_Ret _ _ _ tt (mkHost (Some (luaL_newstate_ret P)) (outMatrix h) (printed h)))
    by done.
  rewrite (xbind_Ret _ _ _ tt (mkHost (Some w0) (outMatrix h) (printed h))) by done.
  rewrite (xbind_Ret _ _ _ 0
             (mkHost (Some (set_fields (<[(pk, "path"%string) := LString path]> (fields w0)) w0))
                (outMatrix h) (printed h))); [done |].
  apply lua_Ret. by apply (setLuaPath_run _ _ _ pk tpk p0).
Qed.

(** [params] is set, under the chunk. *)
Lemma set_params_run (k : X unit) n w chunk mat p :
  (lua (lift lua_newtable) ;;
   lua (lua_pushstring "n") ;;
   lua (lift (lua_pushinteger n)) ;;
   lua (lua_rawset (-3)) ;;
   lua (lua_setglobal "params") ;;
   k)%X (mkHost (Some (set_L (push chunk (L w)) w)) mat p) =
    k (mkHost (Some (mkWorld
                     (push chunk
                        (set_tables (<[fresh (dom (tables (L w))) := mkTable ∅ None None]>
                                       (tables (L w))) (L w)))
                     (closures w)
                     (<[(globals w, "params"%string) := LTable (fresh (dom (tables (L w))))]>
                        (<[(fresh (dom (tables (L w))), "n"%string) := LInteger n]>
                           (fields w)))
                     (globals w)))
         mat p).
Proof.
  destruct w as [st cl fl gl]. cbn [L closures fields globals set_L].
  set (pr := fresh (dom (tables st))).
  set (st1 := push chunk st).
  set (st2 := set_tables (<[pr := mkTable ∅ None None]> (tables st)) st1).
  rewrite (xbind_Ret _ _ _ tt (mkHost (Some (mkWorld (push (LTable pr) st2) cl fl gl)) mat p)).
  2:{ apply lua_Ret. unfold lift. cbn [L set_L closures fields globals]. done. }
  rewrite (xbind_Ret _ _ _ tt
             (mkHost (Some (mkWorld (push (LString "n") (push (LTable pr) st2)) cl fl gl)) mat p)).
  2:{ apply lua_Ret. done. }
  rewrite (xbind_Ret _ _ _ tt
             (mkHost (Some (mkWorld (push (LInteger n) (push (LString "n") (push (LTable pr) st2)))
                              cl fl gl)) mat p)).
  2:{ apply lua_Ret. done. }
  rewrite (xbind_Ret _ _ _ tt
             (mkHost (Some (mkWorld (push (LTable pr) st2) cl
                              (<[(pr, "n"%string) := LInteger n]> fl) gl)) mat p)).
  2:{ apply lua_Ret. unfold lua_rawset. cbn [L fields closures globals].
      rewrite index2value_below2, index2value_below_top, index2value_top.
      change (tables (push _ (push _ (push _ st2)))) with (tables st2).
      replace (tables st2 !! pr) with (Some (mkTable ∅ None None))
        by (unfold st2; simpl; by rewrite lookup_insert_eq).
      unfold set_fields, set_L. cbn [L fields closures globals].
      by rewrite unpush2. }
  rewrite (xbind_Ret _ _ _ tt
             (mkHost (Some (mkWorld st2 cl
                              (<[(gl, "params"%string) := LTable pr]>
                                 (<[(pr, "n"%string) := LInteger n]> fl)) gl)) mat p)).
  2:{ apply lua_Ret. unfold lua_setglobal. cbn [L fields closures globals].
      rewrite last_push. unfold set_fields, set_L. cbn [L fields closures globals].
      by rewrite unpush. }
  unfold st2, st1. by destruct st.
Qed.

(** The number of pairs: half the length of the table on the top of the
    stack. *)
Lemma read_count (k : Z → X unit) w rt t edges tail mat p :
  index2value (-1) (L w) = Some (LTable rt) →
  tables (L w) !! rt = Some t →
  t_int t = seq_table (edge_items edges ++ tail) →
  (length tail <= 1)%nat →
  fits_int (2 * Z.of_nat (length edges) + 1) →
  (lua (lift (lua_len (-1))) ;;
   do x <- lua (lua_tonumber luaO_str2num (-1)) ;
   do m <- c_int_of_double (half x) ;
   lua (lift (lua_pop 1)) ;;
   k m)%X (mkHost (Some w) mat p) =
    k (Z.of_nat (length edges)) (mkHost (Some w) mat p).
Proof.
  intros Htop Ht Hseq Htail Hfit.
  set (len := Z.of_nat (length (edge_items edges ++ tail))).
  assert (Hlen : len = 2 * Z.of_nat (length edges) + Z.of_nat (length tail)).
  { unfold len. rewrite length_app, edge_items_length. lia. }
  rewrite (xbind_Ret _ _ _ tt (mkHost (Some (set_L (push (LInteger len) (L w)) w)) mat p)).
  2:{ apply lua_Ret. apply lift_Ret. rewrite (lua_len_table _ rt t) by done.
      by rewrite Hseq, luaH_getn_seq_table. }
  rewrite (xbind_Ret _ _ _ (cast_num len)
             (mkHost (Some (set_L (push (LInteger len) (L w)) w)) mat p)).
  2:{ apply lua_Ret. unfold lua_tonumber. cbn [L set_L]. by rewrite value_at_top. }
  assert (Hflen : fits_int len).
  { revert Hfit. unfold fits_int, INT_MIN, INT_MAX. lia. }
  rewrite (xbind_Ret _ _ _ (Z.of_nat (length edges))
             (mkHost (Some (set_L (push (LInteger len) (L w)) w)) mat p)).
  2:{ unfold c_int_of_double.
      rewrite (cast_num_exact len (fits_int_exact len Hflen)).
      unfold half, int_of_double. change (0 <=? 0 - 1) with false. cbv iota zeta.
      change (2 ^ (- (0 - 1))) with 2.
      replace (Z.quot len 2) with (Z.of_nat (length edges)).
      - rewrite decide_True; [done |].
        revert Hfit. unfold fits_int, INT_MIN, INT_MAX. lia.
      - rewrite Z.quot_div_nonneg by lia. rewrite Hlen.
        destruct tail as [| x [| y tail]]; simpl in Htail |- *; [| | lia].
        + rewrite Z.add_0_r, Z.mul_comm. by rewrite Z.div_mul.
        + apply (Z.div_unique _ _ _ 1); lia. }
  by rewrite (xbind_Ret _ _ _ tt _ (lua_pop_pushed _ w mat p)).
Qed.

(** The entries of the table, pair by pair. *)
Lemma edge_entries (t : Table) edges tail (i0 : Z) (j : nat) e :
  t_int t = seq_table (edge_items edges ++ tail) →
  edges !! (Z.to_nat i0 + j)%nat = Some e →
  0 <= i0 →
  t_int t !! (2 * (i0 + Z.of_nat j) + 1) = Some (LInteger e.1)
  ∧ t_int t !! (2 * (i0 + Z.of_nat j) + 2) = Some (LInteger e.2).
Proof.
  intros Hseq He Hi0.
  destruct (edge_items_lookup edges _ e He) as [H1 H2].
  rewrite Hseq, !lookup_seq_table.
  assert (Hj : (Z.to_nat i0 + j < length edges)%nat) by (by apply lookup_lt_Some in He).
  rewrite !decide_True by (rewrite length_app, edge_items_length; lia).
  replace (Z.to_nat (2 * (i0 + Z.of_nat j) + 1 - 1)) with (2 * (Z.to_nat i0 + j))%nat by lia.
  replace (Z.to_nat (2 * (i0 + Z.of_nat j) + 2 - 1)) with (2 * (Z.to_nat i0 + j) + 1)%nat
    by lia.
  split; apply lookup_app_l_Some; done.
Qed.

(** The result is read and the interpreter is closed. *)
Lemma read_edges_run n w rt t edges tail mat p :
  index2value (-1) (L w) = Some (LTable rt) →
  tables (L w) !! rt = Some t →
  t_int t = seq_table (edge_items edges ++ tail) →
  (length tail <= 1)%nat →
  fits_int (2 * Z.of_nat (length edges) + 1) →
  Forall (edge_defined n (length mat)) edges →
  (lua (lift (lua_len (-1))) ;;
   do x <- lua (lua_tonumber luaO_str2num (-1)) ;
   do m <- c_int_of_double (half x) ;
   lua (lift (lua_pop 1)) ;;
   xfor_each (seqZ 0 m) (edge_step luaO_str2num n) ;;
   lua_close)%X (mkHost (Some w) mat p) =
    (MexRet tt, mkHost None (set_cells n edges mat) (p ++ edge_lines edges)).
Proof.
  intros Htop Ht Hseq Htail Hfit Hdef.
  rewrite (read_count _ w rt t edges tail) by done.
  rewrite (xbind_Ret _ _ _ tt
             (mkHost (Some w) (set_cells n edges mat) (p ++ edge_lines edges))).
  2:{ apply (edges_loop luaO_str2num n w rt t edges 0 mat p); try done.
      - intros j e He. apply (edge_entries t edges tail 0 j e); [done | done | lia].
      - revert Hfit. unfold fits_int, INT_MIN, INT_MAX. lia. }
  done.
Qed.

(** A pair that cannot be stored. *)
Lemma edge_step_undefined n i w rt t u v mat p :
  index2value (-1) (L w) = Some (LTable rt) →
  tables (L w) !! rt = Some t →
  t_int t !! (2 * i + 1) = Some (LInteger u) →
  t_int t !! (2 * i + 2) = Some (LInteger v) →
  0 <= i → fits_int (2 * i + 2) →
  fits_int u → fits_int v →
  ¬ edge_defined n (length mat) (u, v) →
  (edge_step luaO_str2num n i (mkHost (Some w) mat p)).1 = MexUndefined.
Proof.
  intros Htop Ht Hu Hv Hi Hfit Hfu Hfv Hnot.
  unfold edge_step.
  rewrite (xbind_Ret _ _ _ (2 * i + 1) (mkHost (Some w) mat p)).
  2:{ apply c_int_fits. revert Hfit. unfold fits_int, INT_MIN, INT_MAX. lia. }
  rewrite (read_entry luaO_str2num _ w rt t _ u) by done.
  rewrite (xbind_Ret _ _ _ u _ (c_int_of_double_int u _ Hfu)).
  rewrite (xbind_Ret _ _ _ tt _ (lua_pop_pushed _ w mat p)).
  rewrite (xbind_Ret _ _ _ (2 * i + 2) (mkHost (Some w) mat p)) by (by apply c_int_fits).
  rewrite (read_entry luaO_str2num _ w rt t _ v) by done.
  rewrite (xbind_Ret _ _ _ v _ (c_int_of_double_int v _ Hfv)).
  rewrite (xbind_Ret _ _ _ tt _ (lua_pop_pushed _ w mat p)).
  destruct (decide (fits_int (u - 1))) as [Hu1 | Hu1].
  2:{ unfold xbind at 1, c_int at 1. by rewrite decide_False. }
  rewrite (xbind_Ret _ _ _ (u - 1) _ (c_int_fits _ _ Hu1)).
  destruct (decide (fits_int (v - 1))) as [Hv1 | Hv1].
  2:{ unfold xbind at 1, c_int at 1. by rewrite decide_False. }
  rewrite (xbind_Ret _ _ _ (v - 1) _ (c_int_fits _ _ Hv1)).
  rewrite (xbind_Ret _ _ _ tt (mkHost (Some w) mat (p ++ [edge_line (u - 1) (v - 1)])))
    by done.
  destruct (decide (fits_int (n * (u - 1)))) as [Hnu | Hnu].
  2:{ unfold xbind at 1, c_int at 1. by rewrite decide_False. }
  rewrite (xbind_Ret _ _ _ (n * (u - 1)) _ (c_int_fits _ _ Hnu)).
  destruct (decide (fits_int (cell n u v))) as [Hc | Hc].
  2:{ unfold xbind at 1, c_int at 1. by rewrite decide_False. }
  rewrite (xbind_Ret _ _ _ (cell n u v) _ (c_int_fits _ _ Hc)).
  unfold store_outMatrix. cbn [outMatrix].
  destruct ((0 <=? cell n u v) && (cell n u v <? Z.of_nat (length mat))) eqn:Hin; [| done].
  exfalso. apply Hnot. apply andb_true_iff in Hin as [H1 H2].
  apply Z.leb_le in H1. apply Z.ltb_lt in H2.
  unfold edge_defined. cbn [fst snd]. done.
Qed.

(** The loop stops at the first pair that cannot be stored. *)
Lemma read_edges_undefined n w rt t pre u v rest tail mat p :
  index2value (-1) (L w) = Some (LTable rt) →
  tables (L w) !! rt = Some t →
  t_int t = seq_table (edge_items (pre ++ (u, v) :: rest) ++ tail) →
  (length tail <= 1)%nat →
  fits_int (2 * Z.of_nat (length (pre ++ (u, v) :: rest)) + 1) →
  Forall (edge_defined n (length mat)) pre →
  fits_int u → fits_int v →
  ¬ edge_defined n (length mat) (u, v) →
  ((lua (lift (lua_len (-1))) ;;
    do x <- lua (lua_tonumber luaO_str2num (-1)) ;
    do m <- c_int_of_double (half x) ;
    lua (lift (lua_pop 1)) ;;
    xfor_each (seqZ 0 m) (edge_step luaO_str2num n) ;;
    lua_close)%X (mkHost (Some w) mat p)).1 = MexUndefined.
Proof.
  intros Htop Ht Hseq Htail Hfit Hpre Hfu Hfv Hnot.
  rewrite (read_count _ w rt t (pre ++ (u, v) :: rest) tail) by done.
  rewrite length_app in Hfit |- *. simpl length in Hfit |- *.
  replace (Z.of_nat (length pre + S (length rest)))
    with (Z.of_nat (length pre) + Z.succ (Z.of_nat (length rest))) by lia.
  rewrite seqZ_app by lia. rewrite Z.add_0_l.
  unfold xbind at 1. rewrite xfor_each_app.
  rewrite (xbind_Ret _ _ _ tt
             (mkHost (Some w) (set_cells n pre mat) (p ++ edge_lines pre))).
  2:{ apply (edges_loop luaO_str2num n w rt t pre 0 mat p); try done.
      - intros j e He.
        apply (edge_entries t (pre ++ (u, v) :: rest) tail 0 j e); [done | | lia].
        simpl. by apply lookup_app_l_Some.
      - revert Hfit. unfold fits_int, INT_MIN, INT_MAX. lia. }
  rewrite seqZ_cons by lia. cbn [xfor_each]. unfold xbind at 1.
  pose proof (edge_step_undefined n (Z.of_nat (length pre)) w rt t u v
                (set_cells n pre mat) (p ++ edge_lines pre) Htop Ht) as Hstep.
  destruct (edge_entries t (pre ++ (u, v) :: rest) tail (Z.of_nat (length pre)) 0 (u, v))
    as [Hu Hv]; [done | | lia |].
  { rewrite Nat2Z.id, Nat.add_0_r. by rewrite list_lookup_middle. }
  rewrite Z.add_0_r in Hu, Hv.
  specialize (Hstep Hu Hv ltac:(lia)
                ltac:(revert Hfit; unfold fits_int, INT_MIN, INT_MAX; lia) Hfu Hfv).
  rewrite length_set_cells in Hstep. specialize (Hstep Hnot).
  by destruct (edge_step _ _ _ _) as [[| | |] h'].
Qed.

End Parts.

(** The buffer of [setLuaPath] is too small: the copy runs over its end. *)
Lemma setLuaPath_overflow luaO_tostring path w pk t p :
  fields w !! (globals w, "package"%string) = Some (LTable pk) →
  tables (L w) !! pk = Some t →
  fields w !! (pk, "path"%string) = Some (LString p) →
  (1024 <= String.length (c_str p +:+ ";" +:+ c_str path +:+ "/?.lua"))%nat →
  (setLuaPath luaO_tostring path w).1 = Stuck.
Proof.
  intros Hpk Ht Hp Hlen. unfold setLuaPath.
  rewrite !string_length_app in Hlen. simpl in Hlen.
  destruct w as [st cl fl gl]. cbn [L fields globals closures] in Hpk, Ht, Hp.
  set (w1 := mkWorld (push (LTable pk) st) cl fl gl).
  rewrite (wbind_Ret _ _ _ (ttype (LTable pk)) w1)
    by (unfold lua_getglobal; cbn [L fields globals]; by rewrite Hpk).
  set (w2 := mkWorld (push (LString p) (push (LTable pk) st)) cl fl gl).
  rewrite (wbind_Ret _ _ w1 (ttype (LString p)) w2).
  2:{ unfold lua_getfield, w1. cbn [L fields]. rewrite index2value_top.
      change (tables (push (LTable pk) st)) with (tables st). by rewrite Ht, Hp. }
  rewrite (wbind_Ret _ _ w2 (Some p) w2).
  2:{ unfold lua_tostring, w2. cbn [L]. by rewrite index2value_top. }
  unfold strcpy.
  destruct (String.length (c_str p) <? 1024)%nat eqn:H1; [| done].
  apply Nat.ltb_lt in H1.
  rewrite (wbind_Ret _ _ w2 (c_str p) w2) by done.
  unfold strcat at 1. simpl (c_str ";").
  destruct (String.length (c_str p +:+ ";") <? 1024)%nat eqn:H2; [| done].
  apply Nat.ltb_lt in H2. rewrite string_length_app in H2. simpl in H2.
  rewrite (wbind_Ret _ _ w2 (c_str p +:+ ";") w2) by done.
  unfold strcat at 1.
  destruct (String.length ((c_str p +:+ ";") +:+ c_str path) <? 1024)%nat eqn:H3; [| done].
  apply Nat.ltb_lt in H3. rewrite !string_length_app in H3. simpl in H3.
  rewrite (wbind_Ret _ _ w2 ((c_str p +:+ ";") +:+ c_str path) w2) by done.
  unfold strcat at 1. simpl (c_str "/?.lua").
  destruct (String.length (((c_str p +:+ ";") +:+ c_str path) +:+ "/?.lua") <? 1024)%nat
    eqn:H4; [| done].
  apply Nat.ltb_lt in H4. rewrite !string_length_app in H4. simpl in H4. lia.
Qed.

Section Prefix.

Context (luaO_str2num : string → option (Z + lua_Number)).
Context (P : Platform).

(** Up to the call of the chunk. *)
Lemma getGraphFromLua_loaded buf n h pk p0 chunk :
  libs_ready P pk p0 →
  luaL_loadfile_ret P buf (load_world P pk p0) = (0, chunk) →
  getGraphFromLua luaO_str2num P buf n h =
    (do result <- lua_pcall P 0 LUA_MULTRET 0 ;
     xwhen (negb (result =? 0))
       (do msg <- lua (lua_tostring (luaO_tostring_ret P) (-1)) ;
        mexErrMsgIdAndTxt "MATLAB:grazil:runError" msg) ;;
     lua (lift (lua_len (-1))) ;;
     do x <- lua (lua_tonumber luaO_str2num (-1)) ;
     do m <- c_int_of_double (half x) ;
     lua (lift (lua_pop 1)) ;;
     xfor_each (seqZ 0 m) (edge_step luaO_str2num n) ;;
     lua_close)%X
      (mkHost (Some (script_world (luaL_openlibs_ret P (luaL_newstate_ret P)) pk
                       (new_path P p0) chunk n))
         (outMatrix h) (printed h)).
Proof.
  intros (Hpk & [tpk Htpk] & Hp0 & Hlen) Hload.
  unfold getGraphFromLua.
  rewrite (start_run P _ h pk tpk p0 Hpk Htpk Hp0 Hlen).
  fold (new_path P p0). fold (load_world P pk p0).
  rewrite (xbind_Ret _ _ _ 0
             (mkHost (Some (set_L (push chunk (L (load_world P pk p0)))
                              (load_world P pk p0))) (outMatrix h) (printed h))).
  2:{ unfold luaL_loadfile. apply lua_Ret. by rewrite Hload. }
  rewrite (xbind_Ret _ _ _ tt
             (mkHost (Some (set_L (push chunk (L (load_world P pk p0)))
                              (load_world P pk p0))) (outMatrix h) (printed h))) by done.
  rewrite set_params_run. reflexivity.
Qed.

End Prefix.

Lemma index2value_of_last st v :
  last (stack st) = Some v → index2value (-1) st = Some v.
Proof.
  intros Hl. apply last_Some in Hl as [s Hs]. by apply (index2value_last st s v).
Qed.

Lemma in_range_defined n len e :
  in_range n e → fits_int (n * n) → Z.of_nat len = n * n →
  edge_defined n len e.
Proof.
  destruct e as [u v]. unfold in_range, edge_defined, cell, fits_int, INT_MIN, INT_MAX.
  cbn [fst snd]. intros [Hu Hv] Hn Hlen.
  assert (0 <= n * (u - 1) <= n * (n - 1)) by nia.
  repeat split; nia.
Qed.

Section Outcomes.

Context (luaO_str2num : string → option (Z + lua_Number)).
Context (P : Platform).

(** A status that is not 0, with a string on the top of the stack. *)
Lemma report_status (k : X unit) id status w s mat p :
  status ≠ 0 →
  index2value (-1) (L w) = Some (LString s) →
  (xwhen (negb (status =? 0))
     (do msg <- lua (lua_tostring (luaO_tostring_ret P) (-1)) ;
      mexErrMsgIdAndTxt id msg) ;;
   k)%X (mkHost (Some w) mat p) =
    (error_of id s, mkHost (Some w) mat p).
Proof.
  intros Hst Htop.
  rewrite (proj2 (Z.eqb_neq _ _) Hst). cbn [negb xwhen].
  unfold xbind at 1.
  rewrite (xbind_Ret _ _ _ (Some s) (mkHost (Some w) mat p)).
  2:{ apply lua_Ret. unfold lua_tostring. by rewrite Htop. }
  unfold mexErrMsgIdAndTxt, error_of. by destruct (format_plain (c_str s)).
Qed.

Lemma getGraphFromLua_run_status buf n h pk p0 chunk status s :
  libs_ready P pk p0 →
  luaL_loadfile_ret P buf (load_world P pk p0) = (0, chunk) →
  chunk_fails P (script_world (luaL_openlibs_ret P (luaL_newstate_ret P)) pk
                   (new_path P p0) chunk n) status (LString s) →
  ∃ w, getGraphFromLua luaO_str2num P buf n h =
         (error_of "MATLAB:grazil:runError" s,
          mkHost (Some w) (outMatrix h) (printed h)).
Proof.
  intros Hlibs Hload (w & Hcall & Hst & Hlast).
  rewrite (getGraphFromLua_loaded luaO_str2num P buf n h pk p0 chunk Hlibs Hload).
  rewrite (xbind_Ret _ _ _ status (mkHost (Some w) (outMatrix h) (printed h))).
  2:{ unfold lua_pcall. simpl. apply lua_Ret. by rewrite Hcall. }
  exists w. apply report_status; [done |]. by apply index2value_of_last.
Qed.

Lemma getGraphFromLua_run buf n h pk p0 chunk edges tail :
  libs_ready P pk p0 →
  luaL_loadfile_ret P buf (load_world P pk p0) = (0, chunk) →
  chunk_returns P (script_world (luaL_openlibs_ret P (luaL_newstate_ret P)) pk
                     (new_path P p0) chunk n) (edge_items edges ++ tail) →
  (length tail <= 1)%nat →
  fits_int (2 * Z.of_nat (length edges) + 1) →
  Forall (edge_defined n (length (outMatrix h))) edges →
  getGraphFromLua luaO_str2num P buf n h =
    (MexRet tt,
     mkHost None (set_cells n edges (outMatrix h)) (printed h ++ edge_lines edges)).
Proof.
  intros Hlibs Hload (w & rt & t & Hcall & Hlast & Ht & Hseq & _) Htail Hfit Hdef.
  rewrite (getGraphFromLua_loaded luaO_str2num P buf n h pk p0 chunk Hlibs Hload).
  rewrite (xbind_Ret _ _ _ 0 (mkHost (Some w) (outMatrix h) (printed h))).
  2:{ unfold lua_pcall. simpl. apply lua_Ret. by rewrite Hcall. }
  rewrite (xbind_Ret _ _ _ tt (mkHost (Some w) (outMatrix h) (printed h))) by done.
  apply (read_edges_run luaO_str2num n w rt t edges tail); try done.
  by apply index2value_of_last.
Qed.

End Outcomes.

(** ** The properties *)

(** X14.  [setLuaPath] appends to the search path of [package]: the new
    path is the old one, a semicolon, the directory, and [/?.lua].  The
    path is built in an array of 1024 bytes without a check of the lengths:
    when the new path with its terminator does not fit, the function writes
    past the end of the array.  Nothing else in the state changes, and the
    stack is as before. *)
Theorem setLuaPath_appends (luaO_tostring : lua_value → string) path w pk t p :
  fields w !! (globals w, "package"%string) = Some (LTable pk) →
  tables (L w) !! pk = Some t →
  fields w !! (pk, "path"%string) = Some (LString p) →
  let new := c_str p +:+ ";" +:+ c_str path +:+ "/?.lua" in
  if decide (String.length new < 1024)%nat
  then setLuaPath luaO_tostring path w =
         (Ret 0, set_fields (<[(pk, "path"%string) := LString new]> (fields w)) w)
  else (setLuaPath luaO_tostring path w).1 = Stuck.
Proof.
  intros Hpk Ht Hp new. case_decide as Hlen.
  - by apply (setLuaPath_run _ _ _ pk t p).
  - apply (setLuaPath_overflow _ _ _ pk t p); try done. fold new. lia.
Qed.

Lemma setLuaPath_appends_witness :
  setLuaPath (luaO_tostring_ret demo_platform) "/opt/grazil" (demo_libs demo_world) =
    (Ret 0, set_fields (<[(2%positive, "path"%string) := LString "./?.lua;/opt/grazil/?.lua"]>
                          (fields (demo_libs demo_world))) (demo_libs demo_world)).
Proof.
  apply (setLuaPath_appends (luaO_tostring_ret demo_platform) "/opt/grazil"
           (demo_libs demo_world) 2 (mkTable ∅ None None) "./?.lua").
  - reflexivity.
  - reflexivity.
  - reflexivity.
Defined.

(** X15.  When the file does not load, [getGraphFromLua] leaves through
    [mexErrMsgIdAndTxt] with the identifier [MATLAB:grazil:loadError] and
    the message of the loader, which it passes as a [printf] format: a
    message with a conversion in it is undefined behaviour.  The array and
    the output are untouched.  The interpreter is not closed, and it is as
    the loader left it, with the search path extended and the message on
    its stack: the global [params] has not been set and the chunk has not
    been called. *)
Theorem getGraphFromLua_load_error
    (luaO_str2num : string → option (Z + lua_Number)) (P : Platform)
    buf n h pk p0 status s :
  libs_ready P pk p0 →
  luaL_loadfile_ret P buf (load_world P pk p0) = (status, LString s) →
  status ≠ 0 →
  getGraphFromLua luaO_str2num P buf n h =
    (error_of "MATLAB:grazil:loadError" s,
     mkHost (Some (set_L (push (LString s) (L (load_world P pk p0))) (load_world P pk p0)))
       (outMatrix h) (printed h)).
Proof.
  intros (Hpk & [tpk Htpk] & Hp0 & Hlen) Hload Hst.
  unfold getGraphFromLua.
  rewrite (start_run P _ h pk tpk p0 Hpk Htpk Hp0 Hlen).
  fold (new_path P p0). fold (load_world P pk p0).
  rewrite (xbind_Ret _ _ _ status
             (mkHost (Some (set_L (push (LString s) (L (load_world P pk p0)))
                              (load_world P pk p0))) (outMatrix h) (printed h))).
  2:{ unfold luaL_loadfile. apply lua_Ret. by rewrite Hload. }
  apply report_status; [done |].
  cbn [L set_L]. apply index2value_top.
Qed.

Lemma getGraphFromLua_load_error_witness :
  getGraphFromLua decimal_str2num demo_platform "none.lua" 3 demo_host =
    (MexError "MATLAB:grazil:loadError" "none.lua:1: unexpected symbol",
     mkHost (Some (set_L (push (LString "none.lua:1: unexpected symbol")
                            (L (load_world demo_platform 2 "./?.lua")))
                     (load_world demo_platform 2 "./?.lua")))
       (outMatrix demo_host) (printed demo_host)).
Proof.
  apply (getGraphFromLua_load_error decimal_str2num demo_platform "none.lua" 3 demo_host
           2 "./?.lua" 3 "none.lua:1: unexpected symbol").
  - split; [reflexivity |]. split; [eexists; reflexivity |].
    split; [reflexivity |]. vm_compute. lia.
  - reflexivity.
  - discriminate.
Defined.

(** After a load error the interpreter has no global [params]. *)
Example getGraphFromLua_load_error_no_params :
  (λ w, fields w !! (globals w, "params")) <$>
    interp (getGraphFromLua decimal_str2num demo_platform "none.lua" 3 demo_host).2
  = Some None.
Proof. vm_compute. reflexivity. Qed.

(** X16.  When the chunk fails, [getGraphFromLua] leaves with the
    identifier [MATLAB:grazil:runError] and the error message, again used as
    a format.  The chunk started in the state with the extended search path
    and the global [params] whose field [n] is the size.  The array and the
    output are untouched and the interpreter is not closed. *)
Theorem getGraphFromLua_run_error
    (luaO_str2num : string → option (Z + lua_Number)) (P : Platform)
    buf n h pk p0 chunk status s :
  libs_ready P pk p0 →
  luaL_loadfile_ret P buf (load_world P pk p0) = (0, chunk) →
  chunk_fails P (script_world (luaL_openlibs_ret P (luaL_newstate_ret P)) pk
                   (new_path P p0) chunk n) status (LString s) →
  ∃ h', getGraphFromLua luaO_str2num P buf n h =
          (error_of "MATLAB:grazil:runError" s, h')
        ∧ outMatrix h' = outMatrix h
        ∧ printed h' = printed h
        ∧ is_Some (interp h').
Proof.
  intros Hlibs Hload Hfail.
  destruct (getGraphFromLua_run_status luaO_str2num P buf n h pk p0 chunk status s
              Hlibs Hload Hfail) as [w Hrun].
  eexists. split; [exact Hrun |]. simpl. eauto.
Qed.

Lemma getGraphFromLua_run_error_witness :
  ∃ h', getGraphFromLua decimal_str2num demo_platform "fail.lua" 3 demo_host =
          (MexError "MATLAB:grazil:runError" "fail.lua:1: no graph", h')
        ∧ outMatrix h' = outMatrix demo_host
        ∧ printed h' = printed demo_host
        ∧ is_Some (interp h').
Proof.
  apply (getGraphFromLua_run_error decimal_str2num demo_platform "fail.lua" 3 demo_host
           2 "./?.lua" (LFunction 2) 2 "fail.lua:1: no graph").
  - split; [reflexivity |]. split; [eexists; reflexivity |].
    split; [reflexivity |]. vm_compute. lia.
  - reflexivity.
  - eexists. split; [reflexivity |]. split; [discriminate |]. vm_compute. reflexivity.
Defined.

(** A message with a percent sign: [100% wrong] has the conversion [% w]. *)
Example getGraphFromLua_percent_in_message :
  (getGraphFromLua decimal_str2num demo_platform "percent.lua" 3 demo_host).1 =
    MexUndefined.
Proof. vm_compute. reflexivity. Qed.

(** X17.  When the chunk returns, as its last result, the table
    [{u1, v1, ..., uk, vk}] of pairs of vertices between 1 and [n], the
    function sets the cell [n * (u - 1) + (v - 1)] of the array to 1 for
    each pair [(u, v)] and leaves every other cell as it was; it writes one
    line [edge (u-1,v-1)] for each pair, in order; and it closes the
    interpreter.  A last entry without a partner is ignored. *)
Theorem getGraphFromLua_sets_cells
    (luaO_str2num : string → option (Z + lua_Number)) (P : Platform)
    buf n h pk p0 chunk edges tail :
  libs_ready P pk p0 →
  luaL_loadfile_ret P buf (load_world P pk p0) = (0, chunk) →
  chunk_returns P (script_world (luaL_openlibs_ret P (luaL_newstate_ret P)) pk
                     (new_path P p0) chunk n) (edge_items edges ++ tail) →
  (length tail <= 1)%nat →
  Forall (in_range n) edges →
  fits_int (n * n) →
  Z.of_nat (length (outMatrix h)) = n * n →
  fits_int (2 * Z.of_nat (length edges) + 1) →
  getGraphFromLua luaO_str2num P buf n h =
    (MexRet tt,
     mkHost None (set_cells n edges (outMatrix h)) (printed h ++ edge_lines edges)).
Proof.
  intros Hlibs Hload Hret Htail Hrange Hn Hlen Hfit.
  apply (getGraphFromLua_run luaO_str2num P buf n h pk p0 chunk edges tail); try done.
  eapply Forall_impl; [exact Hrange |].
  intros e He. by apply in_range_defined.
Qed.

Lemma getGraphFromLua_sets_cells_witness :
  getGraphFromLua decimal_str2num demo_platform "graph.lua" 3 demo_host =
    (MexRet tt,
     mkHost None (set_cells 3 [(1, 2); (2, 3)] (outMatrix demo_host))
       (printed demo_host ++ edge_lines [(1, 2); (2, 3)])).
Proof.
  apply (getGraphFromLua_sets_cells decimal_str2num demo_platform "graph.lua" 3 demo_host
           2 "./?.lua" (LFunction 1) [(1, 2); (2, 3)] [LInteger 7]).
  - split; [reflexivity |]. split; [eexists; reflexivity |].
    split; [reflexivity |]. vm_compute. lia.
  - reflexivity.
  - eexists _, _, _. split; [reflexivity |].
    split; [vm_compute; reflexivity |].
    split; [vm_compute; reflexivity |].
    split; [reflexivity |].
    intros Hin. simpl in Hin.
    repeat (apply elem_of_cons in Hin as [Hin | Hin]; [discriminate |]).
    by apply elem_of_nil in Hin.
  - simpl. lia.
  - repeat constructor; simpl; lia.
  - vm_compute. split; discriminate.
  - reflexivity.
  - vm_compute. split; discriminate.
Defined.

(** X18.  The ends of a pair are not checked against [n].  At the first
    pair whose cell [n * (u - 1) + (v - 1)] is outside the array, or whose
    [int] arithmetic overflows, the behaviour of the function is
    undefined: it writes outside the array. *)
Theorem getGraphFromLua_unchecked_pair
    (luaO_str2num : string → option (Z + lua_Number)) (P : Platform)
    buf n h pk p0 chunk pre u v rest tail :
  libs_ready P pk p0 →
  luaL_loadfile_ret P buf (load_world P pk p0) = (0, chunk) →
  chunk_returns P (script_world (luaL_openlibs_ret P (luaL_newstate_ret P)) pk
                     (new_path P p0) chunk n)
    (edge_items (pre ++ (u, v) :: rest) ++ tail) →
  (length tail <= 1)%nat →
  fits_int (2 * Z.of_nat (length (pre ++ (u, v) :: rest)) + 1) →
  Forall (edge_defined n (length (outMatrix h))) pre →
  fits_int u → fits_int v →
  ¬ edge_defined n (length (outMatrix h)) (u, v) →
  (getGraphFromLua luaO_str2num P buf n h).1 = MexUndefined.
Proof.
  intros Hlibs Hload (w & rt & t & Hcall & Hlast & Ht & Hseq & _) Htail Hfit Hpre
    Hfu Hfv Hnot.
  rewrite (getGraphFromLua_loaded luaO_str2num P buf n h pk p0 chunk Hlibs Hload).
  rewrite (xbind_Ret _ _ _ 0 (mkHost (Some w) (outMatrix h) (printed h))).
  2:{ unfold lua_pcall. simpl. apply lua_Ret. by rewrite Hcall. }
  rewrite (xbind_Ret _ _ _ tt (mkHost (Some w) (outMatrix h) (printed h))) by done.
  apply (read_edges_undefined luaO_str2num n w rt t pre u v rest tail); try done.
  by apply index2value_of_last.
Qed.

Lemma getGraphFromLua_unchecked_pair_witness :
  (getGraphFromLua decimal_str2num demo_platform "wide.lua" 3 demo_host).1 = MexUndefined.
Proof.
  apply (getGraphFromLua_unchecked_pair decimal_str2num demo_platform "wide.lua" 3
           demo_host 2 "./?.lua" (LFunction 3) [(1, 2)] 4 1 [] []).
  - split; [reflexivity |]. split; [eexists; reflexivity |].
    split; [reflexivity |]. vm_compute. lia.
  - reflexivity.
  - eexists _, _, _. split; [reflexivity |].
    split; [vm_compute; reflexivity |].
    split; [vm_compute; reflexivity |].
    split; [reflexivity |].
    intros Hin. simpl in Hin.
    repeat (apply elem_of_cons in Hin as [Hin | Hin]; [discriminate |]).
    by apply elem_of_nil in Hin.
  - simpl. lia.
  - vm_compute. split; discriminate.
  - repeat constructor; vm_compute; try discriminate; done.
  - vm_compute. split; discriminate.
  - vm_compute. split; discriminate.
  - intros (_ & _ & _ & _ & _ & _ & _ & Hlt). vm_compute in Hlt. done.
Defined.

(** A vertex beyond [n] whose cell is inside the array: with [n = 3] the
    pair [(1, 4)] sets the cell 3, which is the cell of the pair [(2, 1)]. *)
Example getGraphFromLua_vertex_beyond_n :
  getGraphFromLua decimal_str2num demo_platform "beyond.lua" 3 demo_host =
    (MexRet tt,
     mkHost None (set_cells 3 [(2, 1)] (outMatrix demo_host)) [edge_line 0 3]).
Proof. vm_compute. reflexivity. Qed.

(** X19.  [mexFunction] checks the counts first, whatever the arguments
    are: with a number of inputs other than two it leaves with
    [MATLAB:grazil:invalidNumInputs], and with two inputs and more than one
    output with [MATLAB:grazil:maxlhs]; in both cases nothing has been
    read, created or run. *)
Theorem mexFunction_checks_counts
    (luaO_str2num : string → option (Z + lua_Number)) (P : Platform) (Mx : Matlab)
    nlhs (prhs : list (mxArray Mx)) h :
  (length prhs ≠ 2%nat →
   mexFunction luaO_str2num P Mx nlhs prhs h =
     (MexError "MATLAB:grazil:invalidNumInputs" "Two input arguments required.", h))
  ∧ (length prhs = 2%nat → 1 < nlhs →
     mexFunction luaO_str2num P Mx nlhs prhs h =
       (MexError "MATLAB:grazil:maxlhs" "Too many output arguments.", h)).
Proof.
  split.
  - intros Hlen. unfold mexFunction.
    replace (Z.of_nat (length prhs) =? 2) with false
      by (symmetry; apply Z.eqb_neq; lia).
    reflexivity.
  - intros Hlen Hnlhs. unfold mexFunction.
    rewrite Hlen. change (Z.of_nat 2 =? 2) with true. cbn [negb xwhen].
    rewrite (xbind_Ret _ _ _ tt h) by done.
    rewrite (proj2 (Z.ltb_lt _ _) Hnlhs). reflexivity.
Qed.

(** X20.  With two inputs, a file name and a size [n], and at most one
    output, [mexFunction] makes an [n] by [n] array of zeros and hands it
    to [getGraphFromLua] with the name that [mxGetString] gives: when the
    chunk of that file returns the pairs of vertices [edges], all between 1
    and [n], the output array has 1 in the cells [n * (u - 1) + (v - 1)] of
    the pairs and 0 elsewhere. *)
Theorem mexFunction_builds_matrix
    (luaO_str2num : string → option (Z + lua_Number)) (P : Platform) (Mx : Matlab)
    nlhs (p0 p1 : mxArray Mx) h n pk path0 chunk edges tail :
  nlhs <= 1 →
  int_of_double (mxGetScalar Mx p1) = Some n →
  0 <= n →
  fits_int (n * n) →
  libs_ready P pk path0 →
  luaL_loadfile_ret P (mxGetString_buf Mx p0 (mxGetN Mx p0 + 1)) (load_world P pk path0) =
    (0, chunk) →
  chunk_returns P (script_world (luaL_openlibs_ret P (luaL_newstate_ret P)) pk
                     (new_path P path0) chunk n) (edge_items edges ++ tail) →
  (length tail <= 1)%nat →
  Forall (in_range n) edges →
  fits_int (2 * Z.of_nat (length edges) + 1) →
  mexFunction luaO_str2num P Mx nlhs [p0; p1] h =
    (MexRet n,
     mkHost None
       (set_cells n edges (replicate (Z.to_nat (n * n)) (FFinite 0 0)))
       (printed h ++ edge_lines edges)).
Proof.
  intros Hnlhs Hn Hn0 Hnn Hlibs Hload Hret Htail Hrange Hfit.
  unfold mexFunction. cbn [length]. change (Z.of_nat 2 =? 2) with true.
  cbn [negb xwhen].
  rewrite (xbind_Ret _ _ _ tt h) by done.
  replace (1 <? nlhs) with false by (symmetry; apply Z.ltb_ge; lia).
  cbn [xwhen]. rewrite (xbind_Ret _ _ _ tt h) by done.
  rewrite (xbind_Ret _ _ _ n h) by (unfold c_int_of_double; by rewrite Hn).
  set (h1 := set_outMatrix (replicate (Z.to_nat (n * n)) (FFinite 0 0)) h).
  rewrite (xbind_Ret _ _ _ tt h1).
  2:{ unfold mxCreateDoubleMatrix. by rewrite (proj2 (Z.leb_le _ _) Hn0). }
  rewrite (xbind_Ret _ _ _ tt
             (mkHost None (set_cells n edges (outMatrix h1)) (printed h1 ++ edge_lines edges)));
    [done |].
  apply (getGraphFromLua_run luaO_str2num P _ n h1 pk path0 chunk edges tail); try done.
  eapply Forall_impl; [exact Hrange |].
  intros e He. apply in_range_defined; [done | done |].
  unfold h1, set_outMatrix. cbn [outMatrix]. rewrite length_replicate. nia.
Qed.

Lemma mexFunction_builds_matrix_witness :
  mexFunction decimal_str2num demo_platform demo_matlab 1
    [CharRow "graph.lua"; Scalar (FFinite 3 0)] demo_host =
    (MexRet 3,
     mkHost None
       (set_cells 3 [(1, 2); (2, 3)] (replicate (Z.to_nat (3 * 3)) (FFinite 0 0)))
       (printed demo_host ++ edge_lines [(1, 2); (2, 3)])).
Proof.
  apply (mexFunction_builds_matrix decimal_str2num demo_platform demo_matlab 1
           (CharRow "graph.lua") (Scalar (FFinite 3 0)) demo_host 3
           2 "./?.lua" (LFunction 1) [(1, 2); (2, 3)] [LInteger 7]).
  - lia.
  - reflexivity.
  - lia.
  - vm_compute. split; discriminate.
  - split; [reflexivity |]. split; [eexists; reflexivity |].
    split; [reflexivity |]. vm_compute. lia.
  - reflexivity.
  - eexists _, _, _. split; [reflexivity |].
    split; [vm_compute; reflexivity |].
    split; [vm_compute; reflexivity |].
    split; [reflexivity |].
    intros Hin. simpl in Hin.
    repeat (apply elem_of_cons in Hin as [Hin | Hin]; [discriminate |]).
    by apply elem_of_nil in Hin.
  - simpl. lia.
  - repeat constructor; simpl; lia.
  - vm_compute. split; discriminate.
Defined.
